(** * gnet buffers: the linked chunk buffer and the elastic buffer

    A shallow embedding of

      - [pkg/buffer/linkedlist/linked_list_buffer.go] (package [linkedlist]),
      - the elastic buffer (package [elastic]), which combines a ring buffer
        with a linked chunk buffer,
      - the length-prefixed codec of [gnet_test.go] ([Encode], [Unpack]),

    followed by the properties of the buffers and of the codec.  The ring buffer and the two
    object pools are packages whose sources are not at hand: the elastic
    buffer is embedded over any ring buffer with the methods it calls, the
    properties that depend on what the ring does are proved for every ring
    that is a FIFO of bytes ([RingLaws]), and module [ring] gives one such
    ring.

    Conventions.  A Go [[]byte] is a [list Byte.byte]; a Go [int] is a [Z]
    (every [int] below is a length of a slice held in memory, a sum or a
    difference of such lengths, or the watermark, so the 64-bit range is never
    left and no wrap-around is written); a Go [error] is an [option error]
    with [None] for [nil]; a nillable pointer is an [option].  Methods with a
    pointer receiver take the receiver and return its new value.  The two
    object pools are process-wide variables in Go; here their state is passed
    explicitly. *)

From Stdlib Require Import ZArith List Lia Bool.
From Stdlib Require Strings.Byte.
Import ListNotations.
Local Open Scope Z_scope.

(** ** Go slices and errors *)

Abbreviation Bytes := (list Byte.byte).

(** [len(s)] *)
Definition len {A : Type} (s : list A) : Z := Z.of_nat (length s).

(** [s[:k]] and [s[k:]].  The callers below keep [0 <= k <= len(s)], where
    Go does not panic: by a test before the slice, or, for a count the ring
    buffer returns, by what is assumed of the ring ([RingLaws] below). *)
Definition slice_to {A : Type} (k : Z) (s : list A) : list A :=
  firstn (Z.to_nat k) s.
Definition slice_from {A : Type} (k : Z) (s : list A) : list A :=
  skipn (Z.to_nat k) s.

(** [copy(dst, src)]: the number of bytes copied and the new contents of [dst]. *)
Definition copy (dst src : Bytes) : Z * Bytes :=
  let m := Z.min (len dst) (len src) in
  (m, slice_to m src ++ slice_from m dst).

Inductive error : Type :=
| ErrNegativeSize            (* gerrors.ErrNegativeSize *)
| ErrShortWrite              (* io.ErrShortWrite *)
| EOF                        (* io.EOF *)
| ErrOther (code : nat).     (* any other error value *)

Definition is_EOF (e : option error) : bool :=
  match e with Some EOF => true | _ => false end.

Definition is_nil {A : Type} (e : option A) : bool :=
  match e with None => true | Some _ => false end.

(** The result of a call that may panic. *)
Inductive outcome (A : Type) : Type :=
| Returned (a : A)
| Panicked.
Arguments Returned {A} a.
Arguments Panicked {A}.

(** How a [ReadFrom] ends: it returns, panics, or is still looping when the
    fuel is spent (a reader that never reports an error or the end of its
    data keeps the loop running). *)
Inductive ended : Type :=
| Done (n : Z) (err : option error)
| Panic
| Looping.

(** [math.MaxInt32] *)
Definition MaxInt32 : Z := 2147483647.

(** ** io.Writer and io.Reader

    [io_Write w p] is [w.Write(p)]: the count, the error and the writer
    afterwards.  [io_Read r n] is [r.Read(buf)] for a buffer of length [n]:
    the count, the bytes the reader stored at the start of the buffer, the
    error and the reader afterwards. *)

Class Writer (W : Type) : Type :=
  io_Write : W -> Bytes -> Z * option error * W.

Class Reader (Rd : Type) : Type :=
  io_Read : Rd -> Z -> Z * Bytes * option error * Rd.

(** The buffer handed to [r.Read] after the call: what the reader stored,
    cut or padded to the buffer's length. *)
Definition stored (n : Z) (d : Bytes) : Bytes :=
  firstn (Z.to_nat n) (d ++ repeat Byte.x00 (Z.to_nat n)).

(** ** The byte-chunk pool *)

Module bbPool.

(** Modelled from the spec: the byte-chunk pool (package
    [pkg/pool/bytebuffer], an alias of [bytebufferpool], source not at hand).
    "A pooled, reusable, growable contiguous byte array; acquired from and
    released to a process-wide pool."  A chunk is its slice [B] with the
    capacity of [B]; the pool is the stack of the chunks released to it, and
    [Get] hands out a chunk of length 0: a released one, or a new one of
    capacity 0. *)
Record ByteBuffer : Type := mkByteBuffer { B : Bytes; capB : Z }.

Definition Len (b : ByteBuffer) : Z := len (B b).

(** [b.Write(p)] appends [p] to [b.B]. *)
Definition Write (b : ByteBuffer) (p : Bytes) : ByteBuffer :=
  mkByteBuffer (B b ++ p) (Z.max (capB b) (len (B b) + len p)).

Definition Reset (b : ByteBuffer) : ByteBuffer := mkByteBuffer [] (capB b).

Definition Pool : Type := list ByteBuffer.

Definition Get (pl : Pool) : ByteBuffer * Pool :=
  match pl with
  | [] => (mkByteBuffer [] 0, [])
  | b :: rest => (Reset b, rest)
  end.

Definition Put (b : ByteBuffer) (pl : Pool) : Pool := b :: pl.

End bbPool.

(** ** Package linkedlist *)

Module linkedlist.

(** [ByteBuffer] is the node of the linked list of bytes; [next] is the
    position in [nodes] below. *)
Record ByteBuffer : Type := mkNode { Buf : option bbPool.ByteBuffer }.

Definition ByteBuffer_Len (b : ByteBuffer) : Z :=
  match Buf b with
  | None => -1
  | Some x => bbPool.Len x
  end.

Definition ByteBuffer_IsEmpty (b : ByteBuffer) : bool :=
  match Buf b with
  | None => true
  | Some x => bbPool.Len x =? 0
  end.

(** [Buffer] is a linked list of [ByteBuffer].  The chain from [head] to
    [tail] is the list [nodes] ([head == nil] is [nodes = []]); it holds the
    [Buf] of each node, which is never nil for a node in the chain, because
    [PushFront] and [PushBack] dereference it. *)
Record Buffer : Type := mkBuffer {
  bs : list Bytes;
  nodes : list bbPool.ByteBuffer;
  size : Z;
  bytes : Z
}.

(** The zero value of [Buffer]. *)
Definition empty : Buffer := mkBuffer [] [] 0 0.

(** [b.Buf.B = b.Buf.B[m:]] *)
Definition advance (m : Z) (b : bbPool.ByteBuffer) : bbPool.ByteBuffer :=
  bbPool.mkByteBuffer (slice_from m (bbPool.B b)) (bbPool.capB b - m).

(** [Pop] returns and removes the head; on an empty list it returns nil. *)
Definition Pop (llb : Buffer) : option bbPool.ByteBuffer * Buffer :=
  match nodes llb with
  | [] => (None, llb)
  | b :: rest =>
      (Some b, mkBuffer (bs llb) rest (size llb - 1) (bytes llb - bbPool.Len b))
  end.

(** [PushFront] and [PushBack] for a node that is not nil and whose [Buf] is
    not nil.  The node is the caller's alone, a new node or the node [Pop]
    just returned, as everywhere in this package ("owned by exactly one
    holder at a time"): it is not in the chain already. *)
Definition push_front (b : bbPool.ByteBuffer) (llb : Buffer) : Buffer :=
  mkBuffer (bs llb) (b :: nodes llb) (size llb + 1) (bytes llb + bbPool.Len b).

Definition push_back (b : bbPool.ByteBuffer) (llb : Buffer) : Buffer :=
  mkBuffer (bs llb) (nodes llb ++ [b]) (size llb + 1) (bytes llb + bbPool.Len b).

(** [PushFront(b)]: nothing for a nil [b]; a nil [b.Buf] panics at
    [b.Buf.Len()]. *)
Definition PushFront (b : option ByteBuffer) (llb : Buffer) : outcome Buffer :=
  match b with
  | None => Returned llb
  | Some nd =>
      match Buf nd with
      | None => Panicked
      | Some x => Returned (push_front x llb)
      end
  end.

Definition PushBack (b : option ByteBuffer) (llb : Buffer) : outcome Buffer :=
  match b with
  | None => Returned llb
  | Some nd =>
      match Buf nd with
      | None => Panicked
      | Some x => Returned (push_back x llb)
      end
  end.

Definition PushBytesFront (p : Bytes) (llb : Buffer) (pl : bbPool.Pool)
  : Buffer * bbPool.Pool :=
  if len p =? 0 then (llb, pl)
  else
    let '(bb, pl1) := bbPool.Get pl in
    (push_front (bbPool.Write bb p) llb, pl1).

Definition PushBytesBack (p : Bytes) (llb : Buffer) (pl : bbPool.Pool)
  : Buffer * bbPool.Pool :=
  if len p =? 0 then (llb, pl)
  else
    let '(bb, pl1) := bbPool.Get pl in
    (push_back (bbPool.Write bb p) llb, pl1).

(** The loop of [Read]: one iteration per unit of fuel.  [n] is the count so
    far and [p] the destination as written so far. *)
Fixpoint Read_loop (fuel : nat) (llb : Buffer) (pl : bbPool.Pool)
  (p : Bytes) (n : Z) : Z * Bytes * Buffer * bbPool.Pool :=
  match fuel with
  | O => (n, p, llb, pl)
  | S fuel' =>
      match Pop llb with
      | (None, llb1) => (n, p, llb1, pl)
      | (Some b, llb1) =>
          let '(m, tl) := copy (slice_from n p) (bbPool.B b) in
          let p1 := slice_to n p ++ tl in
          let n1 := n + m in
          let '(llb2, pl2) :=
            if m <? bbPool.Len b
            then (push_front (advance m b) llb1, pl)
            else (llb1, bbPool.Put b pl) in
          if n1 =? len p then (n1, p1, llb2, pl2)
          else Read_loop fuel' llb2 pl2 p1 n1
      end
  end.

(** [Read(p)]: the count, the error, [p] afterwards, the list and the pool.
    The loop runs at most once per node: an iteration that pushes the rest of
    a chunk back has filled [p] and returns. *)
Definition Read (llb : Buffer) (pl : bbPool.Pool) (p : Bytes)
  : Z * option error * Bytes * Buffer * bbPool.Pool :=
  if len p =? 0 then (0, None, p, llb, pl)
  else
    let '(n, p1, llb1, pl1) := Read_loop (S (length (nodes llb))) llb pl p 0 in
    (n, None, p1, llb1, pl1).

(** The loop of [PeekBytesList] over the chain. *)
Fixpoint peek_nodes (maxBytes : Z) (l : list bbPool.ByteBuffer) (cum : Z)
  (acc : list Bytes) : list Bytes :=
  match l with
  | [] => acc
  | x :: rest =>
      let acc1 := acc ++ [bbPool.B x] in
      let cum1 := cum + bbPool.Len x in
      if cum1 >=? maxBytes then acc1 else peek_nodes maxBytes rest cum1 acc1
  end.

Definition PeekBytesList (maxBytes : Z) (llb : Buffer) : list Bytes * Buffer :=
  let maxBytes := if maxBytes <=? 0 then MaxInt32 else maxBytes in
  let r := peek_nodes maxBytes (nodes llb) 0 [] in
  (r, mkBuffer r (nodes llb) (size llb) (bytes llb)).

(** The first loop of [PeekBytesListWithBytes], over the slices given: the
    slices gathered, the count, and whether the function returns there. *)
Fixpoint peek_given (maxBytes : Z) (given : list Bytes) (cum : Z)
  (acc : list Bytes) : list Bytes * Z * bool :=
  match given with
  | [] => (acc, cum, false)
  | b :: rest =>
      let n := len b in
      if n >? 0 then
        let acc1 := acc ++ [b] in
        let cum1 := cum + n in
        if cum1 >=? maxBytes then (acc1, cum1, true)
        else peek_given maxBytes rest cum1 acc1
      else peek_given maxBytes rest cum acc
  end.

Definition PeekBytesListWithBytes (maxBytes : Z) (given : list Bytes)
  (llb : Buffer) : list Bytes * Buffer :=
  let maxBytes := if maxBytes <=? 0 then MaxInt32 else maxBytes in
  let '(acc, cum, done) := peek_given maxBytes given 0 [] in
  let r := if done then acc else peek_nodes maxBytes (nodes llb) cum acc in
  (r, mkBuffer r (nodes llb) (size llb) (bytes llb)).

(** The loop of [Discard]. *)
Fixpoint Discard_loop (fuel : nat) (llb : Buffer) (pl : bbPool.Pool)
  (n discarded : Z) : Z * Buffer * bbPool.Pool :=
  match fuel with
  | O => (discarded, llb, pl)
  | S fuel' =>
      if n =? 0 then (discarded, llb, pl)
      else
        match Pop llb with
        | (None, llb1) => (discarded, llb1, pl)
        | (Some b, llb1) =>
            if n <? bbPool.Len b
            then (discarded + n, push_front (advance n b) llb1, pl)
            else Discard_loop fuel' llb1 (bbPool.Put b pl)
                   (n - bbPool.Len b) (discarded + bbPool.Len b)
        end
  end.

Definition Discard (llb : Buffer) (pl : bbPool.Pool) (n : Z)
  : Z * option error * Buffer * bbPool.Pool :=
  if n <=? 0 then (0, None, llb, pl)
  else
    let '(d, llb1, pl1) := Discard_loop (S (length (nodes llb))) llb pl n 0 in
    (d, None, llb1, pl1).

Definition minRead : Z := 512.

(** The loop of [ReadFrom].  [bb.B[:m]] panics for [m] beyond the buffer. *)
Fixpoint ReadFrom_loop {Rd : Type} `{Reader Rd} (fuel : nat) (llb : Buffer)
  (pl : bbPool.Pool) (r : Rd) (n : Z) : ended * Buffer * bbPool.Pool * Rd :=
  match fuel with
  | O => (Looping, llb, pl, r)
  | S fuel' =>
      let '(bb, pl1) := bbPool.Get pl in
      let l := if bbPool.capB bb =? 0 then minRead else bbPool.capB bb in
      let '(m, d, err, r1) := io_Read r l in
      if m <? 0 then (Panic, llb, pl1, r1)
      else
        let n1 := n + m in
        if m >? l then (Panic, llb, pl1, r1)
        else
          let bb1 := bbPool.mkByteBuffer (slice_to m (stored l d)) l in
          if is_EOF err then (Done n1 None, llb, bbPool.Put bb1 pl1, r1)
          else if negb (is_nil err) then (Done n1 err, llb, bbPool.Put bb1 pl1, r1)
          else ReadFrom_loop fuel' (push_back bb1 llb) pl1 r1 n1
  end.

Definition ReadFrom {Rd : Type} `{Reader Rd} (fuel : nat) (llb : Buffer)
  (pl : bbPool.Pool) (r : Rd) : ended * Buffer * bbPool.Pool * Rd :=
  ReadFrom_loop fuel llb pl r 0.

(** The loop of [WriteTo]: the count, the error, the list, the pool and the
    writer, or a panic.  [b.Buf.B[m:]] panics for a negative [m]. *)
Fixpoint WriteTo_loop {W : Type} `{Writer W} (fuel : nat) (llb : Buffer)
  (pl : bbPool.Pool) (w : W) (n : Z)
  : outcome (Z * option error) * Buffer * bbPool.Pool * W :=
  match fuel with
  | O => (Returned (n, None), llb, pl, w)
  | S fuel' =>
      match Pop llb with
      | (None, llb1) => (Returned (n, None), llb1, pl, w)
      | (Some b, llb1) =>
          let '(m, err, w1) := io_Write w (bbPool.B b) in
          if m >? bbPool.Len b then (Panicked, llb1, pl, w1)
          else
            let n1 := n + m in
            if negb (is_nil err) then (Returned (n1, err), llb1, pl, w1)
            else if m <? bbPool.Len b then
              if m <? 0 then (Panicked, llb1, pl, w1)
              else (Returned (n1, Some ErrShortWrite),
                    push_front (advance m b) llb1, pl, w1)
            else WriteTo_loop fuel' llb1 pl w1 n1
      end
  end.

Definition WriteTo {W : Type} `{Writer W} (llb : Buffer) (pl : bbPool.Pool)
  (w : W) : outcome (Z * option error) * Buffer * bbPool.Pool * W :=
  WriteTo_loop (S (length (nodes llb))) llb pl w 0.

(** [Len] returns the length of the list. *)
Definition Len (llb : Buffer) : Z := size llb.

Definition Buffered (llb : Buffer) : Z := bytes llb.

Definition IsEmpty (llb : Buffer) : bool :=
  match nodes llb with [] => true | _ :: _ => false end.

(** The loop of [Reset]: every node is popped and its chunk released. *)
Fixpoint Reset_loop (fuel : nat) (llb : Buffer) (pl : bbPool.Pool)
  : Buffer * bbPool.Pool :=
  match fuel with
  | O => (llb, pl)
  | S fuel' =>
      match Pop llb with
      | (None, llb1) => (llb1, pl)
      | (Some b, llb1) => Reset_loop fuel' llb1 (bbPool.Put b pl)
      end
  end.

Definition Reset (llb : Buffer) (pl : bbPool.Pool) : Buffer * bbPool.Pool :=
  let '(_, pl1) := Reset_loop (S (length (nodes llb))) llb pl in
  (mkBuffer [] [] 0 0, pl1).

End linkedlist.

(** ** The ring buffer, as the elastic buffer uses it *)

(** The source of package [pkg/buffer/ring] is not at hand: the elastic buffer is
    embedded over any type [R] of ring buffers with the methods it calls.
    [ring_Read r p] gives the count, the error, [p] afterwards and the ring
    afterwards; [ring_Peek] the two slices [head] and [tail]; [ring_New] is
    the ring the pool creates when it has none to hand out. *)
Class RingBuffer (R : Type) : Type := {
  ring_New : R;
  ring_Read : R -> Bytes -> Z * option error * Bytes * R;
  ring_Peek : R -> Z -> Bytes * Bytes;
  ring_Discard : R -> Z -> Z * option error * R;
  ring_Write : R -> Bytes -> Z * option error * R;
  ring_ReadFrom : forall (Rd : Type), Reader Rd -> nat -> R -> Rd -> ended * R * Rd;
  ring_WriteTo : forall (W : Type), Writer W -> R -> W ->
                 outcome (Z * option error) * R * W;
  ring_Len : R -> Z;
  ring_Available : R -> Z;
  ring_Buffered : R -> Z;
  ring_IsEmpty : R -> bool;
  ring_Reset : R -> R
}.

Module rbPool.
Section Pool.
Context {R : Type} `{RingBuffer R}.

(** Modelled from the spec: the ring-buffer pool (package
    [pkg/pool/ringbuffer], source not at hand).  "When ring becomes empty, it is
    returned to its pool and re-acquired only on the next write."  The pool
    is the stack of the rings released to it; [Get] hands out a reset ring:
    a released one, or a new one. *)
Definition Pool : Type := list R.

Definition Get (pl : Pool) : R * Pool :=
  match pl with
  | [] => (ring_New, [])
  | r :: rest => (ring_Reset r, rest)
  end.

Definition Put (r : R) (pl : Pool) : Pool := r :: pl.

End Pool.
Arguments Pool R : clear implicits.
End rbPool.

(** ** Package elastic *)

Module elastic.
Section Elastic.
Context {R : Type} `{RingBuffer R}.

(** [Buffer] combines ring-buffer and list-buffer. *)
Record Buffer : Type := mkBuffer {
  maxStaticBytes : Z;
  ringBuffer : option R;
  listBuffer : linkedlist.Buffer
}.

(** The two pools, [rbPool] and [bbPool]. *)
Record Pools : Type := mkPools {
  rings : rbPool.Pool R;
  chunks : bbPool.Pool
}.

(** [New] instantiates an [elastic.Buffer] and returns it. *)
Definition New (maxStaticBytes : Z) (ps : Pools)
  : option Buffer * option error * Pools :=
  if maxStaticBytes <=? 0 then (None, Some ErrNegativeSize, ps)
  else
    let '(r, rb1) := rbPool.Get (rings ps) in
    (Some (mkBuffer maxStaticBytes (Some r) linkedlist.empty), None,
     mkPools rb1 (chunks ps)).

(** [if mb.ringBuffer.IsEmpty() { rbPool.Put(mb.ringBuffer); mb.ringBuffer = nil }] *)
Definition release_if_empty (r : R) (rb : rbPool.Pool R)
  : option R * rbPool.Pool R :=
  if ring_IsEmpty r then (None, rbPool.Put r rb) else (Some r, rb).

(** [Read] reads data from the [Buffer]. *)
Definition Read (mb : Buffer) (ps : Pools) (p : Bytes)
  : Z * option error * Bytes * Buffer * Pools :=
  match ringBuffer mb with
  | None =>
      let '(n, err, p1, l1, bb1) :=
        linkedlist.Read (listBuffer mb) (chunks ps) p in
      (n, err, p1, mkBuffer (maxStaticBytes mb) None l1, mkPools (rings ps) bb1)
  | Some r =>
      let '(n, err, p1, r1) := ring_Read r p in
      let '(ring1, rb1) := release_if_empty r1 (rings ps) in
      if n =? len p
      then (n, err, p1, mkBuffer (maxStaticBytes mb) ring1 (listBuffer mb),
            mkPools rb1 (chunks ps))
      else
        let '(m, err2, tl, l1, bb1) :=
          linkedlist.Read (listBuffer mb) (chunks ps) (slice_from n p1) in
        (n + m, err2, slice_to n p1 ++ tl,
         mkBuffer (maxStaticBytes mb) ring1 l1, mkPools rb1 bb1)
  end.

(** [Peek] returns n bytes as [[][]byte]; the list buffer keeps the slices
    in its field [bs]. *)
Definition Peek (mb : Buffer) (n : Z) : list Bytes * Buffer :=
  match ringBuffer mb with
  | None =>
      let '(r, l1) := linkedlist.PeekBytesList n (listBuffer mb) in
      (r, mkBuffer (maxStaticBytes mb) None l1)
  | Some rg =>
      let n := if n <=? 0 then MaxInt32 else n in
      let '(head, tail) := ring_Peek rg n in
      if ring_Buffered rg >=? n then ([head; tail], mb)
      else
        let '(r, l1) :=
          linkedlist.PeekBytesListWithBytes n [head; tail] (listBuffer mb) in
        (r, mkBuffer (maxStaticBytes mb) (Some rg) l1)
  end.

(** [Discard] discards n bytes in this buffer. *)
Definition Discard (mb : Buffer) (ps : Pools) (n : Z)
  : Z * option error * Buffer * Pools :=
  match ringBuffer mb with
  | None =>
      let '(d, err, l1, bb1) :=
        linkedlist.Discard (listBuffer mb) (chunks ps) n in
      (d, err, mkBuffer (maxStaticBytes mb) None l1, mkPools (rings ps) bb1)
  | Some r =>
      let rbLen := ring_Buffered r in
      let '(discarded, err, r1) := ring_Discard r n in
      if n <=? rbLen then
        if n =? rbLen
        then (discarded, err, mkBuffer (maxStaticBytes mb) None (listBuffer mb),
              mkPools (rbPool.Put r1 (rings ps)) (chunks ps))
        else (discarded, err,
              mkBuffer (maxStaticBytes mb) (Some r1) (listBuffer mb), ps)
      else
        let rb1 := rbPool.Put r1 (rings ps) in
        let n := n - rbLen in
        let '(m, err2, l1, bb1) :=
          linkedlist.Discard (listBuffer mb) (chunks ps) n in
        (discarded + m, err2, mkBuffer (maxStaticBytes mb) None l1,
         mkPools rb1 bb1)
  end.

(** [if mb.ringBuffer == nil && mb.listBuffer.IsEmpty() { mb.ringBuffer = rbPool.Get() }],
    the first statement of [Write], [Writev] and [ReadFrom]. *)
Definition acquire (mb : Buffer) (ps : Pools) : Buffer * Pools :=
  if is_nil (ringBuffer mb) && linkedlist.IsEmpty (listBuffer mb) then
    let '(r, rb1) := rbPool.Get (rings ps) in
    (mkBuffer (maxStaticBytes mb) (Some r) (listBuffer mb),
     mkPools rb1 (chunks ps))
  else (mb, ps).

(** [!mb.listBuffer.IsEmpty() || mb.ringBuffer.Buffered() >= mb.maxStaticBytes];
    the second operand is evaluated on a ring that is not nil, since a nil
    ring after [acquire] means a list that is not empty. *)
Definition to_list (mb : Buffer) : bool :=
  negb (linkedlist.IsEmpty (listBuffer mb)) ||
  match ringBuffer mb with
  | Some r => ring_Buffered r >=? maxStaticBytes mb
  | None => true
  end.

(** [Write] appends data to this buffer. *)
Definition Write (mb : Buffer) (ps : Pools) (p : Bytes)
  : Z * option error * Buffer * Pools :=
  let '(mb, ps) := acquire mb ps in
  match to_list mb, ringBuffer mb with
  | false, Some r =>
      let w := maxStaticBytes mb in
      let writable := ring_Available r in
      if (ring_Len r >=? w) && (len p >? writable) then
        let '(_, _, r1) := ring_Write r (slice_to writable p) in
        let '(l1, bb1) :=
          linkedlist.PushBytesBack (slice_from writable p) (listBuffer mb)
            (chunks ps) in
        (len p, None, mkBuffer w (Some r1) l1, mkPools (rings ps) bb1)
      else
        let '(n, err, r1) := ring_Write r p in
        (n, err, mkBuffer w (Some r1) (listBuffer mb), ps)
  | _, _ =>
      let '(l1, bb1) :=
        linkedlist.PushBytesBack p (listBuffer mb) (chunks ps) in
      (len p, None, mkBuffer (maxStaticBytes mb) (ringBuffer mb) l1,
       mkPools (rings ps) bb1)
  end.

(** [for _, b := range bs { mb.listBuffer.PushBytesBack(b); n += len(b) }],
    also the second loop of [Writev], from [pos+1] on. *)
Fixpoint push_all (bs : list Bytes) (l : linkedlist.Buffer)
  (bb : bbPool.Pool) (n : Z) : Z * linkedlist.Buffer * bbPool.Pool :=
  match bs with
  | [] => (n, l, bb)
  | b :: rest =>
      let '(l1, bb1) := linkedlist.PushBytesBack b l bb in
      push_all rest l1 bb1 (n + len b)
  end.

(** The first loop of [Writev]: the ring, the list and the pool afterwards,
    [cum], and the slices after position [pos]. *)
Fixpoint fill (bs : list Bytes) (r : R) (l : linkedlist.Buffer)
  (bb : bbPool.Pool) (writable cum : Z)
  : R * linkedlist.Buffer * bbPool.Pool * Z * list Bytes :=
  match bs with
  | [] => (r, l, bb, cum, [])
  | b :: rest =>
      let cum1 := cum + len b in
      if len b >? writable then
        let '(_, _, r1) := ring_Write r (slice_to writable b) in
        let '(l1, bb1) :=
          linkedlist.PushBytesBack (slice_from writable b) l bb in
        (r1, l1, bb1, cum1, rest)
      else
        let '(n, _, r1) := ring_Write r b in
        fill rest r1 l bb (writable - n) cum1
  end.

(** [Writev] appends multiple byte slices to this buffer. *)
Definition Writev (mb : Buffer) (ps : Pools) (bs : list Bytes)
  : Z * option error * Buffer * Pools :=
  let '(mb, ps) := acquire mb ps in
  match to_list mb, ringBuffer mb with
  | false, Some r =>
      let w := maxStaticBytes mb in
      let writable :=
        if ring_Len r <? w then w - ring_Buffered r else ring_Available r in
      let '(r1, l1, bb1, cum, rest) :=
        fill bs r (listBuffer mb) (chunks ps) writable 0 in
      let '(cum1, l2, bb2) := push_all rest l1 bb1 cum in
      (cum1, None, mkBuffer w (Some r1) l2, mkPools (rings ps) bb2)
  | _, _ =>
      let '(n, l1, bb1) := push_all bs (listBuffer mb) (chunks ps) 0 in
      (n, None, mkBuffer (maxStaticBytes mb) (ringBuffer mb) l1,
       mkPools (rings ps) bb1)
  end.

(** [ReadFrom] implements [io.ReaderFrom]. *)
Definition ReadFrom {Rd : Type} `{Reader Rd} (fuel : nat) (mb : Buffer)
  (ps : Pools) (rd : Rd) : ended * Buffer * Pools * Rd :=
  let '(mb, ps) := acquire mb ps in
  match to_list mb, ringBuffer mb with
  | false, Some r =>
      let '(e, r1, rd1) := ring_ReadFrom Rd _ fuel r rd in
      (e, mkBuffer (maxStaticBytes mb) (Some r1) (listBuffer mb), ps, rd1)
  | _, _ =>
      let '(e, l1, bb1, rd1) :=
        linkedlist.ReadFrom fuel (listBuffer mb) (chunks ps) rd in
      (e, mkBuffer (maxStaticBytes mb) (ringBuffer mb) l1,
       mkPools (rings ps) bb1, rd1)
  end.

(** [WriteTo] implements [io.WriterTo]. *)
Definition WriteTo {W : Type} `{Writer W} (mb : Buffer) (ps : Pools) (w : W)
  : outcome (Z * option error) * Buffer * Pools * W :=
  match ringBuffer mb with
  | None =>
      let '(res, l1, bb1, w1) :=
        linkedlist.WriteTo (listBuffer mb) (chunks ps) w in
      (res, mkBuffer (maxStaticBytes mb) None l1, mkPools (rings ps) bb1, w1)
  | Some r =>
      match ring_WriteTo W _ r w with
      | (Panicked, r1, w1) =>
          (Panicked, mkBuffer (maxStaticBytes mb) (Some r1) (listBuffer mb),
           ps, w1)
      | (Returned (n, err), r1, w1) =>
          let '(ring1, rb1) := release_if_empty r1 (rings ps) in
          if negb (is_nil err)
          then (Returned (n, err),
                mkBuffer (maxStaticBytes mb) ring1 (listBuffer mb),
                mkPools rb1 (chunks ps), w1)
          else
            match linkedlist.WriteTo (listBuffer mb) (chunks ps) w1 with
            | (Panicked, l1, bb1, w2) =>
                (Panicked, mkBuffer (maxStaticBytes mb) ring1 l1,
                 mkPools rb1 bb1, w2)
            | (Returned (m, err2), l1, bb1, w2) =>
                (Returned (n + m, err2),
                 mkBuffer (maxStaticBytes mb) ring1 l1, mkPools rb1 bb1, w2)
            end
      end
  end.

(** [Buffered] returns the number of bytes that can be read from the
    current buffer. *)
Definition Buffered (mb : Buffer) : Z :=
  match ringBuffer mb with
  | None => linkedlist.Buffered (listBuffer mb)
  | Some r => ring_Buffered r + linkedlist.Buffered (listBuffer mb)
  end.

(** [IsEmpty] indicates whether this buffer is empty. *)
Definition IsEmpty (mb : Buffer) : bool :=
  match ringBuffer mb with
  | None => linkedlist.IsEmpty (listBuffer mb)
  | Some r => ring_IsEmpty r && linkedlist.IsEmpty (listBuffer mb)
  end.

(** [Reset] resets the buffer. *)
Definition Reset (mb : Buffer) (ps : Pools) (maxStaticBytes' : Z)
  : Buffer * Pools :=
  let ring1 :=
    match ringBuffer mb with
    | Some r => Some (ring_Reset r)
    | None => None
    end in
  let '(l1, bb1) := linkedlist.Reset (listBuffer mb) (chunks ps) in
  (mkBuffer (if maxStaticBytes' >? 0 then maxStaticBytes' else maxStaticBytes mb)
     ring1 l1,
   mkPools (rings ps) bb1).

(** [Release] frees all resource of this buffer. *)
Definition Release (mb : Buffer) (ps : Pools) : Buffer * Pools :=
  let '(ring1, rb1) :=
    match ringBuffer mb with
    | Some r => (None, rbPool.Put r (rings ps))
    | None => (None, rings ps)
    end in
  let '(l1, bb1) := linkedlist.Reset (listBuffer mb) (chunks ps) in
  (mkBuffer (maxStaticBytes mb) ring1 l1, mkPools rb1 bb1).

End Elastic.
Arguments Buffer R : clear implicits.
Arguments Pools R : clear implicits.
End elastic.

(** ** What the elastic buffer expects of a ring buffer *)

(** The bytes a ring holds, oldest first. *)
Class RingView (R : Type) : Type :=
  ring_bytes : R -> Bytes.

(** The ring is a FIFO of bytes ("fixed-capacity, growable,
    contiguous-on-demand FIFO of bytes"):

    - [Buffered] and [IsEmpty] measure the bytes held, [Available] is a count;
    - [Peek(n)] returns the next [n] bytes in two slices, without removing them;
    - [Read(p)] moves the oldest bytes into [p], as many as fit;
    - [Discard(n)] removes the oldest [n] bytes, or all when fewer are held;
    - [Write(p)] appends [p], growing the ring when needed, and reports
      [len(p)] and no error: the elastic buffer drops the error of every write
      it splits ([_, _ = mb.ringBuffer.Write(...)]);
    - [Reset] and a new ring hold nothing;
    - [WriteTo] follows [io.WriterTo]: it returns no error only when no data
      is left to write. *)
Class RingLaws (R : Type) `{RingBuffer R} `{RingView R} : Prop := {
  ring_Buffered_spec : forall r, ring_Buffered r = len (ring_bytes r);
  ring_IsEmpty_spec : forall r, ring_IsEmpty r = (len (ring_bytes r) =? 0);
  ring_Available_spec : forall r, 0 <= ring_Available r;
  ring_Peek_spec : forall r n h t,
    0 < n -> ring_Peek r n = (h, t) -> h ++ t = slice_to n (ring_bytes r);
  ring_Read_spec : forall r p n err p1 r1,
    ring_Read r p = (n, err, p1, r1) ->
    n = Z.min (len p) (len (ring_bytes r)) /\
    p1 = slice_to n (ring_bytes r) ++ slice_from n p /\
    ring_bytes r1 = slice_from n (ring_bytes r);
  ring_Discard_spec : forall r n d err r1,
    0 < n -> ring_Discard r n = (d, err, r1) ->
    d = Z.min n (len (ring_bytes r)) /\
    ring_bytes r1 = slice_from n (ring_bytes r);
  ring_Write_spec : forall r p n err r1,
    ring_Write r p = (n, err, r1) ->
    n = len p /\ err = None /\ ring_bytes r1 = ring_bytes r ++ p;
  ring_Reset_spec : forall r, ring_bytes (ring_Reset r) = [];
  ring_New_spec : ring_bytes ring_New = [];
  ring_WriteTo_spec : forall (W : Type) (wr : Writer W) r w n r1 w1,
    ring_WriteTo W wr r w = (Returned (n, None), r1, w1) ->
    ring_bytes r1 = []
}.

(** ** A ring buffer *)

Module ring.

(** Modelled from the spec: the ring buffer (package [pkg/buffer/ring], source
    not at hand).  "A power-of-two-sized circular byte region with head/tail
    indices. Invariants: size == tail - head (unsigned modular), size <=
    capacity, grows by doubling"; "Peek(n) returns up to two contiguous slices
    (the head-to-end segment and the wrap-around segment)".  The region holds
    the bytes [data], oldest first, from index [head] on, and [free] unused
    bytes after them: its capacity is [len(data) + free] and its tail index
    [(head + len(data)) mod capacity].  The spec's ceiling on the growth is
    left out: the elastic buffer configures none, and it takes every write to
    the ring as done. *)
Record Buffer : Type := mkBuffer {
  data : Bytes;
  free : nat;
  head : Z
}.

(** Modelled from the spec: [Buffered()], [Available()], [IsEmpty()] and the
    length of the region, "size <= capacity". *)
Definition Cap (rb : Buffer) : Z := len (data rb) + Z.of_nat (free rb).
Definition Len (rb : Buffer) : Z := Cap rb.
Definition Buffered (rb : Buffer) : Z := len (data rb).
Definition Available (rb : Buffer) : Z := Z.of_nat (free rb).
Definition IsEmpty (rb : Buffer) : bool := len (data rb) =? 0.

(** Modelled from the spec: a new ring has no region yet, and a reset ring
    keeps its region and holds nothing. *)
Definition New : Buffer := mkBuffer [] 0 0.

Definition Reset (rb : Buffer) : Buffer :=
  mkBuffer [] (Z.to_nat (Cap rb)) 0.

(** The next read index after [n] bytes are taken from the head. *)
Definition step (rb : Buffer) (n : Z) : Z :=
  if Cap rb =? 0 then 0 else (head rb + n) mod Cap rb.

(** The oldest [n] bytes leave the ring; a ring left empty is reset. *)
Definition take (rb : Buffer) (n : Z) : Buffer :=
  if n >=? Buffered rb then Reset rb
  else mkBuffer (slice_from n (data rb)) (free rb + Z.to_nat n) (step rb n).

(** Modelled from the spec: "Peek(n) -> (head, tail) (two slices, lazy; no
    copy)": the next [n] bytes, cut where the region ends. *)
Definition Peek (rb : Buffer) (n : Z) : Bytes * Bytes :=
  let m := if n <=? 0 then Buffered rb else Z.min n (Buffered rb) in
  let s := slice_to m (data rb) in
  let c1 := Cap rb - head rb in
  if m <=? c1 then (s, []) else (slice_to c1 s, slice_from c1 s).

(** Modelled from the spec: [Read(p)] moves the oldest bytes into [p], as
    many as [p] takes, and [Discard(n)] drops the oldest [n] bytes. *)
Definition Read (rb : Buffer) (p : Bytes) : Z * option error * Bytes * Buffer :=
  let n := Z.min (len p) (Buffered rb) in
  (n, None, slice_to n (data rb) ++ slice_from n p,
   if n =? 0 then rb else take rb n).

Definition Discard (rb : Buffer) (n : Z) : Z * option error * Buffer :=
  if n <=? 0 then (0, None, rb)
  else (Z.min n (Buffered rb), None, take rb n).

(** The capacity after growing for [need] bytes: a power of two doubled
    until it holds them is the least power of two that does. *)
Definition grown (cap need : Z) : Z :=
  if need <=? cap then cap else 2 ^ Z.log2_up need.

(** Modelled from the spec: [Write(p)] appends [p]; "when a write exceeds
    available, double capacity": the region grows and its bytes move to its
    start. *)
Definition Write (rb : Buffer) (p : Bytes) : Z * option error * Buffer :=
  let n := len p in
  if n =? 0 then (0, None, rb)
  else if n >? Available rb then
    let need := Buffered rb + n in
    (n, None, mkBuffer (data rb ++ p) (Z.to_nat (grown (Cap rb) need - need)) 0)
  else (n, None, mkBuffer (data rb ++ p) (free rb - Z.to_nat n) (head rb)).

(** One [w.Write] of the slice [s], the oldest bytes of the ring. *)
Definition write_slice {W : Type} `{Writer W} (rb : Buffer) (w : W) (s : Bytes)
  : outcome (Z * option error) * Buffer * W :=
  let '(m, err, w1) := io_Write w s in
  if (m <? 0) || (m >? len s) then (Panicked, rb, w1)
  else
    let rb1 := if m =? 0 then rb else take rb m in
    if negb (is_nil err) then (Returned (m, err), rb1, w1)
    else if m <? len s then (Returned (m, Some ErrShortWrite), rb1, w1)
    else (Returned (m, None), rb1, w1).

(** Modelled from the spec: [WriteTo] writes the head-to-end segment, then
    the wrap-around segment, and stops at an error or a short count. *)
Definition WriteTo (W : Type) (wr : Writer W) (rb : Buffer) (w : W)
  : outcome (Z * option error) * Buffer * W :=
  let '(h, t) := Peek rb 0 in
  match write_slice rb w h with
  | (Returned (n, None), rb1, w1) =>
      if len t =? 0 then (Returned (n, None), rb1, w1)
      else
        match write_slice rb1 w1 t with
        | (Returned (m, err), rb2, w2) => (Returned (n + m, err), rb2, w2)
        | (Panicked, rb2, w2) => (Panicked, rb2, w2)
        end
  | res => res
  end.

(** Modelled from the spec: "ReadFrom(r) fills remaining capacity via one
    syscall", after growing a full ring. *)
Definition ReadFrom (Rd : Type) (rdr : Reader Rd) (fuel : nat) (rb : Buffer)
  (r : Rd) : ended * Buffer * Rd :=
  let rb0 :=
    if Available rb =? 0
    then mkBuffer (data rb)
           (Z.to_nat (grown (Cap rb) (Cap rb + 1) - Buffered rb)) 0
    else rb in
  let l := Available rb0 in
  let '(m, d, err, r1) := io_Read r l in
  if (m <? 0) || (m >? l) then (Panic, rb0, r1)
  else
    let rb1 := mkBuffer (data rb0 ++ slice_to m (stored l d))
                 (free rb0 - Z.to_nat m) (head rb0) in
    (Done m (if is_EOF err then None else err), rb1, r1).

End ring.

#[global] Instance ring_buffer : RingBuffer ring.Buffer := {|
  ring_New := ring.New;
  ring_Read := ring.Read;
  ring_Peek := ring.Peek;
  ring_Discard := ring.Discard;
  ring_Write := ring.Write;
  ring_ReadFrom := ring.ReadFrom;
  ring_WriteTo := ring.WriteTo;
  ring_Len := ring.Len;
  ring_Available := ring.Available;
  ring_Buffered := ring.Buffered;
  ring_IsEmpty := ring.IsEmpty;
  ring_Reset := ring.Reset
|}.

#[global] Instance ring_view : RingView ring.Buffer := ring.data.

(** ** The contents of the buffers *)

(** The sum of the lengths of the chunks of a chain. *)
Fixpoint sum_len (l : list bbPool.ByteBuffer) : Z :=
  match l with
  | [] => 0
  | b :: rest => bbPool.Len b + sum_len rest
  end.

(** The invariant of the linked chunk buffer:
    [byte_count == sum(len(chunk))]. *)
Definition bytes_inv (llb : linkedlist.Buffer) : Prop :=
  linkedlist.bytes llb = sum_len (linkedlist.nodes llb).

(** The bytes of a chain, oldest first. *)
Definition chain_bytes (l : list bbPool.ByteBuffer) : Bytes :=
  concat (map bbPool.B l).

Definition list_bytes (llb : linkedlist.Buffer) : Bytes :=
  chain_bytes (linkedlist.nodes llb).

(** The total length of a list of slices. *)
Fixpoint total_len (bs : list Bytes) : Z :=
  match bs with
  | [] => 0
  | b :: rest => len b + total_len rest
  end.

Section ElasticContents.
Context {R : Type} `{RingBuffer R} `{RingView R}.

(** The bytes in the ring of an elastic buffer, none for a nil ring. *)
Definition ring_part (mb : elastic.Buffer R) : Bytes :=
  match elastic.ringBuffer mb with
  | Some r => ring_bytes r
  | None => []
  end.

(** The bytes of an elastic buffer in the order they are read: the ring,
    then the list. *)
Definition elastic_bytes (mb : elastic.Buffer R) : Bytes :=
  ring_part mb ++ list_bytes (elastic.listBuffer mb).

(** [Write(bs[0])], [Write(bs[1])], ... in order: the sum of the counts and
    the buffer and the pools at the end. *)
Fixpoint Write_each (mb : elastic.Buffer R) (ps : elastic.Pools R)
  (bs : list Bytes) : Z * elastic.Buffer R * elastic.Pools R :=
  match bs with
  | [] => (0, mb, ps)
  | b :: rest =>
      let '(n, _, mb1, ps1) := elastic.Write mb ps b in
      let '(m, mb2, ps2) := Write_each mb1 ps1 rest in
      (n + m, mb2, ps2)
  end.

End ElasticContents.

(** ** Writers, readers and buffers used as examples *)

(** A writer that takes at most [limit] bytes a call, without an error, and
    keeps what it took. *)
Record Pipe : Type := mkPipe { limit : Z; taken : Bytes }.

#[global] Instance Pipe_writer : Writer Pipe :=
  fun w p =>
    let m := Z.min (len p) (limit w) in
    (m, None, mkPipe (limit w) (taken w ++ slice_to m p)).

(** A reader that hands out the slices of a script one call at a time, each
    cut to the buffer it is given, and then reports [io.EOF]. *)
Definition Script : Type := list Bytes.

#[global] Instance Script_reader : Reader Script :=
  fun r n =>
    match r with
    | [] => (0, [], Some EOF, [])
    | d :: rest => (len (slice_to n d), slice_to n d, None, rest)
    end.

Definition abcde : Bytes := [Byte.x61; Byte.x62; Byte.x63; Byte.x64; Byte.x65].
Definition abcdef : Bytes := abcde ++ [Byte.x66].
Definition xy : Bytes := [Byte.x78; Byte.x79].

(** A list buffer of two chunks, "xy" and "abcde". *)
Definition two_chunks : linkedlist.Buffer :=
  linkedlist.mkBuffer []
    [bbPool.mkByteBuffer xy 2; bbPool.mkByteBuffer abcde 5] 2 7.

(** A list buffer of the one chunk "abcde". *)
Definition one_chunk : linkedlist.Buffer :=
  linkedlist.mkBuffer [] [bbPool.mkByteBuffer abcde 5] 1 5.

(** The pools of a process that has released nothing yet. *)
Definition no_pools : elastic.Pools ring.Buffer := elastic.mkPools [] [].

(** An elastic buffer whose ring has been released and whose list holds the
    chunk "abcde". *)
Definition spilled : elastic.Buffer ring.Buffer :=
  elastic.mkBuffer 1 None one_chunk.

(** An elastic buffer with "xy" in its ring and "abcde" in its list. *)
Definition ring_and_list : elastic.Buffer ring.Buffer :=
  elastic.mkBuffer 2 (Some (ring.mkBuffer xy 0 0)) one_chunk.

(** The elastic buffer [New(4)] returns. *)
Definition fresh4 : elastic.Buffer ring.Buffer :=
  elastic.mkBuffer 4 (Some ring.New) linkedlist.empty.

(** ** Further invariants and conditions *)

(** [size] is the number of nodes in the chain. *)
Definition size_inv (llb : linkedlist.Buffer) : Prop :=
  linkedlist.size llb = len (linkedlist.nodes llb).

(** No chunk in the chain is empty. *)
Definition chunks_nonempty (l : list bbPool.ByteBuffer) : Prop :=
  Forall (fun b => 0 < bbPool.Len b) l.

(** A writer that never returns an error. *)
Definition never_fails (W : Type) `{Writer W} : Prop :=
  forall (w : W) (p : Bytes), snd (fst (io_Write w p)) = None.

(** ** The length-prefixed codec of the tests ([gnet_test.go])

    The codec frames a body as two bytes of magic number, four bytes of body
    length, big-endian, and the body.  [Encode] and [Unpack] work on byte
    slices and are embedded here.  A [uint16] and a [uint32] are a [Z] with
    the conversion written out as a [mod]; an [int] has 64 bits, so that
    [int(bodyLen)] is [bodyLen]. *)

(** [byte(v)] and the value of a byte. *)
Definition byte_of (v : Z) : Byte.byte :=
  match Byte.of_N (Z.to_N (v mod 256)) with
  | Some b => b
  | None => Byte.x00
  end.

Definition Z_of_byte (b : Byte.byte) : Z := Z.of_N (Byte.to_N b).

Definition uint16 (v : Z) : Z := v mod 2 ^ 16.
Definition uint32 (v : Z) : Z := v mod 2 ^ 32.

(** [make([]byte, n)] *)
Definition make (n : Z) : outcome Bytes :=
  if n <? 0 then Panicked else Returned (repeat Byte.x00 (Z.to_nat n)).

(** [s[lo:hi]] for [hi] within the length of [s]; Go panics for
    [lo < 0] and for [lo > hi]. *)
Definition slice (s : Bytes) (lo hi : Z) : outcome Bytes :=
  if (0 <=? lo) && (lo <=? hi) && (hi <=? len s)
  then Returned (slice_from lo (slice_to hi s))
  else Panicked.

(** [bytes.Equal] *)
Fixpoint bytes_Equal (a b : Bytes) : bool :=
  match a, b with
  | [], [] => true
  | x :: a', y :: b' => Byte.eqb x y && bytes_Equal a' b'
  | _, _ => false
  end.

(** A call that may panic, followed by the rest of the function. *)
Definition and_then {A B : Type} (x : outcome A) (f : A -> outcome B)
  : outcome B :=
  match x with
  | Returned a => f a
  | Panicked => Panicked
  end.

Notation "x <- e ;; f" := (and_then e (fun x => f))
  (at level 61, e at next level, right associativity).

(** The functions of [encoding/binary] the codec calls, on
    [binary.BigEndian].  Each starts with a bounds check of the last index
    it uses, and the [Put] functions write the first bytes of [b] in place:
    the result is [b] afterwards. *)
Module binary.

Definition PutUint16 (b : Bytes) (v : Z) : outcome Bytes :=
  if len b <? 2 then Panicked
  else Returned (byte_of (Z.shiftr v 8) :: byte_of v :: slice_from 2 b).

Definition PutUint32 (b : Bytes) (v : Z) : outcome Bytes :=
  if len b <? 4 then Panicked
  else Returned (byte_of (Z.shiftr v 24) :: byte_of (Z.shiftr v 16)
                 :: byte_of (Z.shiftr v 8) :: byte_of v :: slice_from 4 b).

Definition Uint32 (b : Bytes) : outcome Z :=
  match b with
  | b0 :: b1 :: b2 :: b3 :: _ =>
      Returned
        (Z.lor (Z.lor (Z.lor (Z_of_byte b3)
                             (uint32 (Z.shiftl (Z_of_byte b2) 8)))
                      (uint32 (Z.shiftl (Z_of_byte b1) 16)))
               (uint32 (Z.shiftl (Z_of_byte b0) 24)))
  | _ => Panicked
  end.

End binary.

Definition magicNumber : Z := 1314.
Definition magicNumberSize : Z := 2.
Definition bodySize : Z := 4.

(** [errIncompletePacket], and the error [Unpack] makes with
    [errors.New("invalid magic number")]. *)
Inductive codec_error : Type :=
| errIncompletePacket
| errInvalidMagicNumber.

(** [init] sets [magicNumberBytes]. *)
Definition init : outcome Bytes :=
  b <- make magicNumberSize ;;
  binary.PutUint16 b (uint16 magicNumber).

Definition magicNumberBytes : Bytes :=
  match init with
  | Returned b => b
  | Panicked => []
  end.

Module testCodec.

(** [Encode]: [data] after each statement, with the writes into the
    sub-slices of [data] put back in their place. *)
Definition Encode (buf : Bytes)
  : outcome (option Bytes * option codec_error) :=
  let bodyOffset := magicNumberSize + bodySize in
  let msgLen := bodyOffset + len buf in
  data <- make msgLen ;;
  let data := snd (copy data magicNumberBytes) in
  field <- slice data magicNumberSize bodyOffset ;;
  field <- binary.PutUint32 field (uint32 (len buf)) ;;
  let data := slice_to magicNumberSize data ++ field
              ++ slice_from bodyOffset data in
  body <- slice data bodyOffset msgLen ;;
  let data := slice_to bodyOffset data ++ snd (copy body buf)
              ++ slice_from msgLen data in
  Returned (Some data, None).

Definition Unpack (buf : Bytes)
  : outcome (option Bytes * option codec_error) :=
  let bodyOffset := magicNumberSize + bodySize in
  if len buf <? bodyOffset then Returned (None, Some errIncompletePacket)
  else
    magic <- slice buf 0 magicNumberSize ;;
    if negb (bytes_Equal magicNumberBytes magic)
    then Returned (None, Some errInvalidMagicNumber)
    else
      field <- slice buf magicNumberSize bodyOffset ;;
      bodyLen <- binary.Uint32 field ;;
      let msgLen := bodyOffset + bodyLen in
      if len buf <? msgLen then Returned (None, Some errIncompletePacket)
      else
        body <- slice buf bodyOffset msgLen ;;
        Returned (Some body, None).

End testCodec.

(** The four bytes of a body length, as [Encode] stores them. *)
Definition be32 (v : Z) : Bytes :=
  [byte_of (Z.shiftr v 24); byte_of (Z.shiftr v 16);
   byte_of (Z.shiftr v 8); byte_of v].

(** The frame of a body. *)
Definition frame (body : Bytes) : Bytes :=
  magicNumberBytes ++ be32 (uint32 (len body)) ++ body.

(** ** Slices *)

Lemma len_nonneg {A : Type} (s : list A) : 0 <= len s.
Proof. unfold len. lia. Qed.

Lemma len_nil {A : Type} : len (@nil A) = 0.
Proof. reflexivity. Qed.

Lemma len_app {A : Type} (s t : list A) : len (s ++ t) = len s + len t.
Proof. unfold len. rewrite length_app. lia. Qed.

Lemma len_cons {A : Type} (a : A) (s : list A) : len (a :: s) = 1 + len s.
Proof. unfold len. cbn [length]. lia. Qed.

Lemma len_zero {A : Type} (s : list A) : len s = 0 -> s = [].
Proof. destruct s; [reflexivity|]. rewrite len_cons. pose proof (len_nonneg s). lia. Qed.

Lemma len_slice_to {A : Type} (k : Z) (s : list A) :
  len (slice_to k s) = Z.min (Z.max 0 k) (len s).
Proof. unfold len, slice_to. rewrite length_firstn. lia. Qed.

Lemma len_slice_from {A : Type} (k : Z) (s : list A) :
  len (slice_from k s) = len s - Z.min (Z.max 0 k) (len s).
Proof. unfold len, slice_from. rewrite length_skipn. lia. Qed.

Lemma slice_to_from {A : Type} (k : Z) (s : list A) :
  slice_to k s ++ slice_from k s = s.
Proof. apply firstn_skipn. Qed.

Lemma slice_to_all {A : Type} (k : Z) (s : list A) :
  len s <= k -> slice_to k s = s.
Proof. unfold len, slice_to. intros. apply firstn_all2. lia. Qed.

Lemma slice_from_all {A : Type} (k : Z) (s : list A) :
  len s <= k -> slice_from k s = [].
Proof. unfold len, slice_from. intros. apply skipn_all2. lia. Qed.

Lemma slice_to_0 {A : Type} (k : Z) (s : list A) : k <= 0 -> slice_to k s = [].
Proof. unfold slice_to. intros. replace (Z.to_nat k) with 0%nat by lia. reflexivity. Qed.

Lemma slice_from_0 {A : Type} (k : Z) (s : list A) : k <= 0 -> slice_from k s = s.
Proof. unfold slice_from. intros. replace (Z.to_nat k) with 0%nat by lia. reflexivity. Qed.

Lemma slice_to_app_le {A : Type} (k : Z) (s t : list A) :
  k <= len s -> slice_to k (s ++ t) = slice_to k s.
Proof.
  unfold len, slice_to. intros. rewrite firstn_app.
  replace (Z.to_nat k - length s)%nat with 0%nat by lia.
  cbn [firstn]. apply app_nil_r.
Qed.

Lemma slice_to_app_ge {A : Type} (k : Z) (s t : list A) :
  len s <= k -> slice_to k (s ++ t) = s ++ slice_to (k - len s) t.
Proof.
  unfold len, slice_to. intros. rewrite firstn_app.
  rewrite firstn_all2 by lia. f_equal. f_equal. lia.
Qed.

Lemma slice_from_app_le {A : Type} (k : Z) (s t : list A) :
  k <= len s -> slice_from k (s ++ t) = slice_from k s ++ t.
Proof.
  unfold len, slice_from. intros. rewrite skipn_app.
  replace (Z.to_nat k - length s)%nat with 0%nat by lia. reflexivity.
Qed.

Lemma slice_from_app_ge {A : Type} (k : Z) (s t : list A) :
  len s <= k -> slice_from k (s ++ t) = slice_from (k - len s) t.
Proof.
  unfold len, slice_from. intros. rewrite skipn_app.
  rewrite skipn_all2 by lia. cbn [app]. f_equal. lia.
Qed.

Lemma slice_from_from {A : Type} (j k : Z) (s : list A) :
  0 <= j -> 0 <= k -> slice_from j (slice_from k s) = slice_from (k + j) s.
Proof.
  unfold slice_from. intros. rewrite skipn_skipn. f_equal. lia.
Qed.


Lemma copy_spec (dst src : Bytes) :
  copy dst src =
  (Z.min (len dst) (len src),
   slice_to (len dst) src ++ slice_from (len src) dst).
Proof.
  unfold copy. f_equal. f_equal.
  - destruct (Z.le_ge_cases (len dst) (len src)).
    + rewrite Z.min_l by lia. reflexivity.
    + rewrite Z.min_r by lia. rewrite !slice_to_all by lia. reflexivity.
  - destruct (Z.le_ge_cases (len dst) (len src)).
    + rewrite Z.min_l by lia. rewrite !slice_from_all by lia. reflexivity.
    + rewrite Z.min_r by lia. reflexivity.
Qed.

Lemma slice_to_min {A : Type} (k : Z) (s : list A) :
  slice_to (Z.min k (len s)) s = slice_to k s.
Proof.
  destruct (Z.le_ge_cases k (len s)).
  - rewrite Z.min_l by lia. reflexivity.
  - rewrite Z.min_r by lia. rewrite !slice_to_all by lia. reflexivity.
Qed.

Lemma slice_from_len_slice_to {A : Type} (k : Z) (s : list A) :
  slice_from (len (slice_to k s)) s = slice_from k s.
Proof.
  rewrite len_slice_to.
  destruct (Z.le_ge_cases k 0).
  - rewrite Z.max_l by lia. rewrite Z.min_l by apply len_nonneg.
    rewrite !slice_from_0 by lia. reflexivity.
  - rewrite Z.max_r by lia.
    destruct (Z.le_ge_cases k (len s)).
    + rewrite Z.min_l by lia. reflexivity.
    + rewrite Z.min_r by lia. rewrite !slice_from_all by lia. reflexivity.
Qed.

(** ** The ring buffer above is a FIFO of bytes *)

Lemma ring_take_data (rb : ring.Buffer) (n : Z) :
  ring.data (ring.take rb n) = slice_from n (ring.data rb).
Proof.
  unfold ring.take, ring.Buffered.
  destruct (n >=? len (ring.data rb)) eqn:E; cbn [ring.data ring.Reset].
  - symmetry. apply slice_from_all. lia.
  - reflexivity.
Qed.

Lemma ring_write_slice_done {W : Type} `{Writer W} (rb rb1 : ring.Buffer)
  (w w1 : W) (s : Bytes) (n : Z) :
  ring.write_slice rb w s = (Returned (n, None), rb1, w1) ->
  n = len s /\ ring.data rb1 = slice_from (len s) (ring.data rb).
Proof.
  unfold ring.write_slice.
  destruct (io_Write w s) as [[m err] w2].
  destruct ((m <? 0) || (m >? len s)) eqn:E; [discriminate|].
  apply orb_false_elim in E. destruct E as [E1 E2].
  destruct err as [e|]; cbn [is_nil negb]; [discriminate|].
  destruct (m <? len s) eqn:E3; intros Heq; inversion Heq; subst; clear Heq.
  assert (n = len s) by lia. subst n. split; [reflexivity|].
  destruct (len s =? 0) eqn:E4.
  - rewrite slice_from_0 by lia. reflexivity.
  - apply ring_take_data.
Qed.

Lemma ring_Peek_all (rb : ring.Buffer) (h t : Bytes) :
  ring.Peek rb 0 = (h, t) ->
  h ++ t = ring.data rb /\ t = slice_from (len h) (ring.data rb).
Proof.
  unfold ring.Peek, ring.Buffered. change (0 <=? 0) with true. cbv iota zeta.
  rewrite (slice_to_all (len (ring.data rb))) by lia.
  destruct (len (ring.data rb) <=? ring.Cap rb - ring.head rb) eqn:E;
    intros Heq; inversion Heq; subst; clear Heq.
  - rewrite app_nil_r. split; [reflexivity|].
    symmetry. apply slice_from_all. lia.
  - split; [apply slice_to_from|].
    symmetry. apply slice_from_len_slice_to.
Qed.

#[global] Instance ring_model_laws : RingLaws ring.Buffer.
Proof.
  constructor.
  - reflexivity.
  - reflexivity.
  - intros r. cbn. unfold ring.Available. lia.
  - intros r n h t Hn. cbn. unfold ring.Peek, ring.Buffered, ring_bytes, ring_view.
    replace (n <=? 0) with false by lia.
    rewrite slice_to_min.
    destruct (Z.min n (len (ring.data r)) <=? ring.Cap r - ring.head r);
      intros Heq; inversion Heq; subst; clear Heq.
    + apply app_nil_r.
    + apply slice_to_from.
  - intros r p n err p1 r1. cbn.
    unfold ring.Read, ring.Buffered, ring_bytes, ring_view.
    intros Heq; inversion Heq; subst; clear Heq.
    split; [reflexivity|]. split; [reflexivity|].
    destruct (Z.min (len p) (len (ring.data r)) =? 0) eqn:E.
    + rewrite slice_from_0 by lia. reflexivity.
    + apply ring_take_data.
  - intros r n d err r1 Hn. cbn.
    unfold ring.Discard, ring.Buffered, ring_bytes, ring_view.
    replace (n <=? 0) with false by lia.
    intros Heq; inversion Heq; subst; clear Heq.
    split; [reflexivity|]. apply ring_take_data.
  - intros r p n err r1. cbn.
    unfold ring.Write, ring_bytes, ring_view.
    destruct (len p =? 0) eqn:E.
    + intros Heq; inversion Heq; subst; clear Heq.
      rewrite (len_zero p) by lia. rewrite app_nil_r. repeat split.
    + destruct (len p >? ring.Available r);
        intros Heq; inversion Heq; subst; clear Heq; repeat split.
  - reflexivity.
  - reflexivity.
  - intros W wr r w n r1 w1. cbn.
    unfold ring.WriteTo, ring_bytes, ring_view.
    destruct (ring.Peek r 0) as [h t] eqn:EP.
    apply ring_Peek_all in EP. destruct EP as [Hht Ht].
    destruct (ring.write_slice r w h) as [[res rb1] w2] eqn:E1.
    destruct res as [[k [e|]]|]; try (intros Heq; discriminate Heq).
    apply ring_write_slice_done in E1. destruct E1 as [Hk Hrb1].
    destruct (len t =? 0) eqn:E2.
    + intros Heq. injection Heq as _ Hr _. subst r1.
      rewrite Hrb1. rewrite <- Ht. apply len_zero. lia.
    + destruct (ring.write_slice rb1 w2 t) as [[res2 rb2] w3] eqn:E3.
      destruct res2 as [[m [e|]]|]; try (intros Heq; discriminate Heq).
      intros Heq. injection Heq as _ Hr _. subst r1.
      apply ring_write_slice_done in E3. destruct E3 as [_ Hrb2].
      rewrite Hrb2, Hrb1, <- Ht. apply slice_from_all. lia.
Qed.

(** ** The linked chunk buffer keeps its byte count *)

Lemma sum_len_app (l1 l2 : list bbPool.ByteBuffer) :
  sum_len (l1 ++ l2) = sum_len l1 + sum_len l2.
Proof. induction l1 as [|b l1 IH]; cbn [sum_len app]; lia. Qed.

Lemma sum_len_chain (l : list bbPool.ByteBuffer) :
  sum_len l = len (chain_bytes l).
Proof.
  induction l as [|b l IH]; [reflexivity|].
  unfold chain_bytes in *. cbn [sum_len map concat].
  rewrite len_app, IH. reflexivity.
Qed.

Lemma Pop_nil (llb : linkedlist.Buffer) :
  linkedlist.nodes llb = [] -> linkedlist.Pop llb = (None, llb).
Proof. unfold linkedlist.Pop. intros ->. reflexivity. Qed.

Lemma Pop_cons (llb : linkedlist.Buffer) b rest :
  linkedlist.nodes llb = b :: rest ->
  linkedlist.Pop llb =
  (Some b, linkedlist.mkBuffer (linkedlist.bs llb) rest
             (linkedlist.size llb - 1) (linkedlist.bytes llb - bbPool.Len b)).
Proof. unfold linkedlist.Pop. intros ->. reflexivity. Qed.

Lemma Pop_inv (llb llb1 : linkedlist.Buffer) b :
  bytes_inv llb -> linkedlist.Pop llb = (b, llb1) -> bytes_inv llb1.
Proof.
  unfold bytes_inv, linkedlist.Pop. intros Hinv.
  destruct (linkedlist.nodes llb) as [|x rest] eqn:En;
    intros Heq; injection Heq as _ <-.
  - rewrite En. exact Hinv.
  - cbn [linkedlist.bytes linkedlist.nodes]. cbn [sum_len] in Hinv. lia.
Qed.

Lemma push_front_inv (llb : linkedlist.Buffer) b :
  bytes_inv llb -> bytes_inv (linkedlist.push_front b llb).
Proof.
  unfold bytes_inv, linkedlist.push_front. intros Hinv.
  cbn [linkedlist.bytes linkedlist.nodes sum_len]. lia.
Qed.

Lemma push_back_inv (llb : linkedlist.Buffer) b :
  bytes_inv llb -> bytes_inv (linkedlist.push_back b llb).
Proof.
  unfold bytes_inv, linkedlist.push_back. intros Hinv.
  cbn [linkedlist.bytes linkedlist.nodes]. rewrite sum_len_app.
  cbn [sum_len]. lia.
Qed.

Lemma PushFront_inv (llb llb1 : linkedlist.Buffer) b :
  bytes_inv llb -> linkedlist.PushFront b llb = Returned llb1 -> bytes_inv llb1.
Proof.
  unfold linkedlist.PushFront. intros Hinv.
  destruct b as [[[x|]]|]; intros Heq; try discriminate Heq;
    injection Heq as <-; auto using push_front_inv.
Qed.

Lemma PushBack_inv (llb llb1 : linkedlist.Buffer) b :
  bytes_inv llb -> linkedlist.PushBack b llb = Returned llb1 -> bytes_inv llb1.
Proof.
  unfold linkedlist.PushBack. intros Hinv.
  destruct b as [[[x|]]|]; intros Heq; try discriminate Heq;
    injection Heq as <-; auto using push_back_inv.
Qed.

Lemma PushBytesFront_inv (llb llb1 : linkedlist.Buffer) p pl pl1 :
  bytes_inv llb -> linkedlist.PushBytesFront p llb pl = (llb1, pl1) ->
  bytes_inv llb1.
Proof.
  unfold linkedlist.PushBytesFront. intros Hinv.
  destruct (len p =? 0); [intros Heq; injection Heq as <- _; exact Hinv|].
  destruct (bbPool.Get pl) as [bb pl2].
  intros Heq; injection Heq as <- _. apply push_front_inv, Hinv.
Qed.

Lemma PushBytesBack_inv (llb llb1 : linkedlist.Buffer) p pl pl1 :
  bytes_inv llb -> linkedlist.PushBytesBack p llb pl = (llb1, pl1) ->
  bytes_inv llb1.
Proof.
  unfold linkedlist.PushBytesBack. intros Hinv.
  destruct (len p =? 0); [intros Heq; injection Heq as <- _; exact Hinv|].
  destruct (bbPool.Get pl) as [bb pl2].
  intros Heq; injection Heq as <- _. apply push_back_inv, Hinv.
Qed.

Lemma Read_loop_inv (fuel : nat) : forall llb pl p n n1 p1 llb1 pl1,
  bytes_inv llb ->
  linkedlist.Read_loop fuel llb pl p n = (n1, p1, llb1, pl1) ->
  bytes_inv llb1.
Proof.
  induction fuel as [|fuel IH]; intros llb pl p n n1 p1 llb1 pl1 Hinv;
    cbn [linkedlist.Read_loop].
  - intros Heq; injection Heq as _ _ <- _. exact Hinv.
  - destruct (linkedlist.Pop llb) as [[b|] llb2] eqn:EP.
    + apply Pop_inv in EP; [|exact Hinv].
      destruct (copy (slice_from n p) (bbPool.B b)) as [m tl].
      destruct (m <? bbPool.Len b).
      * destruct (n + m =? len p).
        -- intros Heq; injection Heq as _ _ <- _. apply push_front_inv, EP.
        -- apply IH. apply push_front_inv, EP.
      * destruct (n + m =? len p).
        -- intros Heq; injection Heq as _ _ <- _. exact EP.
        -- apply IH. exact EP.
    + apply Pop_inv in EP; [|exact Hinv].
      intros Heq; injection Heq as _ _ <- _. exact EP.
Qed.

Lemma Read_inv (llb llb1 : linkedlist.Buffer) pl p n err p1 pl1 :
  bytes_inv llb -> linkedlist.Read llb pl p = (n, err, p1, llb1, pl1) ->
  bytes_inv llb1.
Proof.
  unfold linkedlist.Read. intros Hinv.
  destruct (len p =? 0); [intros Heq; injection Heq as _ _ _ <- _; exact Hinv|].
  destruct (linkedlist.Read_loop _ llb pl p 0) as [[[n2 p2] llb2] pl2] eqn:EL.
  intros Heq; injection Heq as _ _ _ <- _.
  eapply Read_loop_inv; eauto.
Qed.

Lemma Discard_loop_inv (fuel : nat) : forall llb pl n d d1 llb1 pl1,
  bytes_inv llb ->
  linkedlist.Discard_loop fuel llb pl n d = (d1, llb1, pl1) ->
  bytes_inv llb1.
Proof.
  induction fuel as [|fuel IH]; intros llb pl n d d1 llb1 pl1 Hinv;
    cbn [linkedlist.Discard_loop].
  - intros Heq; injection Heq as _ <- _. exact Hinv.
  - destruct (n =? 0); [intros Heq; injection Heq as _ <- _; exact Hinv|].
    destruct (linkedlist.Pop llb) as [[b|] llb2] eqn:EP;
      (apply Pop_inv in EP; [|exact Hinv]).
    + destruct (n <? bbPool.Len b).
      * intros Heq; injection Heq as _ <- _. apply push_front_inv, EP.
      * apply IH. exact EP.
    + intros Heq; injection Heq as _ <- _. exact EP.
Qed.

Lemma Discard_inv (llb llb1 : linkedlist.Buffer) pl n d err pl1 :
  bytes_inv llb -> linkedlist.Discard llb pl n = (d, err, llb1, pl1) ->
  bytes_inv llb1.
Proof.
  unfold linkedlist.Discard. intros Hinv.
  destruct (n <=? 0); [intros Heq; injection Heq as _ _ <- _; exact Hinv|].
  destruct (linkedlist.Discard_loop _ llb pl n 0) as [[d2 llb2] pl2] eqn:EL.
  intros Heq; injection Heq as _ _ <- _.
  eapply Discard_loop_inv; eauto.
Qed.

Lemma ReadFrom_loop_inv {Rd : Type} `{Reader Rd} (fuel : nat) :
  forall llb pl (r : Rd) n e llb1 pl1 r1,
  bytes_inv llb ->
  linkedlist.ReadFrom_loop fuel llb pl r n = (e, llb1, pl1, r1) ->
  bytes_inv llb1.
Proof.
  induction fuel as [|fuel IH]; intros llb pl r n e llb1 pl1 r1 Hinv;
    cbn [linkedlist.ReadFrom_loop].
  - intros Heq; injection Heq as _ <- _ _. exact Hinv.
  - destruct (bbPool.Get pl) as [bb pl2].
    destruct (io_Read r _) as [[[m d] err] r2].
    destruct (m <? 0); [intros Heq; injection Heq as _ <- _ _; exact Hinv|].
    destruct (m >? _); [intros Heq; injection Heq as _ <- _ _; exact Hinv|].
    destruct (is_EOF err); [intros Heq; injection Heq as _ <- _ _; exact Hinv|].
    destruct (negb (is_nil err));
      [intros Heq; injection Heq as _ <- _ _; exact Hinv|].
    apply IH. apply push_back_inv, Hinv.
Qed.

Lemma WriteTo_loop_inv {W : Type} `{Writer W} (fuel : nat) :
  forall llb pl (w : W) n res llb1 pl1 w1,
  bytes_inv llb ->
  linkedlist.WriteTo_loop fuel llb pl w n = (res, llb1, pl1, w1) ->
  bytes_inv llb1.
Proof.
  induction fuel as [|fuel IH]; intros llb pl w n res llb1 pl1 w1 Hinv;
    cbn [linkedlist.WriteTo_loop].
  - intros Heq; injection Heq as _ <- _ _. exact Hinv.
  - destruct (linkedlist.Pop llb) as [[b|] llb2] eqn:EP;
      (apply Pop_inv in EP; [|exact Hinv]).
    + destruct (io_Write w (bbPool.B b)) as [[m err] w2].
      destruct (m >? bbPool.Len b);
        [intros Heq; injection Heq as _ <- _ _; exact EP|].
      destruct (negb (is_nil err));
        [intros Heq; injection Heq as _ <- _ _; exact EP|].
      destruct (m <? bbPool.Len b).
      * destruct (m <? 0); intros Heq; injection Heq as _ <- _ _;
          [exact EP|apply push_front_inv, EP].
      * apply IH. exact EP.
    + intros Heq; injection Heq as _ <- _ _. exact EP.
Qed.

Lemma Reset_inv (llb : linkedlist.Buffer) pl :
  bytes_inv (fst (linkedlist.Reset llb pl)).
Proof.
  unfold linkedlist.Reset.
  destruct (linkedlist.Reset_loop _ llb pl) as [llb1 pl1].
  reflexivity.
Qed.

(** ** What the operations of the linked chunk buffer do to its bytes *)

Lemma chain_bytes_cons b (l : list bbPool.ByteBuffer) :
  chain_bytes (b :: l) = bbPool.B b ++ chain_bytes l.
Proof. reflexivity. Qed.

Lemma chain_bytes_app (l1 l2 : list bbPool.ByteBuffer) :
  chain_bytes (l1 ++ l2) = chain_bytes l1 ++ chain_bytes l2.
Proof. unfold chain_bytes. rewrite map_app, concat_app. reflexivity. Qed.

Lemma list_bytes_push_front b (llb : linkedlist.Buffer) :
  list_bytes (linkedlist.push_front b llb) = bbPool.B b ++ list_bytes llb.
Proof. reflexivity. Qed.

Lemma list_bytes_push_back b (llb : linkedlist.Buffer) :
  list_bytes (linkedlist.push_back b llb) = list_bytes llb ++ bbPool.B b.
Proof.
  unfold list_bytes, linkedlist.push_back. cbn [linkedlist.nodes].
  rewrite chain_bytes_app. unfold chain_bytes at 2. cbn [map concat].
  rewrite app_nil_r. reflexivity.
Qed.

Lemma bbPool_Get_empty (pl pl1 : bbPool.Pool) bb :
  bbPool.Get pl = (bb, pl1) -> bbPool.B bb = [].
Proof.
  unfold bbPool.Get. destruct pl as [|b rest];
    intros Heq; injection Heq as <- _; reflexivity.
Qed.

Lemma PushBytesBack_bytes (p : Bytes) (llb llb1 : linkedlist.Buffer) pl pl1 :
  linkedlist.PushBytesBack p llb pl = (llb1, pl1) ->
  list_bytes llb1 = list_bytes llb ++ p.
Proof.
  unfold linkedlist.PushBytesBack.
  destruct (len p =? 0) eqn:E.
  - intros Heq; injection Heq as <- _.
    rewrite (len_zero p) by lia. rewrite app_nil_r. reflexivity.
  - destruct (bbPool.Get pl) as [bb pl2] eqn:EG.
    intros Heq; injection Heq as <- _.
    rewrite list_bytes_push_back. unfold bbPool.Write. cbn [bbPool.B].
    rewrite (bbPool_Get_empty _ _ _ EG). reflexivity.
Qed.

Lemma PushBytesFront_bytes (p : Bytes) (llb llb1 : linkedlist.Buffer) pl pl1 :
  linkedlist.PushBytesFront p llb pl = (llb1, pl1) ->
  list_bytes llb1 = p ++ list_bytes llb.
Proof.
  unfold linkedlist.PushBytesFront.
  destruct (len p =? 0) eqn:E.
  - intros Heq; injection Heq as <- _.
    rewrite (len_zero p) by lia. reflexivity.
  - destruct (bbPool.Get pl) as [bb pl2] eqn:EG.
    intros Heq; injection Heq as <- _.
    rewrite list_bytes_push_front. unfold bbPool.Write. cbn [bbPool.B].
    rewrite (bbPool_Get_empty _ _ _ EG). reflexivity.
Qed.

(** [Read] from the state where [pre] has been written and [post] is the
    part of [p] still to fill. *)
Lemma Read_loop_spec (fuel : nat) : forall llb pl pre post n1 p1 llb1 pl1,
  (length (linkedlist.nodes llb) < fuel)%nat ->
  0 < len post ->
  linkedlist.Read_loop fuel llb pl (pre ++ post) (len pre) = (n1, p1, llb1, pl1) ->
  let k := Z.min (len post) (len (list_bytes llb)) in
  n1 = len pre + k /\
  p1 = pre ++ slice_to k (list_bytes llb) ++ slice_from k post /\
  list_bytes llb1 = slice_from k (list_bytes llb).
Proof.
  induction fuel as [|fuel IH]; intros llb pl pre post n1 p1 llb1 pl1 Hf Hpost;
    [lia|].
  cbn [linkedlist.Read_loop]. unfold list_bytes.
  destruct (linkedlist.nodes llb) as [|b rest] eqn:En.
  - rewrite (Pop_nil _ En). intros Heq; injection Heq as <- <- <- _.
    rewrite En. cbn. rewrite Z.min_r by lia.
    rewrite slice_from_0 by lia. split; [lia|]. split; reflexivity.
  - rewrite (Pop_cons _ _ _ En).
    rewrite slice_from_app_ge by lia. rewrite Z.sub_diag.
    rewrite (slice_from_0 0 post) by lia.
    rewrite copy_spec.
    rewrite slice_to_app_ge by lia. rewrite Z.sub_diag.
    rewrite (slice_to_0 0 post) by lia. rewrite app_nil_r.
    rewrite chain_bytes_cons, len_app.
    pose proof (len_nonneg (bbPool.B b)) as HB.
    pose proof (len_nonneg (chain_bytes rest)) as HR.
    unfold bbPool.Len.
    destruct (Z.min (len post) (len (bbPool.B b)) <? len (bbPool.B b)) eqn:Elt.
    + (* the rest of the chunk goes back to the head; [p] is full *)
      assert (Hm : Z.min (len post) (len (bbPool.B b)) = len post) by lia.
      rewrite Hm, len_app.
      replace (len pre + len post =? len pre + len post) with true by lia.
      intros Heq; injection Heq as <- <- <- _.
      cbn zeta. rewrite Z.min_l by lia.
      split; [reflexivity|]. split.
      * f_equal. rewrite slice_to_app_le by lia.
        rewrite !slice_from_all by lia. reflexivity.
      * cbn [linkedlist.nodes linkedlist.push_front linkedlist.advance].
        rewrite chain_bytes_cons. cbn [bbPool.B].
        rewrite slice_from_app_le by lia. reflexivity.
    + assert (Hm : Z.min (len post) (len (bbPool.B b)) = len (bbPool.B b)) by lia.
      rewrite Hm, len_app.
      rewrite (slice_to_all (len post)) by lia.
      destruct (len pre + len (bbPool.B b) =? len pre + len post) eqn:Efull.
      * intros Heq; injection Heq as <- <- <- _.
        cbn zeta. rewrite Z.min_l by lia.
        split; [lia|]. split.
        -- f_equal. rewrite slice_to_app_ge by lia.
           rewrite slice_to_0 by lia. rewrite app_nil_r.
           rewrite !slice_from_all by lia. reflexivity.
        -- cbn [linkedlist.nodes].
           rewrite slice_from_app_ge by lia. rewrite slice_from_0 by lia.
           reflexivity.
      * replace (pre ++ bbPool.B b ++ slice_from (len (bbPool.B b)) post)
          with ((pre ++ bbPool.B b) ++ slice_from (len (bbPool.B b)) post)
          by (rewrite <- app_assoc; reflexivity).
        rewrite <- len_app.
        intros Heq. apply IH in Heq.
        -- cbn zeta in Heq. unfold list_bytes in Heq.
           cbn [linkedlist.nodes] in Heq.
           rewrite len_slice_from in Heq.
           rewrite (Z.max_r 0 (len (bbPool.B b))) in Heq by lia.
           rewrite (Z.min_l (len (bbPool.B b)) (len post)) in Heq by lia.
           destruct Heq as (Hn & Hp & Hl). cbn zeta.
           assert (Hk : Z.min (len post) (len (bbPool.B b) + len (chain_bytes rest))
                        = len (bbPool.B b)
                          + Z.min (len post - len (bbPool.B b)) (len (chain_bytes rest)))
             by lia.
           rewrite Hk. split; [rewrite Hn, len_app; lia|]. split.
           ++ rewrite Hp. rewrite <- app_assoc. f_equal.
              rewrite slice_to_app_ge by lia.
              rewrite <- app_assoc. f_equal.
              replace (len (bbPool.B b)
                       + Z.min (len post - len (bbPool.B b)) (len (chain_bytes rest))
                       - len (bbPool.B b))
                with (Z.min (len post - len (bbPool.B b)) (len (chain_bytes rest)))
                by lia.
              f_equal. rewrite slice_from_from by lia. reflexivity.
           ++ rewrite Hl. rewrite slice_from_app_ge by lia. f_equal. lia.
        -- cbn [linkedlist.nodes]. cbn [length] in Hf. lia.
        -- rewrite len_slice_from. lia.
Qed.

Lemma Read_spec (llb llb1 : linkedlist.Buffer) pl p n err p1 pl1 :
  linkedlist.Read llb pl p = (n, err, p1, llb1, pl1) ->
  let k := Z.min (len p) (len (list_bytes llb)) in
  n = k /\
  p1 = slice_to k (list_bytes llb) ++ slice_from k p /\
  list_bytes llb1 = slice_from k (list_bytes llb).
Proof.
  unfold linkedlist.Read.
  pose proof (len_nonneg (list_bytes llb)) as HL.
  destruct (len p =? 0) eqn:E.
  - intros Heq; injection Heq as <- _ <- <- _. cbn zeta.
    rewrite Z.min_l by lia.
    rewrite slice_to_0, !slice_from_0 by lia. repeat split; lia.
  - destruct (linkedlist.Read_loop _ llb pl p 0) as [[[n2 p2] llb2] pl2] eqn:EL.
    intros Heq; injection Heq as <- _ <- <- _.
    apply (Read_loop_spec _ llb pl [] p) in EL; [|lia|pose proof (len_nonneg p); lia].
    cbn zeta in EL. rewrite len_nil in EL. cbn [app] in EL.
    destruct EL as (Hn & Hp & Hl). repeat split; assumption.
Qed.

Lemma Discard_loop_spec (fuel : nat) : forall llb pl n d d1 llb1 pl1,
  (length (linkedlist.nodes llb) < fuel)%nat ->
  0 <= n ->
  linkedlist.Discard_loop fuel llb pl n d = (d1, llb1, pl1) ->
  d1 = d + Z.min n (len (list_bytes llb)) /\
  list_bytes llb1 = slice_from n (list_bytes llb).
Proof.
  induction fuel as [|fuel IH]; intros llb pl n d d1 llb1 pl1 Hf Hn; [lia|].
  cbn [linkedlist.Discard_loop]. unfold list_bytes.
  pose proof (len_nonneg (chain_bytes (linkedlist.nodes llb))) as HL.
  destruct (n =? 0) eqn:E0.
  - intros Heq; injection Heq as <- <- _.
    rewrite Z.min_l by lia. rewrite slice_from_0 by lia. split; [lia|reflexivity].
  - destruct (linkedlist.nodes llb) as [|b rest] eqn:En.
    + rewrite (Pop_nil _ En). intros Heq; injection Heq as <- <- _.
      rewrite En. cbn. rewrite Z.min_r by lia. split; [lia|].
      unfold slice_from. rewrite skipn_nil. reflexivity.
    + rewrite (Pop_cons _ _ _ En). unfold bbPool.Len.
      rewrite chain_bytes_cons in *. rewrite len_app in *.
      pose proof (len_nonneg (bbPool.B b)) as HB.
      pose proof (len_nonneg (chain_bytes rest)) as HR.
      destruct (n <? len (bbPool.B b)) eqn:Elt.
      * intros Heq; injection Heq as <- <- _.
        cbn [linkedlist.nodes linkedlist.push_front linkedlist.advance].
        rewrite chain_bytes_cons. cbn [bbPool.B].
        rewrite slice_from_app_le by lia.
        split; [lia|reflexivity].
      * intros Heq. apply IH in Heq.
        -- unfold list_bytes in Heq. cbn [linkedlist.nodes] in Heq.
           destruct Heq as (Hd & Hl). split; [lia|].
           rewrite Hl. rewrite slice_from_app_ge by lia. reflexivity.
        -- cbn [linkedlist.nodes]. cbn [length] in Hf. lia.
        -- lia.
Qed.

Lemma Discard_spec (llb llb1 : linkedlist.Buffer) pl n d err pl1 :
  0 < n ->
  linkedlist.Discard llb pl n = (d, err, llb1, pl1) ->
  d = Z.min n (len (list_bytes llb)) /\
  list_bytes llb1 = slice_from n (list_bytes llb).
Proof.
  unfold linkedlist.Discard. intros Hn.
  replace (n <=? 0) with false by lia.
  destruct (linkedlist.Discard_loop _ llb pl n 0) as [[d2 llb2] pl2] eqn:EL.
  intros Heq; injection Heq as <- _ <- _.
  apply Discard_loop_spec in EL; [|lia|lia].
  destruct EL as (Hd & Hl). split; [lia|exact Hl].
Qed.



(** ** What the operations of the elastic buffer do to its bytes *)

Section ElasticBytes.
Context {R : Type} {ops : RingBuffer R} {view : RingView R}
  {laws : RingLaws R}.

Lemma elastic_bytes_mk w (ring : option R) (l : linkedlist.Buffer) :
  elastic_bytes (elastic.mkBuffer w ring l) =
  match ring with Some r => ring_bytes r | None => [] end ++ list_bytes l.
Proof. reflexivity. Qed.

Lemma elastic_bytes_unfold (mb : elastic.Buffer R) :
  elastic_bytes mb =
  match elastic.ringBuffer mb with Some r => ring_bytes r | None => [] end
  ++ list_bytes (elastic.listBuffer mb).
Proof. reflexivity. Qed.

Lemma Buffered_spec (mb : elastic.Buffer R) :
  bytes_inv (elastic.listBuffer mb) ->
  elastic.Buffered mb = len (elastic_bytes mb).
Proof.
  unfold elastic.Buffered, elastic_bytes, ring_part, linkedlist.Buffered,
    bytes_inv, list_bytes.
  intros ->. rewrite sum_len_chain, len_app.
  destruct (elastic.ringBuffer mb) as [r|].
  - rewrite ring_Buffered_spec. reflexivity.
  - reflexivity.
Qed.

Lemma release_if_empty_bytes (r : R) rb ring1 rb1 :
  elastic.release_if_empty r rb = (ring1, rb1) ->
  match ring1 with Some r1 => ring_bytes r1 | None => [] end = ring_bytes r.
Proof.
  unfold elastic.release_if_empty. rewrite ring_IsEmpty_spec.
  destruct (len (ring_bytes r) =? 0) eqn:E;
    intros Heq; injection Heq as <- _.
  - symmetry. apply len_zero. lia.
  - reflexivity.
Qed.

Lemma elastic_Read_spec (mb mb1 : elastic.Buffer R) ps ps1 p n err p1 :
  elastic.Read mb ps p = (n, err, p1, mb1, ps1) ->
  let k := Z.min (len p) (len (elastic_bytes mb)) in
  n = k /\
  p1 = slice_to k (elastic_bytes mb) ++ slice_from k p /\
  elastic_bytes mb1 = slice_from k (elastic_bytes mb).
Proof.
  unfold elastic.Read. rewrite (elastic_bytes_unfold mb).
  destruct (elastic.ringBuffer mb) as [r|].
  - destruct (ring_Read r p) as [[[n0 err0] p0] r0] eqn:ER.
    apply ring_Read_spec in ER. destruct ER as (Hn & Hp & Hr).
    destruct (elastic.release_if_empty r0 (elastic.rings ps)) as [ring1 rb1] eqn:EL.
    apply release_if_empty_bytes in EL. rewrite Hr in EL.
    pose proof (len_nonneg p) as Hp0.
    pose proof (len_nonneg (ring_bytes r)) as Hr0.
    pose proof (len_nonneg (list_bytes (elastic.listBuffer mb))) as Hl0.
    rewrite len_app.
    destruct (n0 =? len p) eqn:E.
    + intros Heq; injection Heq as <- _ <- <- _.
      rewrite elastic_bytes_mk, EL. cbn zeta.
      assert (Hk : Z.min (len p)
                     (len (ring_bytes r) + len (list_bytes (elastic.listBuffer mb)))
                   = n0) by lia.
      rewrite Hk. split; [reflexivity|].
      rewrite slice_to_app_le, slice_from_app_le by lia.
      split; [exact Hp|reflexivity].
    + assert (Hn0 : n0 = len (ring_bytes r)) by lia.
      rewrite Hp. rewrite Hn0 in *.
      rewrite (slice_to_all (len (ring_bytes r)) (ring_bytes r)) by lia.
      rewrite slice_from_app_ge by lia. rewrite Z.sub_diag.
      rewrite (slice_from_0 0) by lia.
      rewrite slice_to_app_ge by lia. rewrite Z.sub_diag.
      rewrite (slice_to_0 0) by lia. rewrite app_nil_r.
      destruct (linkedlist.Read (elastic.listBuffer mb) (elastic.chunks ps)
                  (slice_from (len (ring_bytes r)) p))
        as [[[[m err2] tl] l1] bb1] eqn:ELR.
      apply Read_spec in ELR. cbn zeta in ELR.
      rewrite len_slice_from in ELR.
      rewrite (Z.max_r 0 (len (ring_bytes r))) in ELR by lia.
      rewrite (Z.min_l (len (ring_bytes r)) (len p)) in ELR by lia.
      destruct ELR as (Hm & Htl & Hl1).
      intros Heq; injection Heq as <- _ <- <- _.
      rewrite elastic_bytes_mk, EL, Hl1. cbn zeta.
      rewrite (slice_from_all (len (ring_bytes r)) (ring_bytes r)) by lia.
      assert (Hk : Z.min (len p)
                     (len (ring_bytes r) + len (list_bytes (elastic.listBuffer mb)))
                   = len (ring_bytes r) + m) by lia.
      rewrite Hk. split; [reflexivity|].
      rewrite slice_to_app_ge, slice_from_app_ge by lia.
      replace (len (ring_bytes r) + m - len (ring_bytes r)) with m by lia.
      split.
      * rewrite Htl, <- Hm. rewrite <- app_assoc. f_equal. f_equal.
        rewrite slice_from_from by lia. reflexivity.
      * rewrite <- Hm. reflexivity.
  - destruct (linkedlist.Read (elastic.listBuffer mb) (elastic.chunks ps) p)
      as [[[[m err2] tl] l1] bb1] eqn:ELR.
    apply Read_spec in ELR. cbn zeta in ELR. destruct ELR as (Hm & Htl & Hl1).
    intros Heq; injection Heq as <- _ <- <- _.
    rewrite elastic_bytes_mk. cbn [app]. cbn zeta.
    repeat split; assumption.
Qed.

Lemma elastic_Discard_spec (mb mb1 : elastic.Buffer R) ps ps1 n d err :
  0 < n ->
  elastic.Discard mb ps n = (d, err, mb1, ps1) ->
  d = Z.min n (len (elastic_bytes mb)) /\
  elastic_bytes mb1 = slice_from n (elastic_bytes mb).
Proof.
  intros Hn.
  unfold elastic.Discard. rewrite (elastic_bytes_unfold mb).
  destruct (elastic.ringBuffer mb) as [r|].
  - destruct (ring_Discard r n) as [[d0 err0] r0] eqn:ED.
    apply ring_Discard_spec in ED; [|exact Hn]. destruct ED as (Hd & Hr).
    rewrite ring_Buffered_spec.
    pose proof (len_nonneg (ring_bytes r)) as Hr0.
    pose proof (len_nonneg (list_bytes (elastic.listBuffer mb))) as Hl0.
    rewrite len_app.
    destruct (n <=? len (ring_bytes r)) eqn:E1.
    + destruct (n =? len (ring_bytes r)) eqn:E2;
        intros Heq; injection Heq as <- _ <- _; rewrite elastic_bytes_mk.
      * split; [lia|]. rewrite slice_from_app_ge by lia.
        rewrite slice_from_0 by lia. reflexivity.
      * split; [lia|]. rewrite slice_from_app_le by lia.
        rewrite Hr. reflexivity.
    + destruct (linkedlist.Discard (elastic.listBuffer mb) (elastic.chunks ps)
                  (n - len (ring_bytes r))) as [[[m err2] l1] bb1] eqn:ELD.
      apply Discard_spec in ELD; [|lia]. destruct ELD as (Hm & Hl1).
      intros Heq; injection Heq as <- _ <- _. rewrite elastic_bytes_mk.
      split; [lia|]. rewrite slice_from_app_ge by lia.
      cbn [app]. exact Hl1.
  - destruct (linkedlist.Discard (elastic.listBuffer mb) (elastic.chunks ps) n)
      as [[[m err2] l1] bb1] eqn:ELD.
    apply Discard_spec in ELD; [|lia]. destruct ELD as (Hm & Hl1).
    intros Heq; injection Heq as <- _ <- _. rewrite elastic_bytes_mk.
    cbn [app]. split; assumption.
Qed.

End ElasticBytes.

Lemma concat_map_B (l : list bbPool.ByteBuffer) :
  concat (map bbPool.B l) = chain_bytes l.
Proof. reflexivity. Qed.



(** The slices given are all gathered when they hold fewer than
    [maxBytes] bytes. *)
Lemma peek_given_all (maxBytes : Z) (given : list Bytes) :
  forall cum acc,
  cum + total_len given < maxBytes ->
  exists acc1,
    linkedlist.peek_given maxBytes given cum acc
    = (acc1, cum + total_len given, false) /\
    concat acc1 = concat acc ++ concat given.
Proof.
  induction given as [|b rest IH]; intros cum acc Hlt;
    cbn [linkedlist.peek_given total_len] in *.
  - exists acc. rewrite Z.add_0_r, app_nil_r. split; reflexivity.
  - pose proof (len_nonneg b) as Hb.
    assert (Hrest : 0 <= total_len rest)
      by (clear; induction rest as [|x r IHr]; cbn [total_len];
          [lia|pose proof (len_nonneg x); lia]).
    destruct (len b >? 0) eqn:E.
    + replace (cum + len b >=? maxBytes) with false by lia.
      destruct (IH (cum + len b) (acc ++ [b])) as (acc1 & Hp & Hc); [lia|].
      exists acc1. rewrite Hp, Hc. split; [f_equal; f_equal; lia|].
      rewrite concat_app. cbn [concat]. rewrite app_nil_r, <- app_assoc.
      reflexivity.
    + destruct (IH cum acc) as (acc1 & Hp & Hc); [lia|].
      exists acc1. rewrite Hp, Hc. split; [f_equal; f_equal; lia|].
      rewrite (len_zero b) by lia. reflexivity.
Qed.

Section ElasticPeek.
Context {R : Type} {ops : RingBuffer R} {view : RingView R}
  {laws : RingLaws R}.



End ElasticPeek.

(** ** Writes *)

Lemma total_len_nonneg (bs : list Bytes) : 0 <= total_len bs.
Proof.
  induction bs as [|b rest IH]; cbn [total_len]; [lia|].
  pose proof (len_nonneg b). lia.
Qed.

Lemma total_len_concat (bs : list Bytes) : total_len bs = len (concat bs).
Proof.
  induction bs as [|b rest IH]; [reflexivity|].
  cbn [total_len concat]. rewrite len_app, IH. reflexivity.
Qed.

Lemma IsEmpty_true (llb : linkedlist.Buffer) :
  linkedlist.IsEmpty llb = true -> list_bytes llb = [].
Proof.
  unfold linkedlist.IsEmpty, list_bytes.
  destruct (linkedlist.nodes llb); [reflexivity|discriminate].
Qed.

Lemma push_all_spec (bs : list Bytes) : forall l bb n n1 l1 bb1,
  elastic.push_all bs l bb n = (n1, l1, bb1) ->
  n1 = n + total_len bs /\
  list_bytes l1 = list_bytes l ++ concat bs /\
  (bytes_inv l -> bytes_inv l1).
Proof.
  induction bs as [|b rest IH]; intros l bb n n1 l1 bb1;
    cbn [elastic.push_all total_len concat].
  - intros Heq; injection Heq as <- <- _.
    rewrite app_nil_r. repeat split; [lia|auto].
  - destruct (linkedlist.PushBytesBack b l bb) as [l2 bb2] eqn:EP.
    intros Heq. apply IH in Heq. destruct Heq as (Hn & Hl & Hinv).
    split; [lia|]. split.
    + rewrite Hl, (PushBytesBack_bytes _ _ _ _ _ EP), <- app_assoc. reflexivity.
    + intros Hi. apply Hinv. eapply PushBytesBack_inv; eauto.
Qed.

Section Writes.
Context {R : Type} `{RingBuffer R}.

(** The count of [Writev] is the total length of its slices, whatever the
    ring does. *)
Lemma fill_count (bs : list Bytes) : forall (r : R) l bb writable cum r1 l1 bb1 cum1 rest,
  elastic.fill bs r l bb writable cum = (r1, l1, bb1, cum1, rest) ->
  cum1 + total_len rest = cum + total_len bs.
Proof.
  induction bs as [|b bs' IH]; intros r l bb writable cum r1 l1 bb1 cum1 rest;
    cbn [elastic.fill total_len].
  - intros Heq; injection Heq as _ _ _ <- <-. reflexivity.
  - destruct (len b >? writable).
    + destruct (ring_Write r (slice_to writable b)) as [[n0 e0] r2].
      destruct (linkedlist.PushBytesBack _ l bb) as [l2 bb2].
      intros Heq; injection Heq as _ _ _ <- <-. lia.
    + destruct (ring_Write r b) as [[n0 e0] r2].
      intros Heq. apply IH in Heq. lia.
Qed.

Lemma Writev_count (mb mb1 : elastic.Buffer R) ps ps1 bs n err :
  elastic.Writev mb ps bs = (n, err, mb1, ps1) ->
  n = total_len bs /\ err = None.
Proof.
  unfold elastic.Writev.
  destruct (elastic.acquire mb ps) as [mb0 ps0].
  destruct (elastic.to_list mb0); [|destruct (elastic.ringBuffer mb0) as [r|]].
  - destruct (elastic.push_all bs _ _ 0) as [[n0 l1] bb1] eqn:EP.
    apply push_all_spec in EP. destruct EP as (Hn & _).
    intros Heq; injection Heq as <- <- _ _. split; [lia|reflexivity].
  - destruct (elastic.fill bs r _ _ _ 0) as [[[[r1 l1] bb1] cum] rest] eqn:EF.
    apply fill_count in EF.
    destruct (elastic.push_all rest l1 bb1 cum) as [[n0 l2] bb2] eqn:EP.
    apply push_all_spec in EP. destruct EP as (Hn & _).
    intros Heq; injection Heq as <- <- _ _. split; [lia|reflexivity].
  - destruct (elastic.push_all bs _ _ 0) as [[n0 l1] bb1] eqn:EP.
    apply push_all_spec in EP. destruct EP as (Hn & _).
    intros Heq; injection Heq as <- <- _ _. split; [lia|reflexivity].
Qed.

(** After the first statement of a write, a nil ring means a list that is
    not empty. *)
Lemma acquire_ring (mb mb0 : elastic.Buffer R) ps ps0 :
  elastic.acquire mb ps = (mb0, ps0) ->
  elastic.ringBuffer mb0 = None ->
  linkedlist.IsEmpty (elastic.listBuffer mb0) = false.
Proof.
  unfold elastic.acquire.
  destruct (elastic.ringBuffer mb) as [r|] eqn:Er; cbn [is_nil andb].
  - intros Heq; injection Heq as <- _. rewrite Er. discriminate.
  - destruct (linkedlist.IsEmpty (elastic.listBuffer mb)) eqn:Ee.
    + destruct (rbPool.Get (elastic.rings ps)) as [r rb1].
      intros Heq; injection Heq as <- _. discriminate.
    + intros Heq; injection Heq as <- _. intros _. exact Ee.
Qed.

Lemma acquire_frame (mb mb0 : elastic.Buffer R) ps ps0 :
  elastic.acquire mb ps = (mb0, ps0) ->
  elastic.maxStaticBytes mb0 = elastic.maxStaticBytes mb /\
  elastic.listBuffer mb0 = elastic.listBuffer mb /\
  elastic.chunks ps0 = elastic.chunks ps.
Proof.
  unfold elastic.acquire.
  destruct (is_nil (elastic.ringBuffer mb)
            && linkedlist.IsEmpty (elastic.listBuffer mb)).
  - destruct (rbPool.Get (elastic.rings ps)) as [r rb1].
    intros Heq; injection Heq as <- <-. repeat split.
  - intros Heq; injection Heq as <- <-. repeat split.
Qed.

Lemma to_list_false (mb : elastic.Buffer R) :
  elastic.to_list mb = false ->
  linkedlist.IsEmpty (elastic.listBuffer mb) = true /\
  exists r, elastic.ringBuffer mb = Some r /\
            ring_Buffered r < elastic.maxStaticBytes mb.
Proof.
  unfold elastic.to_list. intros Hf. apply orb_false_elim in Hf.
  destruct Hf as [He Hr]. split; [destruct (linkedlist.IsEmpty _); auto|].
  destruct (elastic.ringBuffer mb) as [r|]; [|discriminate].
  exists r. split; [reflexivity|lia].
Qed.

End Writes.

Section WriteBytes.
Context {R : Type} {ops : RingBuffer R} {view : RingView R}
  {laws : RingLaws R}.

Lemma rbPool_Get_empty (pl pl1 : rbPool.Pool R) (r : R) :
  rbPool.Get pl = (r, pl1) -> ring_bytes r = [].
Proof.
  unfold rbPool.Get. destruct pl as [|x rest];
    intros Heq; injection Heq as <- _.
  - apply ring_New_spec.
  - apply ring_Reset_spec.
Qed.

Lemma acquire_bytes (mb mb0 : elastic.Buffer R) ps ps0 :
  elastic.acquire mb ps = (mb0, ps0) ->
  elastic_bytes mb0 = elastic_bytes mb.
Proof.
  unfold elastic.acquire.
  destruct (elastic.ringBuffer mb) as [r|] eqn:Er; cbn [is_nil andb].
  - intros Heq; injection Heq as <- _. reflexivity.
  - destruct (linkedlist.IsEmpty (elastic.listBuffer mb)).
    + destruct (rbPool.Get (elastic.rings ps)) as [r rb1] eqn:EG.
      intros Heq; injection Heq as <- _.
      rewrite elastic_bytes_mk, (rbPool_Get_empty _ _ _ EG).
      rewrite (elastic_bytes_unfold mb), Er. reflexivity.
    + intros Heq; injection Heq as <- _. reflexivity.
Qed.

Lemma acquire_Buffered (mb mb0 : elastic.Buffer R) ps ps0 :
  elastic.acquire mb ps = (mb0, ps0) ->
  elastic.Buffered mb0 = elastic.Buffered mb.
Proof.
  unfold elastic.acquire.
  destruct (elastic.ringBuffer mb) as [r|] eqn:Er; cbn [is_nil andb].
  - intros Heq; injection Heq as <- _. reflexivity.
  - destruct (linkedlist.IsEmpty (elastic.listBuffer mb)).
    + destruct (rbPool.Get (elastic.rings ps)) as [r rb1] eqn:EG.
      intros Heq; injection Heq as <- _.
      unfold elastic.Buffered. cbn [elastic.ringBuffer elastic.listBuffer].
      rewrite Er, ring_Buffered_spec, (rbPool_Get_empty _ _ _ EG). reflexivity.
    + intros Heq; injection Heq as <- _. reflexivity.
Qed.

(** [Write] appends [p] to the bytes of the buffer. *)
Lemma Write_bytes (mb mb1 : elastic.Buffer R) ps ps1 p n err :
  elastic.Write mb ps p = (n, err, mb1, ps1) ->
  n = len p /\ err = None /\
  elastic_bytes mb1 = elastic_bytes mb ++ p /\
  (bytes_inv (elastic.listBuffer mb) -> bytes_inv (elastic.listBuffer mb1)).
Proof.
  unfold elastic.Write.
  destruct (elastic.acquire mb ps) as [mb0 ps0] eqn:EA.
  rewrite <- (acquire_bytes _ _ _ _ EA).
  destruct (acquire_frame _ _ _ _ EA) as (_ & Hl & _). rewrite <- Hl.
  assert (Hpush : forall l1 bb1,
    linkedlist.PushBytesBack p (elastic.listBuffer mb0) (elastic.chunks ps0)
    = (l1, bb1) ->
    elastic_bytes (elastic.mkBuffer (elastic.maxStaticBytes mb0)
                     (elastic.ringBuffer mb0) l1)
    = elastic_bytes mb0 ++ p).
  { intros l1 bb1 EP. rewrite elastic_bytes_mk, (elastic_bytes_unfold mb0).
    rewrite (PushBytesBack_bytes _ _ _ _ _ EP), app_assoc. reflexivity. }
  destruct (elastic.to_list mb0) eqn:ET.
  - destruct (linkedlist.PushBytesBack p _ _) as [l1 bb1] eqn:EP.
    intros Heq; injection Heq as <- <- <- _.
    cbn [elastic.listBuffer].
    repeat split; eauto using PushBytesBack_inv.
  - destruct (to_list_false _ ET) as (Hempty & r & Hr & _).
    rewrite Hr. rewrite (elastic_bytes_unfold mb0), Hr.
    rewrite (IsEmpty_true _ Hempty), app_nil_r.
    destruct ((ring_Len r >=? elastic.maxStaticBytes mb0)
              && (len p >? ring_Available r)).
    + destruct (ring_Write r (slice_to (ring_Available r) p))
        as [[n0 e0] r1] eqn:EW.
      apply ring_Write_spec in EW. destruct EW as (_ & _ & Hr1).
      destruct (linkedlist.PushBytesBack (slice_from _ p) _ _)
        as [l1 bb1] eqn:EP.
      intros Heq; injection Heq as <- <- <- _.
      rewrite elastic_bytes_mk, Hr1, (PushBytesBack_bytes _ _ _ _ _ EP).
      rewrite (IsEmpty_true _ Hempty). cbn [app elastic.listBuffer].
      rewrite <- app_assoc, slice_to_from.
      repeat split; eauto using PushBytesBack_inv.
    + destruct (ring_Write r p) as [[n0 e0] r1] eqn:EW.
      apply ring_Write_spec in EW. destruct EW as (Hn & He & Hr1).
      intros Heq; injection Heq as <- <- <- _.
      rewrite elastic_bytes_mk, Hr1, (IsEmpty_true _ Hempty), app_nil_r.
      cbn [elastic.listBuffer]. repeat split; auto.
Qed.

Lemma fill_bytes (bs : list Bytes) :
  forall (r : R) l bb writable cum r1 l1 bb1 cum1 rest,
  elastic.fill bs r l bb writable cum = (r1, l1, bb1, cum1, rest) ->
  list_bytes l = [] ->
  ring_bytes r1 ++ list_bytes l1 ++ concat rest = ring_bytes r ++ concat bs /\
  (bytes_inv l -> bytes_inv l1).
Proof.
  induction bs as [|b bs' IH]; intros r l bb writable cum r1 l1 bb1 cum1 rest;
    cbn [elastic.fill concat].
  - intros Heq; injection Heq as <- <- _ _ <-. intros ->. auto.
  - destruct (len b >? writable).
    + destruct (ring_Write r (slice_to writable b)) as [[n0 e0] r2] eqn:EW.
      apply ring_Write_spec in EW. destruct EW as (_ & _ & Hr2).
      destruct (linkedlist.PushBytesBack _ l bb) as [l2 bb2] eqn:EP.
      intros Heq; injection Heq as <- <- _ _ <-. intros Hl.
      rewrite Hr2, (PushBytesBack_bytes _ _ _ _ _ EP), Hl. cbn [app].
      split; [|eauto using PushBytesBack_inv].
      rewrite <- !app_assoc. f_equal. rewrite app_assoc, slice_to_from.
      reflexivity.
    + destruct (ring_Write r b) as [[n0 e0] r2] eqn:EW.
      apply ring_Write_spec in EW. destruct EW as (_ & _ & Hr2).
      intros Heq Hl. apply IH in Heq; [|exact Hl].
      destruct Heq as (Hb & Hinv). split; [|exact Hinv].
      rewrite Hb, Hr2, <- app_assoc. reflexivity.
Qed.

(** [Writev] appends the slices of [bs], in order, to the bytes of the
    buffer. *)
Lemma Writev_bytes (mb mb1 : elastic.Buffer R) ps ps1 bs n err :
  elastic.Writev mb ps bs = (n, err, mb1, ps1) ->
  elastic_bytes mb1 = elastic_bytes mb ++ concat bs /\
  (bytes_inv (elastic.listBuffer mb) -> bytes_inv (elastic.listBuffer mb1)).
Proof.
  unfold elastic.Writev.
  destruct (elastic.acquire mb ps) as [mb0 ps0] eqn:EA.
  rewrite <- (acquire_bytes _ _ _ _ EA).
  destruct (acquire_frame _ _ _ _ EA) as (_ & Hl & _). rewrite <- Hl.
  assert (Hpush : forall n0 l1 bb1,
    elastic.push_all bs (elastic.listBuffer mb0) (elastic.chunks ps0) 0
    = (n0, l1, bb1) ->
    elastic_bytes (elastic.mkBuffer (elastic.maxStaticBytes mb0)
                     (elastic.ringBuffer mb0) l1)
    = elastic_bytes mb0 ++ concat bs /\
    (bytes_inv (elastic.listBuffer mb0) -> bytes_inv l1)).
  { intros n0 l1 bb1 EP. apply push_all_spec in EP.
    destruct EP as (_ & Hb & Hinv). split; [|exact Hinv].
    rewrite elastic_bytes_mk, (elastic_bytes_unfold mb0), Hb, app_assoc.
    reflexivity. }
  destruct (elastic.to_list mb0) eqn:ET.
  - destruct (elastic.push_all bs _ _ 0) as [[n0 l1] bb1] eqn:EP.
    intros Heq; injection Heq as _ _ <- _. cbn [elastic.listBuffer]. eauto.
  - destruct (to_list_false _ ET) as (Hempty & r & Hr & _).
    rewrite Hr. rewrite (elastic_bytes_unfold mb0), Hr.
    rewrite (IsEmpty_true _ Hempty), app_nil_r.
    destruct (elastic.fill bs r _ _ _ 0) as [[[[r1 l1] bb1] cum] rest] eqn:EF.
    apply fill_bytes in EF; [|exact (IsEmpty_true _ Hempty)].
    destruct EF as (Hb & Hinv).
    destruct (elastic.push_all rest l1 bb1 cum) as [[n0 l2] bb2] eqn:EP.
    apply push_all_spec in EP. destruct EP as (_ & Hb2 & Hinv2).
    intros Heq; injection Heq as _ _ <- _.
    rewrite elastic_bytes_mk, Hb2, <- Hb. cbn [elastic.listBuffer].
    split; [reflexivity|auto].
Qed.

Lemma Write_each_bytes (bs : list Bytes) : forall (mb mb1 : elastic.Buffer R) ps ps1 n,
  Write_each mb ps bs = (n, mb1, ps1) ->
  n = total_len bs /\
  elastic_bytes mb1 = elastic_bytes mb ++ concat bs.
Proof.
  induction bs as [|b rest IH]; intros mb mb1 ps ps1 n;
    cbn [Write_each total_len concat].
  - intros Heq; injection Heq as <- <- _. rewrite app_nil_r. auto.
  - destruct (elastic.Write mb ps b) as [[[n0 e0] mb2] ps2] eqn:EW.
    apply Write_bytes in EW. destruct EW as (Hn & _ & Hb & _).
    destruct (Write_each mb2 ps2 rest) as [[m mb3] ps3] eqn:EE.
    apply IH in EE. destruct EE as (Hm & Hb3).
    intros Heq; injection Heq as <- <- _.
    split; [lia|]. rewrite Hb3, Hb, <- app_assoc. reflexivity.
Qed.

End WriteBytes.

(** ** The loops end within their fuel *)

Lemma Discard_loop_fuel (f1 : nat) : forall f2 llb pl n d,
  (length (linkedlist.nodes llb) < f1)%nat ->
  (length (linkedlist.nodes llb) < f2)%nat ->
  linkedlist.Discard_loop f1 llb pl n d = linkedlist.Discard_loop f2 llb pl n d.
Proof.
  induction f1 as [|f1 IH]; intros f2 llb pl n d H1 H2; [lia|].
  destruct f2 as [|f2]; [lia|]. cbn [linkedlist.Discard_loop].
  destruct (n =? 0); [reflexivity|].
  destruct (linkedlist.nodes llb) as [|b rest] eqn:En.
  - rewrite (Pop_nil _ En). reflexivity.
  - rewrite (Pop_cons _ _ _ En).
    destruct (n <? bbPool.Len b); [reflexivity|].
    apply IH; cbn [linkedlist.nodes]; cbn [length] in *; lia.
Qed.

Lemma Reset_loop_fuel (f1 : nat) : forall f2 llb pl,
  (length (linkedlist.nodes llb) < f1)%nat ->
  (length (linkedlist.nodes llb) < f2)%nat ->
  linkedlist.Reset_loop f1 llb pl = linkedlist.Reset_loop f2 llb pl.
Proof.
  induction f1 as [|f1 IH]; intros f2 llb pl H1 H2; [lia|].
  destruct f2 as [|f2]; [lia|]. cbn [linkedlist.Reset_loop].
  destruct (linkedlist.nodes llb) as [|b rest] eqn:En.
  - rewrite (Pop_nil _ En). reflexivity.
  - rewrite (Pop_cons _ _ _ En).
    apply IH; cbn [linkedlist.nodes]; cbn [length] in *; lia.
Qed.

Lemma WriteTo_loop_fuel {W : Type} `{Writer W} (f1 : nat) :
  forall f2 llb pl (w : W) n,
  (length (linkedlist.nodes llb) < f1)%nat ->
  (length (linkedlist.nodes llb) < f2)%nat ->
  linkedlist.WriteTo_loop f1 llb pl w n = linkedlist.WriteTo_loop f2 llb pl w n.
Proof.
  induction f1 as [|f1 IH]; intros f2 llb pl w n H1 H2; [lia|].
  destruct f2 as [|f2]; [lia|]. cbn [linkedlist.WriteTo_loop].
  destruct (linkedlist.nodes llb) as [|b rest] eqn:En.
  - rewrite (Pop_nil _ En). reflexivity.
  - rewrite (Pop_cons _ _ _ En).
    destruct (io_Write w (bbPool.B b)) as [[m err] w1].
    destruct (m >? bbPool.Len b); [reflexivity|].
    destruct (negb (is_nil err)); [reflexivity|].
    destruct (m <? bbPool.Len b); [reflexivity|].
    apply IH; cbn [linkedlist.nodes]; cbn [length] in *; lia.
Qed.

Lemma Read_loop_fuel (f1 : nat) : forall f2 llb pl p n,
  (length (linkedlist.nodes llb) < f1)%nat ->
  (length (linkedlist.nodes llb) < f2)%nat ->
  0 <= n <= len p ->
  linkedlist.Read_loop f1 llb pl p n = linkedlist.Read_loop f2 llb pl p n.
Proof.
  induction f1 as [|f1 IH]; intros f2 llb pl p n H1 H2 Hn; [lia|].
  destruct f2 as [|f2]; [lia|]. cbn [linkedlist.Read_loop].
  destruct (linkedlist.nodes llb) as [|b rest] eqn:En.
  - rewrite (Pop_nil _ En). reflexivity.
  - rewrite (Pop_cons _ _ _ En). rewrite copy_spec. unfold bbPool.Len.
    rewrite len_slice_from.
    rewrite (Z.max_r 0 n), (Z.min_l n (len p)) by lia.
    pose proof (len_nonneg (bbPool.B b)) as HB.
    destruct (Z.min (len p - n) (len (bbPool.B b)) <? len (bbPool.B b)) eqn:E.
    + replace (n + Z.min (len p - n) (len (bbPool.B b)) =? len p) with true by lia.
      reflexivity.
    + destruct (n + Z.min (len p - n) (len (bbPool.B b)) =? len p) eqn:E2;
        [reflexivity|].
      apply IH; cbn [linkedlist.nodes]; cbn [length] in *; try lia.
      rewrite !len_app, !len_slice_to, !len_slice_from. lia.
Qed.

(** ** [WriteTo] of the linked chunk buffer *)

(** [WriteTo] hands the head chunk to one [w.Write].  On a short write, a
    count short of the chunk with no error, the rest of the chunk is pushed
    back at the head and [io.ErrShortWrite] is returned. *)
Lemma WriteTo_short_write {W : Type} `{Writer W} (llb : linkedlist.Buffer)
  (pl : bbPool.Pool) (w w1 : W) b rest m :
  linkedlist.nodes llb = b :: rest ->
  io_Write w (bbPool.B b) = (m, None, w1) ->
  0 <= m < bbPool.Len b ->
  linkedlist.WriteTo llb pl w =
  (Returned (m, Some ErrShortWrite),
   linkedlist.mkBuffer (linkedlist.bs llb) (linkedlist.advance m b :: rest)
     (linkedlist.size llb - 1 + 1)
     (linkedlist.bytes llb - bbPool.Len b + bbPool.Len (linkedlist.advance m b)),
   pl, w1).
Proof.
  intros En Ew Hm. unfold linkedlist.WriteTo. rewrite En.
  cbn [length linkedlist.WriteTo_loop]. rewrite (Pop_cons _ _ _ En), Ew.
  replace (m >? bbPool.Len b) with false by lia.
  replace (m <? bbPool.Len b) with true by lia.
  replace (m <? 0) with false by lia.
  cbn [is_nil negb]. reflexivity.
Qed.

(** An error of the writer is returned as it is, with the count so far; the
    chunk handed to the writer is not pushed back. *)
Lemma WriteTo_writer_error {W : Type} `{Writer W} (llb : linkedlist.Buffer)
  (pl : bbPool.Pool) (w w1 : W) b rest m e :
  linkedlist.nodes llb = b :: rest ->
  io_Write w (bbPool.B b) = (m, Some e, w1) ->
  m <= bbPool.Len b ->
  linkedlist.WriteTo llb pl w =
  (Returned (m, Some e),
   linkedlist.mkBuffer (linkedlist.bs llb) rest (linkedlist.size llb - 1)
     (linkedlist.bytes llb - bbPool.Len b),
   pl, w1).
Proof.
  intros En Ew Hm. unfold linkedlist.WriteTo. rewrite En.
  cbn [length linkedlist.WriteTo_loop]. rewrite (Pop_cons _ _ _ En), Ew.
  replace (m >? bbPool.Len b) with false by lia.
  cbn [is_nil negb]. reflexivity.
Qed.

(** A chunk written in full is dropped and the loop goes on with the next
    one. *)
Lemma WriteTo_full_write {W : Type} `{Writer W} (llb : linkedlist.Buffer)
  (pl : bbPool.Pool) (w w1 : W) b rest :
  linkedlist.nodes llb = b :: rest ->
  io_Write w (bbPool.B b) = (bbPool.Len b, None, w1) ->
  linkedlist.WriteTo llb pl w =
  linkedlist.WriteTo_loop (S (length rest))
    (linkedlist.mkBuffer (linkedlist.bs llb) rest (linkedlist.size llb - 1)
       (linkedlist.bytes llb - bbPool.Len b))
    pl w1 (0 + bbPool.Len b).
Proof.
  intros En Ew. unfold linkedlist.WriteTo. rewrite En.
  cbn [length]. cbn [linkedlist.WriteTo_loop]. rewrite (Pop_cons _ _ _ En), Ew.
  replace (bbPool.Len b >? bbPool.Len b) with false by lia.
  replace (bbPool.Len b <? bbPool.Len b) with false by lia.
  cbn [is_nil negb]. reflexivity.
Qed.

Lemma WriteTo_loop_pool {W : Type} `{Writer W} (fuel : nat) :
  forall llb pl (w : W) n,
  snd (fst (linkedlist.WriteTo_loop fuel llb pl w n)) = pl.
Proof.
  induction fuel as [|fuel IH]; intros llb pl w n;
    cbn [linkedlist.WriteTo_loop]; [reflexivity|].
  destruct (linkedlist.Pop llb) as [[b|] llb1]; [|reflexivity].
  destruct (io_Write w (bbPool.B b)) as [[m err] w1].
  destruct (m >? bbPool.Len b); [reflexivity|].
  destruct (negb (is_nil err)); [reflexivity|].
  destruct (m <? bbPool.Len b); [destruct (m <? 0); reflexivity|].
  apply IH.
Qed.

(** ** The list of an elastic buffer keeps its byte count *)

Section ElasticInvariant.
Context {R : Type} {ops : RingBuffer R}.

Lemma fill_inv (bs : list Bytes) :
  forall (r : R) l bb writable cum r1 l1 bb1 cum1 rest,
  bytes_inv l ->
  elastic.fill bs r l bb writable cum = (r1, l1, bb1, cum1, rest) ->
  bytes_inv l1.
Proof.
  induction bs as [|b bs' IH]; intros r l bb writable cum r1 l1 bb1 cum1 rest Hinv;
    cbn [elastic.fill].
  - intros Heq; injection Heq as _ <- _ _ _. exact Hinv.
  - destruct (len b >? writable).
    + destruct (ring_Write r (slice_to writable b)) as [[n0 e0] r2].
      destruct (linkedlist.PushBytesBack _ l bb) as [l2 bb2] eqn:EP.
      intros Heq; injection Heq as _ <- _ _ _.
      eapply PushBytesBack_inv; eauto.
    + destruct (ring_Write r b) as [[n0 e0] r2]. apply IH. exact Hinv.
Qed.

(** Every buffer [New] returns has a list that keeps its byte count, and
    every operation of the elastic buffer that returns preserves this: the
    hypothesis of C2 and C6 holds in every state a program can reach. *)
Theorem elastic_bytes_invariant :
  (forall w ps mb,
     fst (fst (elastic.New w ps)) = Some mb ->
     bytes_inv (elastic.listBuffer (R := R) mb)) /\
  (forall (mb : elastic.Buffer R) (ps : elastic.Pools R),
     bytes_inv (elastic.listBuffer mb) ->
     (forall p, let '(_, _, _, mb1, _) := elastic.Read mb ps p in
                bytes_inv (elastic.listBuffer mb1)) /\
     (forall n, bytes_inv (elastic.listBuffer (snd (elastic.Peek mb n)))) /\
     (forall n, let '(_, _, mb1, _) := elastic.Discard mb ps n in
                bytes_inv (elastic.listBuffer mb1)) /\
     (forall p, let '(_, _, mb1, _) := elastic.Write mb ps p in
                bytes_inv (elastic.listBuffer mb1)) /\
     (forall bs, let '(_, _, mb1, _) := elastic.Writev mb ps bs in
                 bytes_inv (elastic.listBuffer mb1)) /\
     (forall (Rd : Type) (rdr : Reader Rd) fuel (rd : Rd),
        let '(_, mb1, _, _) := elastic.ReadFrom fuel mb ps rd in
        bytes_inv (elastic.listBuffer mb1)) /\
     (forall (W : Type) (wr : Writer W) (w : W),
        let '(_, mb1, _, _) := elastic.WriteTo mb ps w in
        bytes_inv (elastic.listBuffer mb1)) /\
     (forall w, bytes_inv (elastic.listBuffer (fst (elastic.Reset mb ps w)))) /\
     bytes_inv (elastic.listBuffer (fst (elastic.Release mb ps)))).
Proof.
  split.
  - intros w ps mb. unfold elastic.New.
    destruct (w <=? 0); [discriminate|].
    destruct (rbPool.Get (elastic.rings ps)) as [r rb1]. cbn [fst].
    intros Heq; injection Heq as <-. reflexivity.
  - intros mb ps Hinv.
    assert (Hacq : forall mb0 ps0, elastic.acquire mb ps = (mb0, ps0) ->
                   bytes_inv (elastic.listBuffer mb0)).
    { intros mb0 ps0 EA. destruct (acquire_frame _ _ _ _ EA) as (_ & -> & _).
      exact Hinv. }
    repeat split.
    + intros p. unfold elastic.Read.
      destruct (elastic.ringBuffer mb) as [r|].
      * destruct (ring_Read r p) as [[[n0 err0] p0] r0].
        destruct (elastic.release_if_empty r0 _) as [ring1 rb1].
        destruct (n0 =? len p); [exact Hinv|].
        destruct (linkedlist.Read _ _ _) as [[[[m err2] tl] l1] bb1] eqn:ELR.
        eapply Read_inv; eauto.
      * destruct (linkedlist.Read _ _ _) as [[[[m err2] tl] l1] bb1] eqn:ELR.
        eapply Read_inv; eauto.
    + intros n. unfold elastic.Peek.
      destruct (elastic.ringBuffer mb) as [rg|].
      * destruct (ring_Peek rg _) as [h t].
        destruct (ring_Buffered rg >=? _); [exact Hinv|].
        unfold linkedlist.PeekBytesListWithBytes.
        destruct (linkedlist.peek_given _ _ _ _) as [[acc cum] done].
        exact Hinv.
      * exact Hinv.
    + intros n. unfold elastic.Discard.
      destruct (elastic.ringBuffer mb) as [r|].
      * destruct (ring_Discard r n) as [[d0 err0] r0].
        destruct (n <=? ring_Buffered r).
        -- destruct (n =? ring_Buffered r); exact Hinv.
        -- destruct (linkedlist.Discard _ _ _) as [[[m err2] l1] bb1] eqn:ELD.
           eapply Discard_inv; eauto.
      * destruct (linkedlist.Discard _ _ _) as [[[m err2] l1] bb1] eqn:ELD.
        eapply Discard_inv; eauto.
    + intros p. unfold elastic.Write.
      destruct (elastic.acquire mb ps) as [mb0 ps0] eqn:EA.
      specialize (Hacq _ _ eq_refl).
      destruct (elastic.to_list mb0); [|destruct (elastic.ringBuffer mb0) as [r|]].
      * destruct (linkedlist.PushBytesBack p _ _) as [l1 bb1] eqn:EP.
        eapply PushBytesBack_inv; eauto.
      * destruct (_ && _).
        -- destruct (ring_Write r _) as [[n0 e0] r1].
           destruct (linkedlist.PushBytesBack _ _ _) as [l1 bb1] eqn:EP.
           eapply PushBytesBack_inv; eauto.
        -- destruct (ring_Write r p) as [[n0 e0] r1]. exact Hacq.
      * destruct (linkedlist.PushBytesBack p _ _) as [l1 bb1] eqn:EP.
        eapply PushBytesBack_inv; eauto.
    + intros bs. unfold elastic.Writev.
      destruct (elastic.acquire mb ps) as [mb0 ps0] eqn:EA.
      specialize (Hacq _ _ eq_refl).
      destruct (elastic.to_list mb0); [|destruct (elastic.ringBuffer mb0) as [r|]].
      * destruct (elastic.push_all bs _ _ 0) as [[n0 l1] bb1] eqn:EP.
        apply push_all_spec in EP. apply EP, Hacq.
      * destruct (elastic.fill bs r _ _ _ 0) as [[[[r1 l1] bb1] cum] rest] eqn:EF.
        apply fill_inv in EF; [|exact Hacq].
        destruct (elastic.push_all rest l1 bb1 cum) as [[n0 l2] bb2] eqn:EP.
        apply push_all_spec in EP. apply EP, EF.
      * destruct (elastic.push_all bs _ _ 0) as [[n0 l1] bb1] eqn:EP.
        apply push_all_spec in EP. apply EP, Hacq.
    + intros Rd rdr fuel rd. unfold elastic.ReadFrom.
      destruct (elastic.acquire mb ps) as [mb0 ps0] eqn:EA.
      specialize (Hacq _ _ eq_refl).
      destruct (elastic.to_list mb0); [|destruct (elastic.ringBuffer mb0) as [r|]].
      * destruct (linkedlist.ReadFrom fuel _ _ rd) as [[[e l1] bb1] rd1] eqn:ER.
        eapply ReadFrom_loop_inv; eauto.
      * destruct (ring_ReadFrom Rd rdr fuel r rd) as [[e r1] rd1]. exact Hacq.
      * destruct (linkedlist.ReadFrom fuel _ _ rd) as [[[e l1] bb1] rd1] eqn:ER.
        eapply ReadFrom_loop_inv; eauto.
    + intros W wr w. unfold elastic.WriteTo.
      destruct (elastic.ringBuffer mb) as [r|].
      * destruct (ring_WriteTo W wr r w) as [[[[n0 err0]|] r0] w0]; [|exact Hinv].
        destruct (elastic.release_if_empty r0 _) as [ring1 rb1].
        destruct (negb (is_nil err0)); [exact Hinv|].
        destruct (linkedlist.WriteTo _ _ w0) as [[[res2 l1] bb1] w2] eqn:ELW.
        assert (bytes_inv l1) by (eapply WriteTo_loop_inv; eauto).
        destruct res2 as [[m err2]|]; assumption.
      * destruct (linkedlist.WriteTo _ _ w) as [[[res2 l1] bb1] w2] eqn:ELW.
        eapply WriteTo_loop_inv; eauto.
    + intros w. unfold elastic.Reset.
      pose proof (Reset_inv (elastic.listBuffer mb) (elastic.chunks ps)) as HR.
      destruct (linkedlist.Reset _ _) as [l1 bb1]. exact HR.
    + unfold elastic.Release.
      pose proof (Reset_inv (elastic.listBuffer mb) (elastic.chunks ps)) as HR.
      destruct (elastic.ringBuffer mb); destruct (linkedlist.Reset _ _) as [l1 bb1];
        exact HR.
Qed.

End ElasticInvariant.

(** ** The claims *)

(** C3.  The invariant of the linked chunk buffer, that the byte counter is
    the sum of the lengths of the chunks in the list, is kept by every
    operation that returns: [Pop], [PushFront], [PushBack], [PushBytesFront],
    [PushBytesBack], [Read], [Discard], [ReadFrom] (also while it is still
    looping), [WriteTo] and [Reset]; and it holds when the chunk [Pop]
    returned is pushed back at the head with its slice advanced. *)
Theorem linkedlist_bytes_invariant (llb : linkedlist.Buffer) :
  bytes_inv llb ->
  (forall b llb1, linkedlist.Pop llb = (b, llb1) -> bytes_inv llb1) /\
  (forall b llb1 m, linkedlist.Pop llb = (Some b, llb1) ->
     bytes_inv (linkedlist.push_front (linkedlist.advance m b) llb1)) /\
  (forall b llb1, linkedlist.PushFront b llb = Returned llb1 -> bytes_inv llb1) /\
  (forall b llb1, linkedlist.PushBack b llb = Returned llb1 -> bytes_inv llb1) /\
  (forall p pl, bytes_inv (fst (linkedlist.PushBytesFront p llb pl))) /\
  (forall p pl, bytes_inv (fst (linkedlist.PushBytesBack p llb pl))) /\
  (forall p pl n err p1 llb1 pl1,
     linkedlist.Read llb pl p = (n, err, p1, llb1, pl1) -> bytes_inv llb1) /\
  (forall n pl d err llb1 pl1,
     linkedlist.Discard llb pl n = (d, err, llb1, pl1) -> bytes_inv llb1) /\
  (forall (Rd : Type) (rdr : Reader Rd) fuel pl (r : Rd) e llb1 pl1 r1,
     linkedlist.ReadFrom fuel llb pl r = (e, llb1, pl1, r1) -> bytes_inv llb1) /\
  (forall (W : Type) (wr : Writer W) pl (w : W) res llb1 pl1 w1,
     linkedlist.WriteTo llb pl w = (res, llb1, pl1, w1) -> bytes_inv llb1) /\
  (forall pl, bytes_inv (fst (linkedlist.Reset llb pl))).
Proof.
  intros Hinv. repeat split.
  - intros b llb1. apply Pop_inv, Hinv.
  - intros b llb1 m HP. apply push_front_inv. eapply Pop_inv; eauto.
  - intros b llb1. apply PushFront_inv, Hinv.
  - intros b llb1. apply PushBack_inv, Hinv.
  - intros p pl.
    destruct (linkedlist.PushBytesFront p llb pl) as [l1 pl1] eqn:E.
    eapply PushBytesFront_inv; eauto.
  - intros p pl.
    destruct (linkedlist.PushBytesBack p llb pl) as [l1 pl1] eqn:E.
    eapply PushBytesBack_inv; eauto.
  - intros p pl n err p1 llb1 pl1. apply Read_inv, Hinv.
  - intros n pl d err llb1 pl1. apply Discard_inv, Hinv.
  - intros Rd rdr fuel pl r e llb1 pl1 r1. unfold linkedlist.ReadFrom.
    apply ReadFrom_loop_inv, Hinv.
  - intros W wr pl w res llb1 pl1 w1. unfold linkedlist.WriteTo.
    apply WriteTo_loop_inv, Hinv.
  - apply Reset_inv.
Qed.

Lemma linkedlist_bytes_invariant_witness :
  bytes_inv two_chunks /\
  (forall b llb1, linkedlist.Pop two_chunks = (b, llb1) -> bytes_inv llb1) /\
  (forall b llb1 m, linkedlist.Pop two_chunks = (Some b, llb1) ->
     bytes_inv (linkedlist.push_front (linkedlist.advance m b) llb1)) /\
  (forall b llb1, linkedlist.PushFront b two_chunks = Returned llb1 ->
     bytes_inv llb1) /\
  (forall b llb1, linkedlist.PushBack b two_chunks = Returned llb1 ->
     bytes_inv llb1) /\
  (forall p pl, bytes_inv (fst (linkedlist.PushBytesFront p two_chunks pl))) /\
  (forall p pl, bytes_inv (fst (linkedlist.PushBytesBack p two_chunks pl))) /\
  (forall p pl n err p1 llb1 pl1,
     linkedlist.Read two_chunks pl p = (n, err, p1, llb1, pl1) ->
     bytes_inv llb1) /\
  (forall n pl d err llb1 pl1,
     linkedlist.Discard two_chunks pl n = (d, err, llb1, pl1) ->
     bytes_inv llb1) /\
  (forall (Rd : Type) (rdr : Reader Rd) fuel pl (r : Rd) e llb1 pl1 r1,
     linkedlist.ReadFrom fuel two_chunks pl r = (e, llb1, pl1, r1) ->
     bytes_inv llb1) /\
  (forall (W : Type) (wr : Writer W) pl (w : W) res llb1 pl1 w1,
     linkedlist.WriteTo two_chunks pl w = (res, llb1, pl1, w1) ->
     bytes_inv llb1) /\
  (forall pl, bytes_inv (fst (linkedlist.Reset two_chunks pl))).
Proof.
  split; [reflexivity|].
  apply (linkedlist_bytes_invariant two_chunks). reflexivity.
Defined.

(** The partial reads, discards and writes do happen: on the chunks "xy" and
    "abcde", reading three bytes and discarding three bytes each leave "bcde"
    at the head and 4 in the counter; a writer that takes three bytes a call
    takes "xy" and "abc" and leaves "de" at the head and 2 in the counter. *)
Example partial_consumption :
  (let '(n, _, p1, llb1, _) :=
     linkedlist.Read two_chunks [] [Byte.x00; Byte.x00; Byte.x00] in
   n = 3 /\ p1 = xy ++ [Byte.x61] /\
   map bbPool.B (linkedlist.nodes llb1)
   = [[Byte.x62; Byte.x63; Byte.x64; Byte.x65]] /\
   linkedlist.bytes llb1 = 4) /\
  (let '(d, _, llb1, _) := linkedlist.Discard two_chunks [] 3 in
   d = 3 /\
   map bbPool.B (linkedlist.nodes llb1)
   = [[Byte.x62; Byte.x63; Byte.x64; Byte.x65]] /\
   linkedlist.bytes llb1 = 4) /\
  (let '(res, llb1, _, w1) := linkedlist.WriteTo two_chunks [] (mkPipe 3 []) in
   res = Returned (5, Some ErrShortWrite) /\
   map bbPool.B (linkedlist.nodes llb1) = [[Byte.x64; Byte.x65]] /\
   linkedlist.bytes llb1 = 2 /\
   taken w1 = xy ++ [Byte.x61; Byte.x62; Byte.x63]).
Proof. vm_compute. repeat split. Qed.

Section ElasticClaims.
Context {R : Type} {ops : RingBuffer R} {view : RingView R}
  {laws : RingLaws R}.

Lemma elastic_Discard_inv (mb mb1 : elastic.Buffer R) ps ps1 n d err :
  bytes_inv (elastic.listBuffer mb) ->
  elastic.Discard mb ps n = (d, err, mb1, ps1) ->
  bytes_inv (elastic.listBuffer mb1).
Proof.
  intros Hinv. unfold elastic.Discard.
  destruct (elastic.ringBuffer mb) as [r|].
  - destruct (ring_Discard r n) as [[d0 err0] r0].
    destruct (n <=? ring_Buffered r).
    + destruct (n =? ring_Buffered r);
        intros Heq; injection Heq as _ _ <- _; exact Hinv.
    + destruct (linkedlist.Discard _ _ _) as [[[m err2] l1] bb1] eqn:ELD.
      intros Heq; injection Heq as _ _ <- _.
      eapply Discard_inv; eauto.
  - destruct (linkedlist.Discard _ _ _) as [[[m err2] l1] bb1] eqn:ELD.
    intros Heq; injection Heq as _ _ <- _.
    eapply Discard_inv; eauto.
Qed.

Lemma elastic_Read_inv (mb mb1 : elastic.Buffer R) ps ps1 p n err p1 :
  bytes_inv (elastic.listBuffer mb) ->
  elastic.Read mb ps p = (n, err, p1, mb1, ps1) ->
  bytes_inv (elastic.listBuffer mb1).
Proof.
  intros Hinv. unfold elastic.Read.
  destruct (elastic.ringBuffer mb) as [r|].
  - destruct (ring_Read r p) as [[[n0 err0] p0] r0].
    destruct (elastic.release_if_empty r0 _) as [ring1 rb1].
    destruct (n0 =? len p).
    + intros Heq; injection Heq as _ _ _ <- _. exact Hinv.
    + destruct (linkedlist.Read _ _ _) as [[[[m err2] tl] l1] bb1] eqn:ELR.
      intros Heq; injection Heq as _ _ _ <- _.
      eapply Read_inv; eauto.
  - destruct (linkedlist.Read _ _ _) as [[[[m err2] tl] l1] bb1] eqn:ELR.
    intros Heq; injection Heq as _ _ _ <- _.
    eapply Read_inv; eauto.
Qed.

(** C6.  For an elastic buffer whose list keeps its byte count and for
    [0 < n <= Buffered()], [Discard(n)] returns [n] and leaves [Buffered()]
    smaller by exactly [n]. *)
Theorem Discard_decreases_Buffered (mb : elastic.Buffer R)
  (ps : elastic.Pools R) (n : Z) :
  bytes_inv (elastic.listBuffer mb) ->
  0 < n <= elastic.Buffered mb ->
  let '(discarded, _, mb1, _) := elastic.Discard mb ps n in
  discarded = n /\ elastic.Buffered mb1 = elastic.Buffered mb - n.
Proof.
  intros Hinv Hn.
  destruct (elastic.Discard mb ps n) as [[[d err] mb1] ps1] eqn:ED.
  pose proof (elastic_Discard_inv _ _ _ _ _ _ _ Hinv ED) as Hinv1.
  apply elastic_Discard_spec in ED; [|lia]. destruct ED as (Hd & Hb).
  rewrite (Buffered_spec mb1 Hinv1), Hb.
  rewrite (Buffered_spec mb Hinv) in *.
  rewrite len_slice_from. split; lia.
Qed.


End ElasticClaims.

Lemma Discard_decreases_Buffered_witness :
  bytes_inv (elastic.listBuffer ring_and_list) /\
  0 < 3 <= elastic.Buffered ring_and_list /\
  let '(discarded, _, mb1, _) := elastic.Discard ring_and_list no_pools 3 in
  discarded = 3 /\ elastic.Buffered mb1 = elastic.Buffered ring_and_list - 3.
Proof.
  split; [reflexivity|]. split; [vm_compute; split; [reflexivity|discriminate]|].
  apply (Discard_decreases_Buffered ring_and_list no_pools 3);
    [reflexivity|vm_compute; split; [reflexivity|discriminate]].
Defined.



(** The buffer of that example arises from [New(1)], [Write("x")],
    [Write("abcde")] and a [Read] of one byte. *)
Example spilled_reachable :
  let '(mb0, _, ps0) := elastic.New 1 no_pools in
  match mb0 with
  | None => False
  | Some mb0 =>
      let '(_, _, mb1, ps1) := elastic.Write mb0 ps0 [Byte.x78] in
      let '(_, _, mb2, ps2) := elastic.Write mb1 ps1 abcde in
      let '(_, _, _, mb3, _) := elastic.Read mb2 ps2 [Byte.x00] in
      elastic.ringBuffer mb3 = None /\
      map bbPool.B (linkedlist.nodes (elastic.listBuffer mb3)) = [abcde] /\
      elastic.Buffered mb3 = 5
  end.
Proof. vm_compute. repeat split. Qed.

Section NewAndWrite.
Context {R : Type} `{RingBuffer R}.

(** C10.  [New(maxStaticBytes)] returns a nil buffer and [ErrNegativeSize]
    for [maxStaticBytes <= 0]; otherwise it returns, with no error, a buffer
    with that watermark, the ring [rbPool.Get()] hands out and an empty
    list. *)
Theorem New_result (maxStaticBytes : Z) (ps : elastic.Pools R) :
  (maxStaticBytes <= 0 ->
   elastic.New maxStaticBytes ps = (None, Some ErrNegativeSize, ps)) /\
  (0 < maxStaticBytes ->
   elastic.New maxStaticBytes ps =
   (Some (elastic.mkBuffer maxStaticBytes
            (Some (fst (rbPool.Get (elastic.rings ps)))) linkedlist.empty),
    None,
    elastic.mkPools (snd (rbPool.Get (elastic.rings ps))) (elastic.chunks ps))).
Proof.
  unfold elastic.New. split; intros Hm.
  - replace (maxStaticBytes <=? 0) with true by lia. reflexivity.
  - replace (maxStaticBytes <=? 0) with false by lia.
    destruct (rbPool.Get (elastic.rings ps)) as [r rb1]. reflexivity.
Qed.

(** C1.  The rule of [Write(p)], read on the buffer after its first
    statement, which acquires a ring when the ring is nil and the list empty.
    When the list is not empty or the ring holds at least [W] bytes, [p] is
    pushed at the back of the list, after the bytes the list holds, and the
    ring is left alone.  Otherwise,
    when the length of the ring is at least [W] and [p] is longer than
    [ring.Available()], the first [ring.Available()] bytes of [p] are written
    to the ring and the rest is pushed at the back of the list.  Otherwise
    all of [p] is written to the ring and the list is left alone. *)
Theorem Write_rule (mb : elastic.Buffer R) (ps : elastic.Pools R) (p : Bytes) :
  let '(mb0, ps0) := elastic.acquire mb ps in
  let W := elastic.maxStaticBytes mb0 in
  let '(n, err, mb1, ps1) := elastic.Write mb ps p in
  (linkedlist.IsEmpty (elastic.listBuffer mb0) = false \/
   (exists r, elastic.ringBuffer mb0 = Some r /\ ring_Buffered r >= W) ->
   n = len p /\ err = None /\
   elastic.ringBuffer mb1 = elastic.ringBuffer mb0 /\
   (elastic.listBuffer mb1, elastic.chunks ps1) =
   linkedlist.PushBytesBack p (elastic.listBuffer mb0) (elastic.chunks ps0) /\
   list_bytes (elastic.listBuffer mb1) =
   list_bytes (elastic.listBuffer mb0) ++ p) /\
  (forall r,
   linkedlist.IsEmpty (elastic.listBuffer mb0) = true ->
   elastic.ringBuffer mb0 = Some r -> ring_Buffered r < W ->
   (ring_Len r >= W /\ len p > ring_Available r ->
    n = len p /\ err = None /\
    elastic.ringBuffer mb1 =
    Some (snd (ring_Write r (slice_to (ring_Available r) p))) /\
    (elastic.listBuffer mb1, elastic.chunks ps1) =
    linkedlist.PushBytesBack (slice_from (ring_Available r) p)
      (elastic.listBuffer mb0) (elastic.chunks ps0) /\
    list_bytes (elastic.listBuffer mb1) = slice_from (ring_Available r) p) /\
   (~ (ring_Len r >= W /\ len p > ring_Available r) ->
    (n, err) = fst (ring_Write r p) /\
    elastic.ringBuffer mb1 = Some (snd (ring_Write r p)) /\
    elastic.listBuffer mb1 = elastic.listBuffer mb0 /\
    elastic.chunks ps1 = elastic.chunks ps0)) /\
  (elastic.ringBuffer mb0 = None ->
   linkedlist.IsEmpty (elastic.listBuffer mb0) = false).
Proof.
  unfold elastic.Write.
  destruct (elastic.acquire mb ps) as [mb0 ps0] eqn:EA. cbn zeta.
  pose proof (acquire_ring _ _ _ _ EA) as Hnil.
  destruct (elastic.to_list mb0) eqn:ET.
  - destruct (linkedlist.PushBytesBack p _ _) as [l1 bb1] eqn:EP.
    split; [|split; [|exact Hnil]].
    + intros _. repeat split. cbn [elastic.listBuffer].
      apply (PushBytesBack_bytes _ _ _ _ _ EP).
    + intros r He Hr Hlt. exfalso.
      unfold elastic.to_list in ET. rewrite He, Hr in ET. cbn in ET. lia.
  - destruct (to_list_false _ ET) as (Hempty & r & Hr & Hlt).
    rewrite Hr.
    destruct ((ring_Len r >=? elastic.maxStaticBytes mb0)
              && (len p >? ring_Available r)) eqn:EC.
    + apply andb_prop in EC. destruct EC as [EC1 EC2].
      destruct (ring_Write r (slice_to (ring_Available r) p))
        as [[n0 e0] r1] eqn:EW.
      destruct (linkedlist.PushBytesBack (slice_from _ p) _ _)
        as [l1 bb1] eqn:EP.
      split; [|split; [|intros Hn; discriminate Hn]].
      * intros [He|(r' & Hr' & Hge)]; [congruence|].
        injection Hr' as <-. lia.
      * intros r' _ Hr' _. injection Hr' as <-. split.
        -- intros _. rewrite EW, EP. repeat split.
           cbn [elastic.listBuffer].
           rewrite (PushBytesBack_bytes _ _ _ _ _ EP), (IsEmpty_true _ Hempty).
           reflexivity.
        -- intros Hno. exfalso. apply Hno. lia.
    + apply andb_false_elim in EC.
      destruct (ring_Write r p) as [[n0 e0] r1] eqn:EW.
      split; [|split; [|intros Hn; discriminate Hn]].
      * intros [He|(r' & Hr' & Hge)]; [congruence|].
        injection Hr' as <-. lia.
      * intros r' _ Hr' _. injection Hr' as <-. split.
        -- intros [Hge Hgt]. exfalso. destruct EC as [EC|EC]; lia.
        -- intros _. rewrite EW. repeat split.
Qed.

End NewAndWrite.

(** The spill of C1 on a ring: with a ring of length 4 that holds "xy" and
    has room for two bytes, and the watermark 4, [Write("abcde")] puts "ab"
    into the ring and "cde" into the list. *)
Example Write_rule_spill :
  let mb := elastic.mkBuffer 4 (Some (ring.mkBuffer xy 2 0)) linkedlist.empty in
  let '(n, err, mb1, _) := elastic.Write mb no_pools abcde in
  n = 5 /\ err = None /\
  ring_part mb1 = xy ++ [Byte.x61; Byte.x62] /\
  list_bytes (elastic.listBuffer mb1) = [Byte.x63; Byte.x64; Byte.x65].
Proof. vm_compute. repeat split. Qed.

Lemma Write_rule_witness :
  let mb := elastic.mkBuffer 4 (Some (ring.mkBuffer xy 2 0)) linkedlist.empty in
  let r := ring.mkBuffer xy 2 0 in
  let '(n, err, mb1, ps1) := elastic.Write mb no_pools abcde in
  linkedlist.IsEmpty (elastic.listBuffer mb) = true /\
  ring_Buffered r < 4 /\
  (ring_Len r >= 4 /\ len abcde > ring_Available r) /\
  n = len abcde /\ err = None /\
  elastic.ringBuffer mb1 =
  Some (snd (ring_Write r (slice_to (ring_Available r) abcde))) /\
  (elastic.listBuffer mb1, elastic.chunks ps1) =
  linkedlist.PushBytesBack (slice_from (ring_Available r) abcde)
    (elastic.listBuffer mb) (elastic.chunks no_pools) /\
  list_bytes (elastic.listBuffer mb1) = slice_from (ring_Available r) abcde.
Proof.
  pose proof (Write_rule
    (elastic.mkBuffer 4 (Some (ring.mkBuffer xy 2 0)) linkedlist.empty)
    no_pools abcde) as Hrule.
  vm_compute in Hrule. destruct Hrule as (_ & Hring & _).
  destruct (Hring (ring.mkBuffer xy 2 0) eq_refl eq_refl eq_refl) as (Hspill & _).
  vm_compute. split; [reflexivity|]. split; [reflexivity|].
  split; [split; [discriminate|reflexivity]|].
  apply Hspill. split; [discriminate|reflexivity].
Defined.

Section WriteClaims.
Context {R : Type} {ops : RingBuffer R} {view : RingView R}
  {laws : RingLaws R}.

(** C8.  For a ring whose writes are all taken, [Write] and [Writev] always
    succeed: they return no error and the total number of input bytes, and
    every input byte is in the buffer afterwards, after the bytes it held. *)
Theorem Write_Writev_succeed (mb : elastic.Buffer R) (ps : elastic.Pools R) :
  (forall p,
     let '(n, err, mb1, _) := elastic.Write mb ps p in
     n = len p /\ err = None /\ elastic_bytes mb1 = elastic_bytes mb ++ p) /\
  (forall bs,
     let '(n, err, mb1, _) := elastic.Writev mb ps bs in
     n = total_len bs /\ err = None /\
     elastic_bytes mb1 = elastic_bytes mb ++ concat bs).
Proof.
  split.
  - intros p. destruct (elastic.Write mb ps p) as [[[n err] mb1] ps1] eqn:EW.
    apply Write_bytes in EW. destruct EW as (Hn & He & Hb & _). auto.
  - intros bs. destruct (elastic.Writev mb ps bs) as [[[n err] mb1] ps1] eqn:EW.
    destruct (Writev_count _ _ _ _ _ _ _ EW) as (Hn & He).
    apply Writev_bytes in EW. destruct EW as (Hb & _). auto.
Qed.

Lemma PushBytesBack_empty (p : Bytes) (l : linkedlist.Buffer) bb :
  len p = 0 -> linkedlist.PushBytesBack p l bb = (l, bb).
Proof.
  unfold linkedlist.PushBytesBack. intros ->. reflexivity.
Qed.

Lemma push_all_empty (bs : list Bytes) (l : linkedlist.Buffer) bb n :
  Forall (fun b => len b = 0) bs -> elastic.push_all bs l bb n = (n, l, bb).
Proof.
  intros Hall. revert n.
  induction Hall as [|b rest Hb Hrest IH]; intros n; cbn [elastic.push_all].
  - reflexivity.
  - rewrite (PushBytesBack_empty _ _ _ Hb), IH, Hb. f_equal. f_equal. lia.
Qed.

Lemma ring_Write_empty (r r1 : R) p n err :
  len p = 0 -> ring_Write r p = (n, err, r1) ->
  n = 0 /\ err = None /\ ring_bytes r1 = ring_bytes r /\
  ring_Buffered r1 = ring_Buffered r.
Proof.
  intros Hp EW. apply ring_Write_spec in EW. destruct EW as (Hn & He & Hb).
  rewrite (len_zero p Hp), app_nil_r in Hb.
  rewrite !ring_Buffered_spec, Hb. repeat split; [lia|exact He].
Qed.

Lemma fill_empty (bs : list Bytes) :
  Forall (fun b => len b = 0) bs ->
  forall (r : R) l bb writable cum r1 l1 bb1 cum1 rest,
  0 <= writable ->
  elastic.fill bs r l bb writable cum = (r1, l1, bb1, cum1, rest) ->
  l1 = l /\ bb1 = bb /\ cum1 = cum /\ rest = [] /\
  ring_bytes r1 = ring_bytes r /\ ring_Buffered r1 = ring_Buffered r.
Proof.
  induction 1 as [|b bs' Hb Hrest IH];
    intros r l bb writable cum r1 l1 bb1 cum1 rest Hw; cbn [elastic.fill].
  - intros Heq; injection Heq as <- <- <- <- <-. repeat split.
  - replace (len b >? writable) with false by lia.
    destruct (ring_Write r b) as [[n0 e0] r2] eqn:EW.
    apply (ring_Write_empty _ _ _ _ _ Hb) in EW.
    destruct EW as (Hn & _ & Hb2 & Hbuf).
    intros Heq. apply IH in Heq; [|lia].
    destruct Heq as (? & ? & ? & ? & Hb3 & Hbuf3).
    repeat split; try assumption; [lia|congruence|congruence].
Qed.

(** C9.  [Write] of a slice of length 0, and [Writev] of slices that are all
    of length 0, return the count 0 and no error and leave the bytes of the
    buffer, [Buffered()], the list and the chunk pool as they were.  (A nil
    ring is acquired first when the list is empty.) *)
Theorem zero_length_writes (mb : elastic.Buffer R) (ps : elastic.Pools R) :
  (forall p, len p = 0 ->
     let '(n, err, mb1, ps1) := elastic.Write mb ps p in
     n = 0 /\ err = None /\
     elastic_bytes mb1 = elastic_bytes mb /\
     elastic.Buffered mb1 = elastic.Buffered mb /\
     elastic.listBuffer mb1 = elastic.listBuffer mb /\
     elastic.chunks ps1 = elastic.chunks ps) /\
  (forall bs, Forall (fun b => len b = 0) bs ->
     let '(n, err, mb1, ps1) := elastic.Writev mb ps bs in
     n = 0 /\ err = None /\
     elastic_bytes mb1 = elastic_bytes mb /\
     elastic.Buffered mb1 = elastic.Buffered mb /\
     elastic.listBuffer mb1 = elastic.listBuffer mb /\
     elastic.chunks ps1 = elastic.chunks ps).
Proof.
  split.
  - intros p Hp.
    destruct (elastic.Write mb ps p) as [[[n err] mb1] ps1] eqn:EW.
    pose proof (Write_bytes _ _ _ _ _ _ _ EW) as (Hn & He & Hb & _).
    rewrite (len_zero p Hp), app_nil_r in Hb.
    split; [lia|]. split; [exact He|]. split; [exact Hb|].
    revert EW. unfold elastic.Write.
    destruct (elastic.acquire mb ps) as [mb0 ps0] eqn:EA.
    rewrite <- (acquire_Buffered _ _ _ _ EA).
    destruct (acquire_frame _ _ _ _ EA) as (_ & Hl & Hc). rewrite <- Hl, <- Hc.
    destruct (elastic.to_list mb0) eqn:ET.
    + rewrite (PushBytesBack_empty _ _ _ Hp).
      intros Heq; injection Heq as _ _ <- <-. repeat split.
    + destruct (to_list_false _ ET) as (_ & r & Hr & _). rewrite Hr.
      pose proof (ring_Available_spec r) as Ha.
      replace (len p >? ring_Available r) with false by lia.
      rewrite andb_false_r.
      destruct (ring_Write r p) as [[n0 e0] r1] eqn:ERW.
      apply (ring_Write_empty _ _ _ _ _ Hp) in ERW.
      destruct ERW as (_ & _ & _ & Hbuf).
      intros Heq; injection Heq as _ _ <- <-.
      unfold elastic.Buffered. cbn [elastic.ringBuffer elastic.listBuffer].
      rewrite Hr, Hbuf. repeat split.
  - intros bs Hall.
    destruct (elastic.Writev mb ps bs) as [[[n err] mb1] ps1] eqn:EW.
    pose proof (Writev_count _ _ _ _ _ _ _ EW) as (Hn & He).
    pose proof (Writev_bytes _ _ _ _ _ _ _ EW) as (Hb & _).
    assert (Hz : total_len bs = 0).
    { clear -Hall. induction Hall as [|b rest Hb0 _ IH]; cbn [total_len]; lia. }
    assert (Hc0 : concat bs = []).
    { apply len_zero. rewrite <- total_len_concat. exact Hz. }
    rewrite Hc0, app_nil_r in Hb.
    split; [lia|]. split; [exact He|]. split; [exact Hb|].
    revert EW. unfold elastic.Writev.
    destruct (elastic.acquire mb ps) as [mb0 ps0] eqn:EA.
    rewrite <- (acquire_Buffered _ _ _ _ EA).
    destruct (acquire_frame _ _ _ _ EA) as (_ & Hl & Hc). rewrite <- Hl, <- Hc.
    destruct (elastic.to_list mb0) eqn:ET.
    + rewrite (push_all_empty _ _ _ _ Hall).
      intros Heq; injection Heq as _ _ <- <-. repeat split.
    + destruct (to_list_false _ ET) as (_ & r & Hr & Hlt). rewrite Hr.
      pose proof (ring_Available_spec r) as Ha.
      destruct (elastic.fill bs r _ _ _ 0) as [[[[r1 l1] bb1] cum] rest] eqn:EF.
      apply (fill_empty _ Hall) in EF;
        [|destruct (ring_Len r <? elastic.maxStaticBytes mb0); lia].
      destruct EF as (-> & -> & -> & -> & _ & Hbuf).
      cbn [elastic.push_all].
      intros Heq; injection Heq as _ _ <- <-.
      unfold elastic.Buffered. cbn [elastic.ringBuffer elastic.listBuffer].
      rewrite Hr, Hbuf. repeat split.
Qed.

End WriteClaims.

Lemma Write_Writev_succeed_witness :
  (forall p,
     let '(n, err, mb1, _) := elastic.Write fresh4 no_pools p in
     n = len p /\ err = None /\
     elastic_bytes mb1 = elastic_bytes fresh4 ++ p) /\
  (forall bs,
     let '(n, err, mb1, _) := elastic.Writev fresh4 no_pools bs in
     n = total_len bs /\ err = None /\
     elastic_bytes mb1 = elastic_bytes fresh4 ++ concat bs).
Proof. exact (Write_Writev_succeed (laws := ring_model_laws) fresh4 no_pools). Defined.

Lemma zero_length_writes_witness :
  len (@nil Byte.byte) = 0 /\
  Forall (fun b : Bytes => len b = 0) [[]; []] /\
  (let '(n, err, mb1, ps1) := elastic.Write spilled no_pools [] in
   n = 0 /\ err = None /\
   elastic_bytes mb1 = elastic_bytes spilled /\
   elastic.Buffered mb1 = elastic.Buffered spilled /\
   elastic.listBuffer mb1 = elastic.listBuffer spilled /\
   elastic.chunks ps1 = elastic.chunks no_pools) /\
  (let '(n, err, mb1, ps1) := elastic.Writev fresh4 no_pools [[]; []] in
   n = 0 /\ err = None /\
   elastic_bytes mb1 = elastic_bytes fresh4 /\
   elastic.Buffered mb1 = elastic.Buffered fresh4 /\
   elastic.listBuffer mb1 = elastic.listBuffer fresh4 /\
   elastic.chunks ps1 = elastic.chunks no_pools).
Proof.
  split; [reflexivity|].
  split; [repeat constructor|].
  split.
  - apply (proj1 (zero_length_writes (laws := ring_model_laws) spilled no_pools)).
    reflexivity.
  - apply (proj2 (zero_length_writes (laws := ring_model_laws) fresh4 no_pools)).
    repeat constructor.
Defined.

Section WritevClaim.
Context {R : Type} {ops : RingBuffer R} {view : RingView R}
  {laws : RingLaws R}.

(** C4, as the code has it.  [Writev(bs)] returns the count that
    [Write(bs[0])], [Write(bs[1])], ... in order return in total, with no
    error, and leaves the same bytes in the buffer, in the same order (the
    ring, then the list).  The split between the ring and the list is not
    claimed: [Writev] writes a slice to the ring while it fits a running
    writable count, which starts at [W - ring.Buffered()] for a ring shorter
    than [W] and at [ring.Available()] otherwise. *)
Theorem Writev_is_Write_each (mb : elastic.Buffer R) (ps : elastic.Pools R)
  (bs : list Bytes) :
  let '(n, err, mb1, _) := elastic.Writev mb ps bs in
  let '(m, mb2, _) := Write_each mb ps bs in
  n = m /\ err = None /\ elastic_bytes mb1 = elastic_bytes mb2.
Proof.
  destruct (elastic.Writev mb ps bs) as [[[n err] mb1] ps1] eqn:EV.
  destruct (Write_each mb ps bs) as [[m mb2] ps2] eqn:EE.
  destruct (Writev_count _ _ _ _ _ _ _ EV) as (Hn & He).
  apply Writev_bytes in EV. destruct EV as (Hb1 & _).
  apply Write_each_bytes in EE. destruct EE as (Hm & Hb2).
  repeat split; congruence.
Qed.

End WritevClaim.

Lemma Writev_is_Write_each_witness :
  let '(n, err, mb1, _) := elastic.Writev fresh4 no_pools [abcdef; xy] in
  let '(m, mb2, _) := Write_each fresh4 no_pools [abcdef; xy] in
  n = m /\ err = None /\ elastic_bytes mb1 = elastic_bytes mb2.
Proof.
  exact (Writev_is_Write_each (laws := ring_model_laws) fresh4 no_pools
           [abcdef; xy]).
Defined.

(** C4, as stated, fails on the split.  On the buffer [New(4)] returns, whose
    ring has length 0, [Writev] of the one slice "abcdef" writes "abcd" to the
    ring and "ef" to the list, while [Write("abcdef")] writes all six bytes
    to the ring.  On a buffer with the watermark 4 and an empty ring of
    length 8, [Writev] of "abcde" and "xy" writes both to the ring, while
    [Write("abcde")] and then [Write("xy")] write "abcde" to the ring and
    "xy" to the list. *)
Lemma Writev_splits_differently :
  (let '(n, _, mb1, _) := elastic.Writev fresh4 no_pools [abcdef] in
   let '(m, mb2, _) := Write_each fresh4 no_pools [abcdef] in
   n = 6 /\ m = 6 /\
   ring_part mb1 = [Byte.x61; Byte.x62; Byte.x63; Byte.x64] /\
   list_bytes (elastic.listBuffer mb1) = [Byte.x65; Byte.x66] /\
   ring_part mb2 = abcdef /\
   list_bytes (elastic.listBuffer mb2) = [] /\
   (ring_part mb1, list_bytes (elastic.listBuffer mb1))
   <> (ring_part mb2, list_bytes (elastic.listBuffer mb2))) /\
  (let mb := elastic.mkBuffer 4 (Some (ring.mkBuffer [] 8 0)) linkedlist.empty in
   let '(n, _, mb1, _) := elastic.Writev mb no_pools [abcde; xy] in
   let '(m, mb2, _) := Write_each mb no_pools [abcde; xy] in
   n = 7 /\ m = 7 /\
   ring_part mb1 = abcde ++ xy /\
   list_bytes (elastic.listBuffer mb1) = [] /\
   ring_part mb2 = abcde /\
   list_bytes (elastic.listBuffer mb2) = xy /\
   (ring_part mb1, list_bytes (elastic.listBuffer mb1))
   <> (ring_part mb2, list_bytes (elastic.listBuffer mb2))).
Proof. vm_compute. repeat split; discriminate. Qed.

Section DrainOrder.
Context {R : Type} {ops : RingBuffer R} {view : RingView R}
  {laws : RingLaws R}.



End DrainOrder.


(** [New(4)] on the pools of a process that has released nothing. *)
Example New_fresh4 :
  elastic.New 4 no_pools = (Some fresh4, None, no_pools) /\
  elastic.New 0 no_pools = (None, Some ErrNegativeSize, no_pools) /\
  elastic.New (-3) no_pools = (None, Some ErrNegativeSize, no_pools).
Proof. repeat split. Qed.

(** [Read] takes "xy" from the ring and "a" from the list, and the ring, now
    empty, goes to the pool; a reader of two bytes leaves the list alone. *)
Example Read_ring_then_list :
  (let '(n, _, p1, mb1, ps1) :=
     elastic.Read ring_and_list no_pools (repeat Byte.x00 3) in
   n = 3 /\ p1 = xy ++ [Byte.x61] /\ elastic.ringBuffer mb1 = None /\
   length (elastic.rings ps1) = 1%nat /\
   list_bytes (elastic.listBuffer mb1) = [Byte.x62; Byte.x63; Byte.x64; Byte.x65]) /\
  (let '(n, _, p1, mb1, ps1) :=
     elastic.Read ring_and_list no_pools (repeat Byte.x00 1) in
   n = 1 /\ p1 = [Byte.x78] /\
   ring_part mb1 = [Byte.x79] /\ ps1 = no_pools /\
   elastic.listBuffer mb1 = one_chunk).
Proof. vm_compute. repeat split. Qed.

(** C7, where the code leaves the claim.  [WriteTo] never puts a chunk into
    the pool: the pool is the same after every [WriteTo].  With the chunks
    "xy" and "abcde" and a writer that takes every byte, [WriteTo] returns 7
    and no error and empties the list, and the pool has received nothing;
    [Read] of the same seven bytes and [Discard(7)] put both chunks into the
    pool. *)
Theorem WriteTo_keeps_written_chunks :
  (forall (W : Type) (wr : Writer W) llb pl (w : W),
     let '(_, _, pl1, _) := linkedlist.WriteTo llb pl w in pl1 = pl) /\
  (let '(res, llb1, pl1, w1) :=
     linkedlist.WriteTo two_chunks [] (mkPipe 10 []) in
   res = Returned (7, None) /\ linkedlist.nodes llb1 = [] /\
   taken w1 = xy ++ abcde /\ pl1 = []) /\
  (let '(_, _, _, llb1, pl1) :=
     linkedlist.Read two_chunks [] (repeat Byte.x00 7) in
   linkedlist.nodes llb1 = [] /\
   pl1 = [bbPool.mkByteBuffer abcde 5; bbPool.mkByteBuffer xy 2]) /\
  (let '(_, _, llb1, pl1) := linkedlist.Discard two_chunks [] 7 in
   linkedlist.nodes llb1 = [] /\
   pl1 = [bbPool.mkByteBuffer abcde 5; bbPool.mkByteBuffer xy 2]).
Proof.
  split.
  - intros W wr llb pl w.
    pose proof (WriteTo_loop_pool (S (length (linkedlist.nodes llb))) llb pl w 0)
      as Hp.
    unfold linkedlist.WriteTo.
    destruct (linkedlist.WriteTo_loop _ llb pl w 0) as [[[res l1] pl1] w1].
    exact Hp.
  - vm_compute. repeat split.
Qed.

(** * Further properties of the code *)

(** ** More on the linked chunk buffer *)

Lemma list_bytes_len_inv (llb : linkedlist.Buffer) :
  bytes_inv llb -> linkedlist.Buffered llb = len (list_bytes llb).
Proof.
  unfold bytes_inv, linkedlist.Buffered, list_bytes. intros ->.
  apply sum_len_chain.
Qed.

(** [Read(p)] on the linked chunk buffer never fails: it moves the oldest
    [min(len(p), bytes held)] bytes into the start of [p], leaves the rest of
    [p] and the younger bytes of the list as they were, and takes the count
    off [Buffered()]. *)
Theorem linkedlist_Read_result (llb : linkedlist.Buffer) (pl : bbPool.Pool)
  (p : Bytes) :
  let '(n, err, p1, llb1, _) := linkedlist.Read llb pl p in
  n = Z.min (len p) (len (list_bytes llb)) /\ err = None /\
  p1 = slice_to n (list_bytes llb) ++ slice_from n p /\
  list_bytes llb1 = slice_from n (list_bytes llb) /\
  (bytes_inv llb ->
   bytes_inv llb1 /\
   linkedlist.Buffered llb1 = linkedlist.Buffered llb - n).
Proof.
  destruct (linkedlist.Read llb pl p) as [[[[n err] p1] llb1] pl1] eqn:ER.
  pose proof (Read_spec _ _ _ _ _ _ _ _ ER) as Hs. cbn zeta in Hs.
  destruct Hs as (Hn & Hp & Hl).
  assert (He : err = None).
  { revert ER. unfold linkedlist.Read. destruct (len p =? 0).
    - intros Heq; injection Heq as _ <- _ _ _. reflexivity.
    - destruct (linkedlist.Read_loop _ _ _ _ _) as [[[? ?] ?] ?].
      intros Heq; injection Heq as _ <- _ _ _. reflexivity. }
  rewrite <- Hn in Hp, Hl. repeat split; try assumption.
  - eapply Read_inv; eauto.
  - pose proof (Read_inv _ _ _ _ _ _ _ _ H ER) as Hinv1.
    rewrite (list_bytes_len_inv _ Hinv1), (list_bytes_len_inv _ H), Hl.
    rewrite len_slice_from. pose proof (len_nonneg p).
    pose proof (len_nonneg (list_bytes llb)). lia.
Qed.

(** [Discard(n)] on the linked chunk buffer never fails.  For [n <= 0] it
    changes nothing and returns 0.  Otherwise it drops the oldest
    [min(n, bytes held)] bytes, returns that count and takes it off
    [Buffered()]. *)
Theorem linkedlist_Discard_result (llb : linkedlist.Buffer) (pl : bbPool.Pool)
  (n : Z) :
  let '(d, err, llb1, pl1) := linkedlist.Discard llb pl n in
  err = None /\
  (n <= 0 -> d = 0 /\ llb1 = llb /\ pl1 = pl) /\
  (0 < n ->
   d = Z.min n (len (list_bytes llb)) /\
   list_bytes llb1 = slice_from n (list_bytes llb)) /\
  (bytes_inv llb ->
   bytes_inv llb1 /\
   linkedlist.Buffered llb1 = linkedlist.Buffered llb - d).
Proof.
  destruct (linkedlist.Discard llb pl n) as [[[d err] llb1] pl1] eqn:ED.
  assert (He : err = None).
  { revert ED. unfold linkedlist.Discard. destruct (n <=? 0).
    - intros Heq; injection Heq as _ <- _ _. reflexivity.
    - destruct (linkedlist.Discard_loop _ _ _ _ _) as [[? ?] ?].
      intros Heq; injection Heq as _ <- _ _. reflexivity. }
  assert (H0 : n <= 0 -> d = 0 /\ llb1 = llb /\ pl1 = pl).
  { intros Hn. revert ED. unfold linkedlist.Discard.
    replace (n <=? 0) with true by lia.
    intros Heq; injection Heq as <- _ <- <-. repeat split. }
  split; [exact He|]. split; [exact H0|]. split.
  - intros Hn. eapply Discard_spec; eauto.
  - intros Hinv. pose proof (Discard_inv _ _ _ _ _ _ _ Hinv ED) as Hinv1.
    split; [exact Hinv1|].
    destruct (Z_le_gt_dec n 0) as [Hn|Hn].
    + destruct (H0 Hn) as (-> & -> & _). lia.
    + assert (Hpos : 0 < n) by lia.
      destruct (Discard_spec _ _ _ _ _ _ _ Hpos ED) as (Hd & Hl).
      rewrite (list_bytes_len_inv _ Hinv1), (list_bytes_len_inv _ Hinv), Hl.
      rewrite len_slice_from. pose proof (len_nonneg (list_bytes llb)). lia.
Qed.

Lemma Pop_size (llb llb1 : linkedlist.Buffer) b :
  size_inv llb -> linkedlist.Pop llb = (b, llb1) -> size_inv llb1.
Proof.
  unfold size_inv, linkedlist.Pop. intros Hinv.
  destruct (linkedlist.nodes llb) as [|x rest] eqn:En;
    intros Heq; injection Heq as _ <-.
  - rewrite En. exact Hinv.
  - cbn [linkedlist.size linkedlist.nodes]. rewrite len_cons in Hinv. lia.
Qed.

Lemma push_front_size (llb : linkedlist.Buffer) b :
  size_inv llb -> size_inv (linkedlist.push_front b llb).
Proof.
  unfold size_inv, linkedlist.push_front. intros Hinv.
  cbn [linkedlist.size linkedlist.nodes]. rewrite len_cons. lia.
Qed.

Lemma push_back_size (llb : linkedlist.Buffer) b :
  size_inv llb -> size_inv (linkedlist.push_back b llb).
Proof.
  unfold size_inv, linkedlist.push_back. intros Hinv.
  cbn [linkedlist.size linkedlist.nodes]. rewrite len_app, len_cons, len_nil. lia.
Qed.

Lemma Read_loop_size (fuel : nat) : forall llb pl p n n1 p1 llb1 pl1,
  size_inv llb ->
  linkedlist.Read_loop fuel llb pl p n = (n1, p1, llb1, pl1) ->
  size_inv llb1.
Proof.
  induction fuel as [|fuel IH]; intros llb pl p n n1 p1 llb1 pl1 Hinv;
    cbn [linkedlist.Read_loop].
  - intros Heq; injection Heq as _ _ <- _. exact Hinv.
  - destruct (linkedlist.Pop llb) as [[b|] llb2] eqn:EP;
      (apply Pop_size in EP; [|exact Hinv]).
    + destruct (copy (slice_from n p) (bbPool.B b)) as [m tl].
      destruct (m <? bbPool.Len b).
      * destruct (n + m =? len p).
        -- intros Heq; injection Heq as _ _ <- _. apply push_front_size, EP.
        -- apply IH. apply push_front_size, EP.
      * destruct (n + m =? len p).
        -- intros Heq; injection Heq as _ _ <- _. exact EP.
        -- apply IH. exact EP.
    + intros Heq; injection Heq as _ _ <- _. exact EP.
Qed.

Lemma Discard_loop_size (fuel : nat) : forall llb pl n d d1 llb1 pl1,
  size_inv llb ->
  linkedlist.Discard_loop fuel llb pl n d = (d1, llb1, pl1) ->
  size_inv llb1.
Proof.
  induction fuel as [|fuel IH]; intros llb pl n d d1 llb1 pl1 Hinv;
    cbn [linkedlist.Discard_loop].
  - intros Heq; injection Heq as _ <- _. exact Hinv.
  - destruct (n =? 0); [intros Heq; injection Heq as _ <- _; exact Hinv|].
    destruct (linkedlist.Pop llb) as [[b|] llb2] eqn:EP;
      (apply Pop_size in EP; [|exact Hinv]).
    + destruct (n <? bbPool.Len b).
      * intros Heq; injection Heq as _ <- _. apply push_front_size, EP.
      * apply IH. exact EP.
    + intros Heq; injection Heq as _ <- _. exact EP.
Qed.

Lemma ReadFrom_loop_size {Rd : Type} `{Reader Rd} (fuel : nat) :
  forall llb pl (r : Rd) n e llb1 pl1 r1,
  size_inv llb ->
  linkedlist.ReadFrom_loop fuel llb pl r n = (e, llb1, pl1, r1) ->
  size_inv llb1.
Proof.
  induction fuel as [|fuel IH]; intros llb pl r n e llb1 pl1 r1 Hinv;
    cbn [linkedlist.ReadFrom_loop].
  - intros Heq; injection Heq as _ <- _ _. exact Hinv.
  - destruct (bbPool.Get pl) as [bb pl2].
    destruct (io_Read r _) as [[[m d] err] r2].
    destruct (m <? 0); [intros Heq; injection Heq as _ <- _ _; exact Hinv|].
    destruct (m >? _); [intros Heq; injection Heq as _ <- _ _; exact Hinv|].
    destruct (is_EOF err); [intros Heq; injection Heq as _ <- _ _; exact Hinv|].
    destruct (negb (is_nil err));
      [intros Heq; injection Heq as _ <- _ _; exact Hinv|].
    apply IH. apply push_back_size, Hinv.
Qed.

Lemma WriteTo_loop_size {W : Type} `{Writer W} (fuel : nat) :
  forall llb pl (w : W) n res llb1 pl1 w1,
  size_inv llb ->
  linkedlist.WriteTo_loop fuel llb pl w n = (res, llb1, pl1, w1) ->
  size_inv llb1.
Proof.
  induction fuel as [|fuel IH]; intros llb pl w n res llb1 pl1 w1 Hinv;
    cbn [linkedlist.WriteTo_loop].
  - intros Heq; injection Heq as _ <- _ _. exact Hinv.
  - destruct (linkedlist.Pop llb) as [[b|] llb2] eqn:EP;
      (apply Pop_size in EP; [|exact Hinv]).
    + destruct (io_Write w (bbPool.B b)) as [[m err] w2].
      destruct (m >? bbPool.Len b);
        [intros Heq; injection Heq as _ <- _ _; exact EP|].
      destruct (negb (is_nil err));
        [intros Heq; injection Heq as _ <- _ _; exact EP|].
      destruct (m <? bbPool.Len b).
      * destruct (m <? 0); intros Heq; injection Heq as _ <- _ _;
          [exact EP|apply push_front_size, EP].
      * apply IH. exact EP.
    + intros Heq; injection Heq as _ <- _ _. exact EP.
Qed.

(** The linked chunk buffer keeps [Len()], its node counter, equal to the
    number of nodes in the list through every operation that returns: [Pop],
    [PushFront], [PushBack], [PushBytesFront], [PushBytesBack], [Read],
    [PeekBytesList], [PeekBytesListWithBytes], [Discard], [ReadFrom],
    [WriteTo] and [Reset]. *)
Theorem linkedlist_size_invariant (llb : linkedlist.Buffer) :
  size_inv llb ->
  (forall b llb1, linkedlist.Pop llb = (b, llb1) -> size_inv llb1) /\
  (forall b llb1, linkedlist.PushFront b llb = Returned llb1 -> size_inv llb1) /\
  (forall b llb1, linkedlist.PushBack b llb = Returned llb1 -> size_inv llb1) /\
  (forall p pl, size_inv (fst (linkedlist.PushBytesFront p llb pl))) /\
  (forall p pl, size_inv (fst (linkedlist.PushBytesBack p llb pl))) /\
  (forall p pl n err p1 llb1 pl1,
     linkedlist.Read llb pl p = (n, err, p1, llb1, pl1) -> size_inv llb1) /\
  (forall n, size_inv (snd (linkedlist.PeekBytesList n llb))) /\
  (forall n given,
     size_inv (snd (linkedlist.PeekBytesListWithBytes n given llb))) /\
  (forall n pl d err llb1 pl1,
     linkedlist.Discard llb pl n = (d, err, llb1, pl1) -> size_inv llb1) /\
  (forall (Rd : Type) (rdr : Reader Rd) fuel pl (r : Rd) e llb1 pl1 r1,
     linkedlist.ReadFrom fuel llb pl r = (e, llb1, pl1, r1) -> size_inv llb1) /\
  (forall (W : Type) (wr : Writer W) pl (w : W) res llb1 pl1 w1,
     linkedlist.WriteTo llb pl w = (res, llb1, pl1, w1) -> size_inv llb1) /\
  (forall pl, size_inv (fst (linkedlist.Reset llb pl))).
Proof.
  intros Hinv. repeat split.
  - intros b llb1. apply Pop_size, Hinv.
  - intros b llb1. unfold linkedlist.PushFront.
    destruct b as [[[x|]]|]; intros Heq; try discriminate Heq;
      injection Heq as <-; auto using push_front_size.
  - intros b llb1. unfold linkedlist.PushBack.
    destruct b as [[[x|]]|]; intros Heq; try discriminate Heq;
      injection Heq as <-; auto using push_back_size.
  - intros p pl. unfold linkedlist.PushBytesFront.
    destruct (len p =? 0); [exact Hinv|].
    destruct (bbPool.Get pl) as [bb pl1]. apply push_front_size, Hinv.
  - intros p pl. unfold linkedlist.PushBytesBack.
    destruct (len p =? 0); [exact Hinv|].
    destruct (bbPool.Get pl) as [bb pl1]. apply push_back_size, Hinv.
  - intros p pl n err p1 llb1 pl1. unfold linkedlist.Read.
    destruct (len p =? 0); [intros Heq; injection Heq as _ _ _ <- _; exact Hinv|].
    destruct (linkedlist.Read_loop _ llb pl p 0) as [[[n2 p2] llb2] pl2] eqn:EL.
    intros Heq; injection Heq as _ _ _ <- _. eapply Read_loop_size; eauto.
  - intros n. exact Hinv.
  - intros n given. unfold linkedlist.PeekBytesListWithBytes.
    destruct (linkedlist.peek_given _ _ _ _) as [[acc cum] done]. exact Hinv.
  - intros n pl d err llb1 pl1. unfold linkedlist.Discard.
    destruct (n <=? 0); [intros Heq; injection Heq as _ _ <- _; exact Hinv|].
    destruct (linkedlist.Discard_loop _ llb pl n 0) as [[d2 llb2] pl2] eqn:EL.
    intros Heq; injection Heq as _ _ <- _. eapply Discard_loop_size; eauto.
  - intros Rd rdr fuel pl r e llb1 pl1 r1. unfold linkedlist.ReadFrom.
    apply ReadFrom_loop_size, Hinv.
  - intros W wr pl w res llb1 pl1 w1. unfold linkedlist.WriteTo.
    apply WriteTo_loop_size, Hinv.
  - intros pl. unfold linkedlist.Reset.
    destruct (linkedlist.Reset_loop _ llb pl) as [llb1 pl1]. reflexivity.
Qed.

Lemma linkedlist_size_invariant_witness :
  size_inv two_chunks /\
  (forall p pl n err p1 llb1 pl1,
     linkedlist.Read two_chunks pl p = (n, err, p1, llb1, pl1) ->
     size_inv llb1) /\
  (forall n pl d err llb1 pl1,
     linkedlist.Discard two_chunks pl n = (d, err, llb1, pl1) ->
     size_inv llb1).
Proof.
  split; [reflexivity|].
  pose proof (linkedlist_size_invariant two_chunks eq_refl) as Hall.
  split; apply Hall.
Defined.

(** ** Chunks and the pool *)

Lemma Read_loop_chunks (fuel : nat) : forall llb pl p n n1 p1 llb1 pl1,
  linkedlist.Read_loop fuel llb pl p n = (n1, p1, llb1, pl1) ->
  (length (linkedlist.nodes llb1) + length pl1
   = length (linkedlist.nodes llb) + length pl)%nat.
Proof.
  induction fuel as [|fuel IH]; intros llb pl p n n1 p1 llb1 pl1;
    cbn [linkedlist.Read_loop].
  - intros Heq; injection Heq as _ _ <- <-. reflexivity.
  - destruct (linkedlist.nodes llb) as [|b rest] eqn:En.
    + rewrite (Pop_nil _ En). intros Heq; injection Heq as _ _ <- <-.
      rewrite En. reflexivity.
    + rewrite (Pop_cons _ _ _ En).
      destruct (copy (slice_from n p) (bbPool.B b)) as [m tl].
      destruct (m <? bbPool.Len b).
      * destruct (n + m =? len p).
        -- intros Heq; injection Heq as _ _ <- <-. reflexivity.
        -- intros Heq. apply IH in Heq. rewrite Heq. reflexivity.
      * destruct (n + m =? len p).
        -- intros Heq; injection Heq as _ _ <- <-.
           cbn [linkedlist.nodes bbPool.Put length]. lia.
        -- intros Heq. apply IH in Heq. rewrite Heq.
           cbn [linkedlist.nodes bbPool.Put length]. lia.
Qed.

Lemma Discard_loop_chunks (fuel : nat) : forall llb pl n d d1 llb1 pl1,
  linkedlist.Discard_loop fuel llb pl n d = (d1, llb1, pl1) ->
  (length (linkedlist.nodes llb1) + length pl1
   = length (linkedlist.nodes llb) + length pl)%nat.
Proof.
  induction fuel as [|fuel IH]; intros llb pl n d d1 llb1 pl1;
    cbn [linkedlist.Discard_loop].
  - intros Heq; injection Heq as _ <- <-. reflexivity.
  - destruct (n =? 0); [intros Heq; injection Heq as _ <- <-; reflexivity|].
    destruct (linkedlist.nodes llb) as [|b rest] eqn:En.
    + rewrite (Pop_nil _ En). intros Heq; injection Heq as _ <- <-.
      rewrite En. reflexivity.
    + rewrite (Pop_cons _ _ _ En).
      destruct (n <? bbPool.Len b).
      * intros Heq; injection Heq as _ <- <-. reflexivity.
      * intros Heq. apply IH in Heq. rewrite Heq.
        cbn [linkedlist.nodes bbPool.Put length]. lia.
Qed.

Lemma Reset_loop_chunks (fuel : nat) : forall llb pl llb1 pl1,
  (length (linkedlist.nodes llb) < fuel)%nat ->
  linkedlist.Reset_loop fuel llb pl = (llb1, pl1) ->
  pl1 = rev (linkedlist.nodes llb) ++ pl.
Proof.
  induction fuel as [|fuel IH]; intros llb pl llb1 pl1 Hf; [lia|].
  cbn [linkedlist.Reset_loop].
  destruct (linkedlist.nodes llb) as [|b rest] eqn:En.
  - rewrite (Pop_nil _ En). intros Heq; injection Heq as _ <-. reflexivity.
  - rewrite (Pop_cons _ _ _ En). intros Heq. apply IH in Heq.
    + rewrite Heq. cbn [linkedlist.nodes rev bbPool.Put].
      rewrite <- app_assoc. reflexivity.
    + cbn [linkedlist.nodes]. cbn [length] in Hf. lia.
Qed.

(** [Read], [Discard] and [Reset] neither lose nor make a chunk: the chunks in
    the list and in the pool are as many after as before, so each chunk that
    left the list went to the pool; [Reset] puts every chunk of the list into
    the pool, the head first, and leaves the zero value. *)
Theorem chunks_go_to_the_pool (llb : linkedlist.Buffer) (pl : bbPool.Pool) :
  (forall p,
     let '(_, _, _, llb1, pl1) := linkedlist.Read llb pl p in
     (length (linkedlist.nodes llb1) + length pl1
      = length (linkedlist.nodes llb) + length pl)%nat) /\
  (forall n,
     let '(_, _, llb1, pl1) := linkedlist.Discard llb pl n in
     (length (linkedlist.nodes llb1) + length pl1
      = length (linkedlist.nodes llb) + length pl)%nat) /\
  (let '(llb1, pl1) := linkedlist.Reset llb pl in
   llb1 = linkedlist.empty /\ pl1 = rev (linkedlist.nodes llb) ++ pl).
Proof.
  repeat split.
  - intros p. unfold linkedlist.Read.
    destruct (len p =? 0); [reflexivity|].
    destruct (linkedlist.Read_loop _ llb pl p 0) as [[[n2 p2] llb2] pl2] eqn:EL.
    eapply Read_loop_chunks; eauto.
  - intros n. unfold linkedlist.Discard.
    destruct (n <=? 0); [reflexivity|].
    destruct (linkedlist.Discard_loop _ llb pl n 0) as [[d2 llb2] pl2] eqn:EL.
    eapply Discard_loop_chunks; eauto.
  - unfold linkedlist.Reset.
    destruct (linkedlist.Reset_loop _ llb pl) as [llb1 pl1] eqn:EL.
    apply Reset_loop_chunks in EL; [|lia]. split; [reflexivity|exact EL].
Qed.

(** ** More on [WriteTo] of the linked chunk buffer *)

Lemma WriteTo_loop_drained {W : Type} `{Writer W} (fuel : nat) :
  forall llb pl (w : W) n0 n llb1 pl1 w1,
  (length (linkedlist.nodes llb) < fuel)%nat ->
  linkedlist.WriteTo_loop fuel llb pl w n0 = (Returned (n, None), llb1, pl1, w1) ->
  linkedlist.nodes llb1 = [] /\ n = n0 + sum_len (linkedlist.nodes llb).
Proof.
  induction fuel as [|fuel IH]; intros llb pl w n0 n llb1 pl1 w1 Hf; [lia|].
  cbn [linkedlist.WriteTo_loop].
  destruct (linkedlist.nodes llb) as [|b rest] eqn:En.
  - rewrite (Pop_nil _ En). intros Heq; injection Heq as <- <- _ _.
    rewrite En. cbn [sum_len]. split; [reflexivity|lia].
  - rewrite (Pop_cons _ _ _ En).
    destruct (io_Write w (bbPool.B b)) as [[m err] w2].
    destruct (m >? bbPool.Len b) eqn:E1; [discriminate|].
    destruct err as [e|]; cbn [is_nil negb]; [discriminate|].
    destruct (m <? bbPool.Len b) eqn:E2;
      [destruct (m <? 0); discriminate|].
    intros Heq. apply IH in Heq.
    + cbn [linkedlist.nodes] in Heq. destruct Heq as (Hn & Hs).
      split; [exact Hn|]. cbn [sum_len]. lia.
    + cbn [linkedlist.nodes]. cbn [length] in Hf. lia.
Qed.

Lemma WriteTo_loop_account {W : Type} `{Writer W} (fuel : nat) :
  forall llb pl (w : W) n0 n err llb1 pl1 w1,
  linkedlist.WriteTo_loop fuel llb pl w n0 = (Returned (n, err), llb1, pl1, w1) ->
  len (list_bytes llb1) + (n - n0) <= len (list_bytes llb) /\
  (never_fails W ->
   0 <= n - n0 /\ list_bytes llb1 = slice_from (n - n0) (list_bytes llb)).
Proof.
  induction fuel as [|fuel IH]; intros llb pl w n0 n err llb1 pl1 w1;
    cbn [linkedlist.WriteTo_loop].
  - intros Heq; injection Heq as <- _ <- _ _.
    rewrite Z.sub_diag, slice_from_0 by lia. split; [lia|]. intros _.
    split; [lia|reflexivity].
  - unfold list_bytes.
    destruct (linkedlist.nodes llb) as [|b rest] eqn:En.
    + rewrite (Pop_nil _ En). intros Heq; injection Heq as <- _ <- _ _.
      rewrite En, Z.sub_diag, slice_from_0 by lia. split; [lia|]. intros _.
      split; [lia|reflexivity].
    + rewrite (Pop_cons _ _ _ En). rewrite chain_bytes_cons, len_app.
      pose proof (len_nonneg (bbPool.B b)) as HB.
      pose proof (len_nonneg (chain_bytes rest)) as HR.
      destruct (io_Write w (bbPool.B b)) as [[m err0] w2] eqn:EW.
      unfold bbPool.Len.
      destruct (m >? len (bbPool.B b)) eqn:E1; [discriminate|].
      destruct err0 as [e|]; cbn [is_nil negb].
      * intros Heq; injection Heq as <- _ <- _ _.
        cbn [linkedlist.nodes]. split; [lia|].
        intros Hnf. specialize (Hnf w (bbPool.B b)). rewrite EW in Hnf.
        discriminate Hnf.
      * destruct (m <? len (bbPool.B b)) eqn:E2.
        -- destruct (m <? 0) eqn:E3; [discriminate|].
           intros Heq; injection Heq as <- _ <- _ _.
           cbn [linkedlist.nodes linkedlist.push_front linkedlist.advance].
           rewrite chain_bytes_cons. unfold linkedlist.advance. cbn [bbPool.B].
           rewrite len_app, len_slice_from.
           replace (n0 + m - n0) with m by lia.
           split; [lia|]. intros _. split; [lia|].
           rewrite slice_from_app_le by lia. reflexivity.
        -- intros Heq. apply IH in Heq. unfold list_bytes in Heq.
           cbn [linkedlist.nodes] in Heq. destruct Heq as (Hle & Hex).
           assert (Hm : m = len (bbPool.B b)) by lia. subst m.
           split; [lia|]. intros Hnf. destruct (Hex Hnf) as (Hge & Hl).
           split; [lia|]. rewrite Hl.
           rewrite slice_from_app_ge by lia. f_equal. lia.
Qed.

(** [WriteTo] of the linked chunk buffer returns a nil error only when it
    has written every chunk: the list is then empty and the count is the
    number of bytes the list held. *)
Theorem linkedlist_WriteTo_nil_is_drained {W : Type} `{Writer W}
  (llb : linkedlist.Buffer) (pl : bbPool.Pool) (w : W) :
  let '(res, llb1, _, _) := linkedlist.WriteTo llb pl w in
  forall n, res = Returned (n, None) ->
  linkedlist.nodes llb1 = [] /\ n = len (list_bytes llb) /\
  (bytes_inv llb -> n = linkedlist.Buffered llb /\ linkedlist.Buffered llb1 = 0).
Proof.
  unfold linkedlist.WriteTo.
  destruct (linkedlist.WriteTo_loop _ llb pl w 0) as [[[res llb1] pl1] w1] eqn:EL.
  intros n ->.
  destruct (WriteTo_loop_drained _ _ _ _ _ _ _ _ _ (Nat.lt_succ_diag_r _) EL)
    as (Hnil & Hn).
  rewrite sum_len_chain in Hn. split; [exact Hnil|]. split; [exact Hn|].
  intros Hinv. split.
  - rewrite (list_bytes_len_inv _ Hinv). exact Hn.
  - pose proof (WriteTo_loop_inv _ _ _ _ _ _ _ _ _ Hinv EL) as Hinv1.
    rewrite (list_bytes_len_inv _ Hinv1). unfold list_bytes. rewrite Hnil.
    reflexivity.
Qed.

(** [WriteTo] of the linked chunk buffer never keeps a byte it counted: the
    bytes left in the list and the count together are at most the bytes the
    list held.  The two fall short of them when the writer returns an
    error, for the chunk handed to the writer is then dropped whole. *)
Theorem linkedlist_WriteTo_count_bound {W : Type} `{Writer W}
  (llb : linkedlist.Buffer) (pl : bbPool.Pool) (w : W) :
  let '(res, llb1, _, _) := linkedlist.WriteTo llb pl w in
  forall n err, res = Returned (n, err) ->
  len (list_bytes llb1) + n <= len (list_bytes llb).
Proof.
  unfold linkedlist.WriteTo.
  destruct (linkedlist.WriteTo_loop _ llb pl w 0) as [[[res llb1] pl1] w1] eqn:EL.
  intros n err ->. apply WriteTo_loop_account in EL. lia.
Qed.

(** With a writer that never returns an error, [WriteTo] of the linked chunk
    buffer loses nothing: the count is not negative and the list is left
    with exactly the bytes after the first [n] it held. *)
Theorem linkedlist_WriteTo_keeps_the_rest {W : Type} `{Writer W}
  (llb : linkedlist.Buffer) (pl : bbPool.Pool) (w : W) :
  never_fails W ->
  let '(res, llb1, _, _) := linkedlist.WriteTo llb pl w in
  forall n err, res = Returned (n, err) ->
  0 <= n /\ list_bytes llb1 = slice_from n (list_bytes llb).
Proof.
  intros Hnf. unfold linkedlist.WriteTo.
  destruct (linkedlist.WriteTo_loop _ llb pl w 0) as [[[res llb1] pl1] w1] eqn:EL.
  intros n err ->. apply WriteTo_loop_account in EL.
  destruct EL as (_ & Hex). destruct (Hex Hnf) as (Hge & Hl).
  rewrite Z.sub_0_r in *. split; assumption.
Qed.

Lemma Pipe_never_fails : never_fails Pipe.
Proof. intros w p. reflexivity. Qed.

Lemma linkedlist_WriteTo_keeps_the_rest_witness :
  never_fails Pipe /\
  let '(res, llb1, _, _) := linkedlist.WriteTo two_chunks [] (mkPipe 3 []) in
  forall n err, res = Returned (n, err) ->
  0 <= n /\ list_bytes llb1 = slice_from n (list_bytes two_chunks).
Proof.
  split; [exact Pipe_never_fails|].
  exact (linkedlist_WriteTo_keeps_the_rest two_chunks [] (mkPipe 3 [])
           Pipe_never_fails).
Defined.

(** ** [ReadFrom] and [PeekBytesList] of the linked chunk buffer *)

Lemma len_stored (l : Z) (d : Bytes) : len (stored l d) = Z.max 0 l.
Proof.
  unfold stored, len. rewrite length_firstn, length_app, repeat_length. lia.
Qed.

Lemma ReadFrom_loop_account {Rd : Type} `{Reader Rd} (fuel : nat) :
  forall llb pl (r : Rd) n0 e llb1 pl1 r1,
  linkedlist.ReadFrom_loop fuel llb pl r n0 = (e, llb1, pl1, r1) ->
  exists added,
    list_bytes llb1 = list_bytes llb ++ added /\
    forall n err, e = Done n err ->
      err <> Some EOF /\
      exists last rest,
        pl1 = last :: rest /\ len added + bbPool.Len last = n - n0.
Proof.
  induction fuel as [|fuel IH]; intros llb pl r n0 e llb1 pl1 r1;
    cbn [linkedlist.ReadFrom_loop].
  - intros Heq; injection Heq as <- <- _ _. exists [].
    rewrite app_nil_r. split; [reflexivity|]. intros n err Hd. discriminate Hd.
  - destruct (bbPool.Get pl) as [bb pl2].
    set (l := if bbPool.capB bb =? 0 then linkedlist.minRead else bbPool.capB bb).
    destruct (io_Read r l) as [[[m d] err0] r2].
    destruct (m <? 0) eqn:E1.
    { intros Heq; injection Heq as <- <- _ _. exists [].
      rewrite app_nil_r. split; [reflexivity|]. intros n err Hd. discriminate Hd. }
    destruct (m >? l) eqn:E2.
    { intros Heq; injection Heq as <- <- _ _. exists [].
      rewrite app_nil_r. split; [reflexivity|]. intros n err Hd. discriminate Hd. }
    assert (Hlen : len (slice_to m (stored l d)) = m).
    { rewrite len_slice_to, len_stored. lia. }
    destruct (is_EOF err0) eqn:E3.
    { intros Heq; injection Heq as <- <- <- _. exists [].
      rewrite app_nil_r. split; [reflexivity|].
      intros n err Hd. injection Hd as <- <-. split; [discriminate|].
      eexists _, _. split; [reflexivity|].
      unfold bbPool.Len. cbn [bbPool.B]. rewrite Hlen, len_nil. lia. }
    destruct (negb (is_nil err0)) eqn:E4.
    { intros Heq; injection Heq as <- <- <- _. exists [].
      rewrite app_nil_r. split; [reflexivity|].
      intros n err Hd. injection Hd as <- <-. split.
      - intros ->. discriminate E3.
      - eexists _, _. split; [reflexivity|].
        unfold bbPool.Len. cbn [bbPool.B]. rewrite Hlen, len_nil. lia. }
    intros Heq. apply IH in Heq. destruct Heq as (added & Hb & Hd).
    rewrite list_bytes_push_back in Hb. cbn [bbPool.B] in Hb.
    exists (slice_to m (stored l d) ++ added). split.
    + rewrite Hb, <- app_assoc. reflexivity.
    + intros n err He. destruct (Hd n err He) as (Hne & last & rest & Hp & Hc).
      split; [exact Hne|]. exists last, rest. split; [exact Hp|].
      rewrite len_app, Hlen. lia.
Qed.

(** [ReadFrom] of the linked chunk buffer keeps the bytes the list held and
    appends what it reads after them, whatever way it ends.  When it returns,
    the error is never [io.EOF], and the bytes of its last read are in the
    count but not in the list: their chunk went to the pool, so the list
    grew by the count less the length of that chunk. *)
Theorem linkedlist_ReadFrom_account {Rd : Type} `{Reader Rd} (fuel : nat)
  (llb : linkedlist.Buffer) (pl : bbPool.Pool) (r : Rd) :
  let '(e, llb1, pl1, _) := linkedlist.ReadFrom fuel llb pl r in
  (exists added, list_bytes llb1 = list_bytes llb ++ added) /\
  (forall n err, e = Done n err ->
     err <> Some EOF /\
     exists last rest,
       pl1 = last :: rest /\
       len (list_bytes llb1) + bbPool.Len last = len (list_bytes llb) + n).
Proof.
  unfold linkedlist.ReadFrom.
  destruct (linkedlist.ReadFrom_loop fuel llb pl r 0) as [[[e llb1] pl1] r1] eqn:EL.
  apply ReadFrom_loop_account in EL. destruct EL as (added & Hb & Hd).
  split; [exists added; exact Hb|].
  intros n err He. destruct (Hd n err He) as (Hne & last & rest & Hp & Hc).
  split; [exact Hne|]. exists last, rest. split; [exact Hp|].
  rewrite Hb, len_app. lia.
Qed.

Lemma peek_nodes_shortest (maxBytes : Z) (l : list bbPool.ByteBuffer) :
  forall cum acc,
  cum < maxBytes ->
  exists l1 l2,
    l = l1 ++ l2 /\
    linkedlist.peek_nodes maxBytes l cum acc = acc ++ map bbPool.B l1 /\
    (l2 = [] \/ maxBytes <= cum + sum_len l1) /\
    cum + sum_len (removelast l1) < maxBytes.
Proof.
  induction l as [|x rest IH]; intros cum acc Hc; cbn [linkedlist.peek_nodes].
  - exists [], []. cbn [app map removelast sum_len]. rewrite app_nil_r.
    repeat split; [auto|lia].
  - destruct (cum + bbPool.Len x >=? maxBytes) eqn:E.
    + exists [x], rest. cbn [app map sum_len removelast].
      split; [reflexivity|]. split; [reflexivity|]. split; [right; lia|lia].
    + destruct (IH (cum + bbPool.Len x) (acc ++ [bbPool.B x]))
        as (l1 & l2 & Hl & Hp & Hfull & Hmin); [lia|].
      exists (x :: l1), l2. rewrite Hp, Hl. cbn [app map sum_len].
      rewrite <- app_assoc.
      split; [reflexivity|]. split; [reflexivity|]. split.
      * destruct Hfull as [Hfull|Hfull]; [left; exact Hfull|right; lia].
      * destruct l1 as [|y l1']; cbn [removelast sum_len] in *; [lia|].
        cbn [sum_len]. lia.
Qed.

(** [PeekBytesList(n)] leaves the chain and the counters as they are and
    keeps the slices it returns in [bs].  The slices are the chunks, whole,
    of a prefix of the chain: the shortest one that holds [n] bytes, or the
    whole chain when it holds fewer ([n <= 0] stands for [math.MaxInt32]). *)
Theorem PeekBytesList_shortest_prefix (n : Z) (llb : linkedlist.Buffer) :
  let maxBytes := if n <=? 0 then MaxInt32 else n in
  let '(sl, llb1) := linkedlist.PeekBytesList n llb in
  linkedlist.nodes llb1 = linkedlist.nodes llb /\
  linkedlist.size llb1 = linkedlist.size llb /\
  linkedlist.bytes llb1 = linkedlist.bytes llb /\
  linkedlist.bs llb1 = sl /\
  exists l1 l2,
    linkedlist.nodes llb = l1 ++ l2 /\
    sl = map bbPool.B l1 /\
    (l2 = [] \/ maxBytes <= sum_len l1) /\
    sum_len (removelast l1) < maxBytes.
Proof.
  cbn zeta. unfold linkedlist.PeekBytesList.
  set (maxBytes := if n <=? 0 then MaxInt32 else n).
  assert (Hpos : 0 < maxBytes).
  { subst maxBytes. destruct (n <=? 0) eqn:E; [reflexivity|lia]. }
  cbn [linkedlist.nodes linkedlist.size linkedlist.bytes linkedlist.bs].
  repeat split.
  destruct (peek_nodes_shortest maxBytes (linkedlist.nodes llb) 0 [] Hpos)
    as (l1 & l2 & Hl & Hp & Hfull & Hmin).
  exists l1, l2. rewrite Hp. cbn [app].
  repeat split; [exact Hl|exact Hfull|lia].
Qed.

(** The linked chunk buffer is a queue with a push at either end: after
    [PushBytesFront(p)] a [Read] of [len(p)] bytes returns [p] and leaves the
    bytes the list held before; after [PushBytesBack(p)] a [Read] of all the
    bytes returns the bytes held before followed by [p] and leaves
    nothing. *)
Theorem push_then_Read (llb : linkedlist.Buffer) (pl : bbPool.Pool) (p : Bytes) :
  (forall q, len q = len p ->
     let '(llb1, pl1) := linkedlist.PushBytesFront p llb pl in
     let '(n, _, q1, llb2, _) := linkedlist.Read llb1 pl1 q in
     n = len p /\ q1 = p /\ list_bytes llb2 = list_bytes llb) /\
  (forall q, len q = len (list_bytes llb) + len p ->
     let '(llb1, pl1) := linkedlist.PushBytesBack p llb pl in
     let '(n, _, q1, llb2, _) := linkedlist.Read llb1 pl1 q in
     n = len q /\ q1 = list_bytes llb ++ p /\ list_bytes llb2 = []).
Proof.
  pose proof (len_nonneg p) as Hp0.
  pose proof (len_nonneg (list_bytes llb)) as Hl0.
  split; intros q Hq.
  - destruct (linkedlist.PushBytesFront p llb pl) as [llb1 pl1] eqn:EP.
    apply PushBytesFront_bytes in EP.
    destruct (linkedlist.Read llb1 pl1 q) as [[[[n err] q1] llb2] pl2] eqn:ER.
    apply Read_spec in ER. cbn zeta in ER. rewrite EP, len_app, Hq in ER.
    rewrite Z.min_l in ER by lia. destruct ER as (Hn & Hq1 & Hl).
    split; [exact Hn|]. split.
    + rewrite Hq1, slice_to_app_le, slice_to_all, slice_from_all by lia.
      apply app_nil_r.
    + rewrite Hl, slice_from_app_ge by lia. apply slice_from_0. lia.
  - destruct (linkedlist.PushBytesBack p llb pl) as [llb1 pl1] eqn:EP.
    apply PushBytesBack_bytes in EP.
    destruct (linkedlist.Read llb1 pl1 q) as [[[[n err] q1] llb2] pl2] eqn:ER.
    apply Read_spec in ER. cbn zeta in ER. rewrite EP, len_app, Hq in ER.
    rewrite Z.min_l in ER by lia. destruct ER as (Hn & Hq1 & Hl).
    split; [lia|]. split.
    + rewrite Hq1, slice_to_all, slice_from_all by (try rewrite len_app; lia).
      apply app_nil_r.
    + rewrite Hl. apply slice_from_all. rewrite len_app. lia.
Qed.

Lemma linkedlist_WriteTo_nil_is_drained_witness :
  let '(res, llb1, _, _) :=
    linkedlist.WriteTo two_chunks [] (mkPipe 10 []) in
  res = Returned (7, None) /\
  linkedlist.nodes llb1 = [] /\ 7 = len (list_bytes two_chunks) /\
  (bytes_inv two_chunks ->
   7 = linkedlist.Buffered two_chunks /\ linkedlist.Buffered llb1 = 0).
Proof.
  generalize (linkedlist_WriteTo_nil_is_drained two_chunks [] (mkPipe 10 [])).
  vm_compute. intros H. split; [reflexivity|]. exact (H 7%Z eq_refl).
Defined.

Lemma linkedlist_WriteTo_count_bound_witness :
  let '(res, llb1, _, _) :=
    linkedlist.WriteTo two_chunks [] (mkPipe 3 []) in
  res = Returned (5, Some ErrShortWrite) /\
  len (list_bytes llb1) + 5 <= len (list_bytes two_chunks).
Proof.
  generalize (linkedlist_WriteTo_count_bound two_chunks [] (mkPipe 3 [])).
  vm_compute. intros H. split; [reflexivity|].
  exact (H 5%Z (Some ErrShortWrite) eq_refl).
Defined.

Lemma linkedlist_ReadFrom_account_witness :
  let '(e, llb1, pl1, _) :=
    linkedlist.ReadFrom 5 one_chunk [] ([xy; abcde] : Script) in
  e = Done 7 None /\
  (exists added, list_bytes llb1 = list_bytes one_chunk ++ added) /\
  None <> Some EOF /\
  exists last rest,
    pl1 = last :: rest /\
    len (list_bytes llb1) + bbPool.Len last
    = len (list_bytes one_chunk) + 7.
Proof.
  generalize (linkedlist_ReadFrom_account 5 one_chunk []
                ([xy; abcde] : Script)).
  vm_compute. intros [H1 H2]. split; [reflexivity|].
  split; [exact H1|]. exact (H2 7%Z None eq_refl).
Defined.

Lemma push_then_Read_witness :
  (len xy = len xy /\
   let '(llb1, pl1) := linkedlist.PushBytesFront xy two_chunks [] in
   let '(n, _, q1, llb2, _) := linkedlist.Read llb1 pl1 xy in
   n = len xy /\ q1 = xy /\ list_bytes llb2 = list_bytes two_chunks) /\
  (len (repeat Byte.x00 9) = len (list_bytes two_chunks) + len xy /\
   let '(llb1, pl1) := linkedlist.PushBytesBack xy two_chunks [] in
   let '(n, _, q1, llb2, _) := linkedlist.Read llb1 pl1 (repeat Byte.x00 9) in
   n = len (repeat Byte.x00 9) /\ q1 = list_bytes two_chunks ++ xy /\
   list_bytes llb2 = []).
Proof.
  destruct (push_then_Read two_chunks [] xy) as [H1 H2].
  split.
  - split; [reflexivity|]. exact (H1 xy eq_refl).
  - split; [reflexivity|]. exact (H2 (repeat Byte.x00 9) eq_refl).
Defined.

(** ** Chunks that hold no byte *)

Lemma advance_nonempty (m : Z) (b : bbPool.ByteBuffer) :
  m < bbPool.Len b -> 0 < bbPool.Len b ->
  0 < bbPool.Len (linkedlist.advance m b).
Proof.
  unfold linkedlist.advance, bbPool.Len. cbn [bbPool.B].
  intros Hm Hb. rewrite len_slice_from. lia.
Qed.

Lemma Pop_chunks (llb llb1 : linkedlist.Buffer) b :
  chunks_nonempty (linkedlist.nodes llb) ->
  linkedlist.Pop llb = (Some b, llb1) ->
  0 < bbPool.Len b /\ chunks_nonempty (linkedlist.nodes llb1).
Proof.
  unfold linkedlist.Pop, chunks_nonempty.
  destruct (linkedlist.nodes llb) as [|x rest]; [discriminate|].
  intros Hc Heq. injection Heq as <- <-. inversion Hc; subst. split; assumption.
Qed.

Lemma Pop_none (llb llb1 : linkedlist.Buffer) :
  linkedlist.Pop llb = (None, llb1) -> llb1 = llb.
Proof.
  unfold linkedlist.Pop. destruct (linkedlist.nodes llb); [|discriminate].
  intros Heq. injection Heq as <-. reflexivity.
Qed.

Lemma Read_loop_nonempty (fuel : nat) : forall llb pl p n n1 p1 llb1 pl1,
  chunks_nonempty (linkedlist.nodes llb) ->
  linkedlist.Read_loop fuel llb pl p n = (n1, p1, llb1, pl1) ->
  chunks_nonempty (linkedlist.nodes llb1).
Proof.
  induction fuel as [|fuel IH]; intros llb pl p n n1 p1 llb1 pl1 Hc;
    cbn [linkedlist.Read_loop].
  - intros Heq; injection Heq as _ _ <- _. exact Hc.
  - destruct (linkedlist.Pop llb) as [[b|] llb0] eqn:EP.
    + destruct (Pop_chunks _ _ _ Hc EP) as (Hb & Hc0).
      unfold copy.
      set (m := Z.min (len (slice_from n p)) (len (bbPool.B b))).
      assert (Hm : 0 <= m).
      { unfold m. pose proof (len_nonneg (slice_from n p)).
        pose proof (len_nonneg (bbPool.B b)). lia. }
      assert (Hc2 : chunks_nonempty (linkedlist.nodes
        (fst (if m <? bbPool.Len b
              then (linkedlist.push_front (linkedlist.advance m b) llb0, pl)
              else (llb0, bbPool.Put b pl))))).
      { destruct (m <? bbPool.Len b) eqn:E; cbn [fst]; [|exact Hc0].
        cbn [linkedlist.push_front linkedlist.nodes].
        constructor; [apply advance_nonempty; lia|exact Hc0]. }
      destruct (if m <? bbPool.Len b then _ else _) as [llb2 pl2].
      cbn [fst] in Hc2.
      destruct (n + m =? len p).
      * intros Heq; injection Heq as _ _ <- _. exact Hc2.
      * intros Heq. exact (IH _ _ _ _ _ _ _ _ Hc2 Heq).
    + apply Pop_none in EP. subst llb0.
      intros Heq; injection Heq as _ _ <- _. exact Hc.
Qed.

Lemma Discard_loop_nonempty (fuel : nat) : forall llb pl n d d1 llb1 pl1,
  chunks_nonempty (linkedlist.nodes llb) ->
  linkedlist.Discard_loop fuel llb pl n d = (d1, llb1, pl1) ->
  chunks_nonempty (linkedlist.nodes llb1).
Proof.
  induction fuel as [|fuel IH]; intros llb pl n d d1 llb1 pl1 Hc;
    cbn [linkedlist.Discard_loop].
  - intros Heq; injection Heq as _ <- _. exact Hc.
  - destruct (n =? 0).
    + intros Heq; injection Heq as _ <- _. exact Hc.
    + destruct (linkedlist.Pop llb) as [[b|] llb0] eqn:EP.
      * destruct (Pop_chunks _ _ _ Hc EP) as (Hb & Hc0).
        destruct (n <? bbPool.Len b) eqn:E.
        -- intros Heq; injection Heq as _ <- _.
           cbn [linkedlist.push_front linkedlist.nodes].
           constructor; [apply advance_nonempty; lia|exact Hc0].
        -- intros Heq. exact (IH _ _ _ _ _ _ _ Hc0 Heq).
      * apply Pop_none in EP. subst llb0.
        intros Heq; injection Heq as _ <- _. exact Hc.
Qed.

Lemma WriteTo_loop_nonempty {W : Type} `{Writer W} (fuel : nat) :
  forall llb pl (w : W) n res llb1 pl1 w1,
  chunks_nonempty (linkedlist.nodes llb) ->
  linkedlist.WriteTo_loop fuel llb pl w n = (res, llb1, pl1, w1) ->
  chunks_nonempty (linkedlist.nodes llb1).
Proof.
  induction fuel as [|fuel IH]; intros llb pl w n res llb1 pl1 w1 Hc;
    cbn [linkedlist.WriteTo_loop].
  - intros Heq; injection Heq as _ <- _ _. exact Hc.
  - destruct (linkedlist.Pop llb) as [[b|] llb0] eqn:EP.
    + destruct (Pop_chunks _ _ _ Hc EP) as (Hb & Hc0).
      destruct (io_Write w (bbPool.B b)) as [[m err] w2].
      destruct (m >? bbPool.Len b).
      { intros Heq; injection Heq as _ <- _ _. exact Hc0. }
      destruct (negb (is_nil err)).
      { intros Heq; injection Heq as _ <- _ _. exact Hc0. }
      destruct (m <? bbPool.Len b) eqn:E.
      * destruct (m <? 0) eqn:E0.
        { intros Heq; injection Heq as _ <- _ _. exact Hc0. }
        intros Heq; injection Heq as _ <- _ _.
        cbn [linkedlist.push_front linkedlist.nodes].
        constructor; [apply advance_nonempty; lia|exact Hc0].
      * intros Heq. exact (IH _ _ _ _ _ _ _ _ Hc0 Heq).
    + apply Pop_none in EP. subst llb0.
      intros Heq; injection Heq as _ <- _ _. exact Hc.
Qed.

Lemma Get_Write_Len (pl pl1 : bbPool.Pool) bb (p : Bytes) :
  bbPool.Get pl = (bb, pl1) -> bbPool.Len (bbPool.Write bb p) = len p.
Proof.
  intros EG. apply bbPool_Get_empty in EG.
  unfold bbPool.Len, bbPool.Write. cbn [bbPool.B]. rewrite EG. reflexivity.
Qed.

Lemma PushBytesBack_nonempty (p : Bytes) (llb llb1 : linkedlist.Buffer) pl pl1 :
  chunks_nonempty (linkedlist.nodes llb) ->
  linkedlist.PushBytesBack p llb pl = (llb1, pl1) ->
  chunks_nonempty (linkedlist.nodes llb1).
Proof.
  unfold linkedlist.PushBytesBack. intros Hc.
  destruct (len p =? 0) eqn:E.
  - intros Heq; injection Heq as <- _. exact Hc.
  - destruct (bbPool.Get pl) as [bb pl0] eqn:EG.
    intros Heq; injection Heq as <- _.
    cbn [linkedlist.push_back linkedlist.nodes].
    apply Forall_app. split; [exact Hc|].
    constructor; [|constructor].
    rewrite (Get_Write_Len _ _ _ p EG). pose proof (len_nonneg p). lia.
Qed.

Lemma PushBytesFront_nonempty (p : Bytes) (llb llb1 : linkedlist.Buffer) pl pl1 :
  chunks_nonempty (linkedlist.nodes llb) ->
  linkedlist.PushBytesFront p llb pl = (llb1, pl1) ->
  chunks_nonempty (linkedlist.nodes llb1).
Proof.
  unfold linkedlist.PushBytesFront. intros Hc.
  destruct (len p =? 0) eqn:E.
  - intros Heq; injection Heq as <- _. exact Hc.
  - destruct (bbPool.Get pl) as [bb pl0] eqn:EG.
    intros Heq; injection Heq as <- _.
    cbn [linkedlist.push_front linkedlist.nodes].
    constructor; [|exact Hc].
    rewrite (Get_Write_Len _ _ _ p EG). pose proof (len_nonneg p). lia.
Qed.

Lemma chain_bytes_nil_iff (l : list bbPool.ByteBuffer) :
  chunks_nonempty l -> (chain_bytes l = [] <-> l = []).
Proof.
  intros Hc. split; [|intros ->; reflexivity].
  destruct l as [|b rest]; [reflexivity|].
  inversion Hc as [|? ? Hb _]; subst.
  rewrite chain_bytes_cons. intros Heq.
  apply app_eq_nil in Heq. destruct Heq as [HB _].
  unfold bbPool.Len in Hb. rewrite HB in Hb. cbn in Hb. lia.
Qed.

(** No chunk of the list is empty, as long as the list is filled by
    [PushBytesFront] and [PushBytesBack] and emptied by [Read], [Discard],
    [WriteTo] and [Reset]: each of them keeps every linked chunk at one byte
    or more.  Then [IsEmpty] says whether there are bytes: it is true exactly
    when the list holds no byte.  [ReadFrom] does not keep to this: a [Read]
    of the reader that returns no byte and a nil error links an empty chunk,
    and [IsEmpty] is false for a list without bytes. *)
Theorem linkedlist_no_empty_chunk (llb : linkedlist.Buffer)
  (pl : bbPool.Pool) :
  chunks_nonempty (linkedlist.nodes llb) ->
  (linkedlist.IsEmpty llb = true <-> list_bytes llb = []) /\
  (forall p, chunks_nonempty
     (linkedlist.nodes (fst (linkedlist.PushBytesFront p llb pl)))) /\
  (forall p, chunks_nonempty
     (linkedlist.nodes (fst (linkedlist.PushBytesBack p llb pl)))) /\
  (forall p, let '(_, _, _, llb1, _) := linkedlist.Read llb pl p in
     chunks_nonempty (linkedlist.nodes llb1)) /\
  (forall n, let '(_, _, llb1, _) := linkedlist.Discard llb pl n in
     chunks_nonempty (linkedlist.nodes llb1)) /\
  (forall (W : Type) (wr : Writer W) (w : W),
     let '(_, llb1, _, _) := linkedlist.WriteTo llb pl w in
     chunks_nonempty (linkedlist.nodes llb1)) /\
  chunks_nonempty (linkedlist.nodes (fst (linkedlist.Reset llb pl))).
Proof.
  intros Hc. repeat split.
  - unfold linkedlist.IsEmpty, list_bytes. intros He.
    destruct (linkedlist.nodes llb); [reflexivity|discriminate].
  - unfold linkedlist.IsEmpty, list_bytes. intros Hb.
    apply (chain_bytes_nil_iff _ Hc) in Hb. rewrite Hb. reflexivity.
  - intros p. destruct (linkedlist.PushBytesFront p llb pl) as [l1 pl1] eqn:E.
    exact (PushBytesFront_nonempty _ _ _ _ _ Hc E).
  - intros p. destruct (linkedlist.PushBytesBack p llb pl) as [l1 pl1] eqn:E.
    exact (PushBytesBack_nonempty _ _ _ _ _ Hc E).
  - intros p. unfold linkedlist.Read.
    destruct (len p =? 0); [exact Hc|].
    destruct (linkedlist.Read_loop _ llb pl p 0) as [[[n1 p1] l1] pl1] eqn:E.
    exact (Read_loop_nonempty _ _ _ _ _ _ _ _ _ Hc E).
  - intros n. unfold linkedlist.Discard.
    destruct (n <=? 0); [exact Hc|].
    destruct (linkedlist.Discard_loop _ llb pl n 0) as [[d1 l1] pl1] eqn:E.
    exact (Discard_loop_nonempty _ _ _ _ _ _ _ _ Hc E).
  - intros W wr w. unfold linkedlist.WriteTo.
    destruct (linkedlist.WriteTo_loop _ llb pl w 0) as [[[res l1] pl1] w1] eqn:E.
    exact (WriteTo_loop_nonempty _ _ _ _ _ _ _ _ _ Hc E).
  - unfold linkedlist.Reset.
    destruct (linkedlist.Reset_loop _ llb pl) as [l1 pl1]. constructor.
Qed.

Lemma linkedlist_no_empty_chunk_witness :
  chunks_nonempty (linkedlist.nodes two_chunks) /\
  (linkedlist.IsEmpty two_chunks = true <-> list_bytes two_chunks = []) /\
  (forall p, chunks_nonempty
     (linkedlist.nodes (fst (linkedlist.PushBytesFront p two_chunks [])))) /\
  (forall p, chunks_nonempty
     (linkedlist.nodes (fst (linkedlist.PushBytesBack p two_chunks [])))) /\
  (forall p, let '(_, _, _, llb1, _) := linkedlist.Read two_chunks [] p in
     chunks_nonempty (linkedlist.nodes llb1)) /\
  (forall n, let '(_, _, llb1, _) := linkedlist.Discard two_chunks [] n in
     chunks_nonempty (linkedlist.nodes llb1)) /\
  (forall (W : Type) (wr : Writer W) (w : W),
     let '(_, llb1, _, _) := linkedlist.WriteTo two_chunks [] w in
     chunks_nonempty (linkedlist.nodes llb1)) /\
  chunks_nonempty (linkedlist.nodes (fst (linkedlist.Reset two_chunks []))).
Proof.
  assert (Hc : chunks_nonempty (linkedlist.nodes two_chunks)).
  { repeat constructor. }
  split; [exact Hc|].
  exact (linkedlist_no_empty_chunk two_chunks [] Hc).
Defined.

(** [ReadFrom] with a reader whose first [Read] returns no byte and a nil
    error, and whose second [Read] returns [io.EOF]: the list is left with
    one chunk and no byte. *)
Example ReadFrom_links_an_empty_chunk :
  let '(e, llb1, _, _) :=
    linkedlist.ReadFrom 2 linkedlist.empty [] ([[]] : Script) in
  e = Done 0 None /\ linkedlist.Len llb1 = 1 /\
  linkedlist.IsEmpty llb1 = false /\ list_bytes llb1 = [] /\
  linkedlist.Buffered llb1 = 0.
Proof. cbv. repeat split. Qed.

(** ** More on the elastic buffer *)

Section ElasticMore.
Context {R : Type} {ops : RingBuffer R} {view : RingView R}
  {laws : RingLaws R}.

(** [Read(p)] on the elastic buffer moves the oldest
    [min(len(p), bytes held)] bytes, the ring's before the list's, into the
    start of [p] and leaves the younger bytes in the buffer; on a buffer
    whose list keeps its byte count the count is [min(len(p), Buffered())]
    and [Buffered()] falls by it. *)
Theorem elastic_Read_result (mb : elastic.Buffer R) (ps : elastic.Pools R)
  (p : Bytes) :
  let '(n, _, p1, mb1, _) := elastic.Read mb ps p in
  n = Z.min (len p) (len (elastic_bytes mb)) /\
  p1 = slice_to n (elastic_bytes mb) ++ slice_from n p /\
  elastic_bytes mb1 = slice_from n (elastic_bytes mb) /\
  (bytes_inv (elastic.listBuffer mb) ->
   n = Z.min (len p) (elastic.Buffered mb) /\
   elastic.Buffered mb1 = elastic.Buffered mb - n).
Proof.
  destruct (elastic.Read mb ps p) as [[[[n err] p1] mb1] ps1] eqn:ER.
  pose proof (elastic_Read_spec _ _ _ _ _ _ _ _ ER) as Hs. cbn zeta in Hs.
  destruct Hs as (Hn & Hp & Hb). rewrite <- Hn in Hp, Hb.
  split; [exact Hn|]. split; [exact Hp|]. split; [exact Hb|].
  intros Hinv.
  pose proof (elastic_Read_inv _ _ _ _ _ _ _ _ Hinv ER) as Hinv1.
  rewrite (Buffered_spec mb1 Hinv1), (Buffered_spec mb Hinv), Hb.
  rewrite len_slice_from. split; [exact Hn|].
  pose proof (len_nonneg p). pose proof (len_nonneg (elastic_bytes mb)). lia.
Qed.

(** [Discard(n)] with [0 < n] on the elastic buffer drops the oldest
    [min(n, bytes held)] bytes and returns that count, also for [n] beyond
    what is held; it leaves no empty ring in the buffer, and once everything
    is dropped the ring is nil; on a buffer whose list keeps its byte count
    [Buffered()] falls by the count. *)
Theorem elastic_Discard_result (mb : elastic.Buffer R) (ps : elastic.Pools R)
  (n : Z) :
  0 < n ->
  let '(d, _, mb1, _) := elastic.Discard mb ps n in
  d = Z.min n (len (elastic_bytes mb)) /\
  elastic_bytes mb1 = slice_from n (elastic_bytes mb) /\
  (forall r1, elastic.ringBuffer mb1 = Some r1 -> ring_IsEmpty r1 = false) /\
  (len (elastic_bytes mb) <= n -> elastic.ringBuffer mb1 = None) /\
  (bytes_inv (elastic.listBuffer mb) ->
   elastic.Buffered mb1 = elastic.Buffered mb - d).
Proof.
  intros Hn.
  destruct (elastic.Discard mb ps n) as [[[d err] mb1] ps1] eqn:ED.
  pose proof (elastic_Discard_spec _ _ _ _ _ _ _ Hn ED) as (Hd & Hb).
  assert (Hring : forall r1, elastic.ringBuffer mb1 = Some r1 ->
                  ring_IsEmpty r1 = false /\ n < len (elastic_bytes mb)).
  { revert ED. unfold elastic.Discard. rewrite (elastic_bytes_unfold mb).
    destruct (elastic.ringBuffer mb) as [r|].
    - destruct (ring_Discard r n) as [[d0 err0] r0] eqn:ERD.
      apply ring_Discard_spec in ERD; [|exact Hn]. destruct ERD as (_ & Hr0).
      rewrite ring_Buffered_spec, len_app.
      pose proof (len_nonneg (list_bytes (elastic.listBuffer mb))).
      destruct (n <=? len (ring_bytes r)) eqn:E1.
      + destruct (n =? len (ring_bytes r)) eqn:E2;
          intros Heq; injection Heq as _ _ <- _; intros r1 Hr1;
          [discriminate|]. injection Hr1 as <-.
        rewrite ring_IsEmpty_spec, Hr0, len_slice_from. split; lia.
      + destruct (linkedlist.Discard _ _ _) as [[[m err2] l1] bb1].
        intros Heq; injection Heq as _ _ <- _. intros r1 Hr1. discriminate.
    - destruct (linkedlist.Discard _ _ _) as [[[m err2] l1] bb1].
      intros Heq; injection Heq as _ _ <- _. intros r1 Hr1. discriminate. }
  split; [exact Hd|]. split; [exact Hb|]. split; [|split].
  - intros r1 Hr1. apply (Hring r1 Hr1).
  - intros Hall. destruct (elastic.ringBuffer mb1) as [r1|] eqn:E; [|reflexivity].
    destruct (Hring r1 eq_refl) as (_ & Hlt). lia.
  - intros Hinv.
    pose proof (elastic_Discard_inv _ _ _ _ _ _ _ Hinv ED) as Hinv1.
    rewrite (Buffered_spec mb1 Hinv1), (Buffered_spec mb Hinv), Hb.
    rewrite len_slice_from. pose proof (len_nonneg (elastic_bytes mb)). lia.
Qed.

(** The elastic buffer is a FIFO across the ring and the list: after
    [Write(p)], or after [Writev(bs)], a [Read] returns the oldest bytes of
    what the buffer held followed by [p], or by the slices of [bs] in their
    order. *)
Theorem write_then_Read (mb : elastic.Buffer R) (ps : elastic.Pools R)
  (q : Bytes) :
  (forall p,
     let '(_, _, mb1, ps1) := elastic.Write mb ps p in
     let '(n, _, q1, _, _) := elastic.Read mb1 ps1 q in
     n = Z.min (len q) (len (elastic_bytes mb) + len p) /\
     q1 = slice_to n (elastic_bytes mb ++ p) ++ slice_from n q) /\
  (forall bs,
     let '(_, _, mb1, ps1) := elastic.Writev mb ps bs in
     let '(n, _, q1, _, _) := elastic.Read mb1 ps1 q in
     n = Z.min (len q) (len (elastic_bytes mb) + total_len bs) /\
     q1 = slice_to n (elastic_bytes mb ++ concat bs) ++ slice_from n q).
Proof.
  split.
  - intros p.
    destruct (elastic.Write mb ps p) as [[[k err] mb1] ps1] eqn:EW.
    apply Write_bytes in EW. destruct EW as (_ & _ & Hb & _).
    destruct (elastic.Read mb1 ps1 q) as [[[[n err2] q1] mb2] ps2] eqn:ER.
    apply elastic_Read_spec in ER. cbn zeta in ER.
    rewrite Hb, len_app in ER. destruct ER as (Hn & Hq & _).
    rewrite <- Hn in Hq. split; assumption.
  - intros bs.
    destruct (elastic.Writev mb ps bs) as [[[k err] mb1] ps1] eqn:EW.
    apply Writev_bytes in EW. destruct EW as (Hb & _).
    destruct (elastic.Read mb1 ps1 q) as [[[[n err2] q1] mb2] ps2] eqn:ER.
    apply elastic_Read_spec in ER. cbn zeta in ER.
    rewrite Hb, len_app, <- total_len_concat in ER. destruct ER as (Hn & Hq & _).
    rewrite <- Hn in Hq. split; assumption.
Qed.

(** Round trip: on the buffer [New] returns, [Write(p)] and then a [Read]
    into [len(p)] bytes gives [p] back and leaves the buffer with nothing in
    it and its ring released. *)
Theorem New_Write_Read_round_trip (w : Z) (ps : elastic.Pools R) (p q : Bytes) :
  0 < w -> len q = len p ->
  match elastic.New w ps with
  | (Some mb, err, ps0) =>
      err = None /\
      elastic_bytes mb = [] /\
      let '(k, _, mb1, ps1) := elastic.Write mb ps0 p in
      let '(n, _, q1, mb2, _) := elastic.Read mb1 ps1 q in
      k = len p /\ n = len p /\ q1 = p /\
      elastic_bytes mb2 = [] /\ elastic.ringBuffer mb2 = None /\
      elastic.Buffered mb2 = 0
  | (None, _, _) => False
  end.
Proof.
  intros Hw Hq. unfold elastic.New. replace (w <=? 0) with false by lia.
  destruct (rbPool.Get (elastic.rings ps)) as [r rb1] eqn:EG.
  apply rbPool_Get_empty in EG.
  split; [reflexivity|].
  assert (Hnew : elastic_bytes (elastic.mkBuffer w (Some r) linkedlist.empty) = [])
    by (rewrite elastic_bytes_mk, EG; reflexivity).
  split; [exact Hnew|].
  destruct (elastic.Write _ _ p) as [[[k err] mb1] ps1] eqn:EW.
  pose proof (Write_bytes _ _ _ _ _ _ _ EW) as (Hk & _ & Hb & Hinv).
  rewrite Hnew in Hb. cbn [app] in Hb.
  specialize (Hinv eq_refl).
  destruct (elastic.Read mb1 ps1 q) as [[[[n err2] q1] mb2] ps2] eqn:ER.
  pose proof (elastic_Read_inv _ _ _ _ _ _ _ _ Hinv ER) as Hinv2.
  pose proof (elastic_Read_spec _ _ _ _ _ _ _ _ ER) as Hs. cbn zeta in Hs.
  rewrite Hb, Hq, Z.min_id in Hs. destruct Hs as (Hn & Hq1 & Hb2).
  rewrite slice_to_all, slice_from_all in Hq1 by lia. rewrite app_nil_r in Hq1.
  rewrite slice_from_all in Hb2 by lia.
  split; [exact Hk|]. split; [exact Hn|]. split; [exact Hq1|].
  split; [exact Hb2|]. split.
  - pose proof (elastic_bytes_unfold mb2) as Hu. rewrite Hb2 in Hu.
    destruct (elastic.ringBuffer mb2) as [r2|] eqn:E2; [|reflexivity].
    exfalso. revert ER E2. unfold elastic.Read.
    destruct (elastic.ringBuffer mb1) as [r1|].
    + destruct (ring_Read r1 q) as [[[n0 err0] p0] r0].
      unfold elastic.release_if_empty. rewrite ring_IsEmpty_spec.
      destruct (len (ring_bytes r0) =? 0) eqn:E0.
      * destruct (n0 =? len q);
          [|destruct (linkedlist.Read _ _ _) as [[[[? ?] ?] ?] ?]];
          intros Heq; injection Heq as _ _ _ <- _; discriminate.
      * destruct (n0 =? len q);
          [|destruct (linkedlist.Read _ _ _) as [[[[? ?] ?] ?] ?]];
          intros Heq; injection Heq as _ _ _ <- _; cbn [elastic.ringBuffer];
          intros Heq; injection Heq as <-;
          symmetry in Hu; apply app_eq_nil in Hu; destruct Hu as (Hu & _);
          rewrite Hu in E0; discriminate.
    + destruct (linkedlist.Read _ _ _) as [[[[? ?] ?] ?] ?].
      intros Heq; injection Heq as _ _ _ <- _. discriminate.
  - rewrite (Buffered_spec mb2 Hinv2), Hb2. reflexivity.
Qed.

End ElasticMore.

Lemma elastic_Read_result_witness :
  let '(n, _, p1, mb1, _) :=
    elastic.Read ring_and_list no_pools (repeat Byte.x00 3) in
  n = Z.min (len (repeat Byte.x00 3)) (len (elastic_bytes ring_and_list)) /\
  p1 = slice_to n (elastic_bytes ring_and_list)
       ++ slice_from n (repeat Byte.x00 3) /\
  elastic_bytes mb1 = slice_from n (elastic_bytes ring_and_list) /\
  (bytes_inv (elastic.listBuffer ring_and_list) ->
   n = Z.min (len (repeat Byte.x00 3)) (elastic.Buffered ring_and_list) /\
   elastic.Buffered mb1 = elastic.Buffered ring_and_list - n).
Proof.
  exact (elastic_Read_result (laws := ring_model_laws) ring_and_list no_pools
           (repeat Byte.x00 3)).
Defined.

Lemma elastic_Discard_result_witness :
  0 < 9 /\
  let '(d, _, mb1, _) := elastic.Discard ring_and_list no_pools 9 in
  d = Z.min 9 (len (elastic_bytes ring_and_list)) /\
  elastic_bytes mb1 = slice_from 9 (elastic_bytes ring_and_list) /\
  (forall r1, elastic.ringBuffer mb1 = Some r1 -> ring_IsEmpty r1 = false) /\
  (len (elastic_bytes ring_and_list) <= 9 -> elastic.ringBuffer mb1 = None) /\
  (bytes_inv (elastic.listBuffer ring_and_list) ->
   elastic.Buffered mb1 = elastic.Buffered ring_and_list - d).
Proof.
  split; [reflexivity|].
  apply (elastic_Discard_result (laws := ring_model_laws) ring_and_list
           no_pools 9).
  reflexivity.
Defined.

Lemma write_then_Read_witness :
  (forall p,
     let '(_, _, mb1, ps1) := elastic.Write ring_and_list no_pools p in
     let '(n, _, q1, _, _) := elastic.Read mb1 ps1 (repeat Byte.x00 9) in
     n = Z.min (len (repeat Byte.x00 9))
           (len (elastic_bytes ring_and_list) + len p) /\
     q1 = slice_to n (elastic_bytes ring_and_list ++ p)
          ++ slice_from n (repeat Byte.x00 9)) /\
  (forall bs,
     let '(_, _, mb1, ps1) := elastic.Writev ring_and_list no_pools bs in
     let '(n, _, q1, _, _) := elastic.Read mb1 ps1 (repeat Byte.x00 9) in
     n = Z.min (len (repeat Byte.x00 9))
           (len (elastic_bytes ring_and_list) + total_len bs) /\
     q1 = slice_to n (elastic_bytes ring_and_list ++ concat bs)
          ++ slice_from n (repeat Byte.x00 9)).
Proof.
  exact (write_then_Read (laws := ring_model_laws) ring_and_list no_pools
           (repeat Byte.x00 9)).
Defined.

Lemma New_Write_Read_round_trip_witness :
  0 < 4 /\ len (repeat Byte.x00 6) = len abcdef /\
  match elastic.New 4 no_pools with
  | (Some mb, err, ps0) =>
      err = None /\
      elastic_bytes mb = [] /\
      let '(k, _, mb1, ps1) := elastic.Write mb ps0 abcdef in
      let '(n, _, q1, mb2, _) := elastic.Read mb1 ps1 (repeat Byte.x00 6) in
      k = len abcdef /\ n = len abcdef /\ q1 = abcdef /\
      elastic_bytes mb2 = [] /\ elastic.ringBuffer mb2 = None /\
      elastic.Buffered mb2 = 0
  | (None, _, _) => False
  end.
Proof.
  split; [reflexivity|]. split; [reflexivity|].
  apply (New_Write_Read_round_trip (laws := ring_model_laws) 4 no_pools abcdef
           (repeat Byte.x00 6)); reflexivity.
Defined.

Section ElasticWatermark.
Context {R : Type} {ops : RingBuffer R} {view : RingView R}
  {laws : RingLaws R}.

Lemma fill_ring_bound (bs : list Bytes) :
  forall (r : R) l bb writable cum r1 l1 bb1 cum1 rest,
  0 <= writable ->
  elastic.fill bs r l bb writable cum = (r1, l1, bb1, cum1, rest) ->
  len (ring_bytes r1) <= len (ring_bytes r) + writable.
Proof.
  induction bs as [|b bs' IH]; intros r l bb writable cum r1 l1 bb1 cum1 rest Hw;
    cbn [elastic.fill].
  - intros Heq; injection Heq as <- _ _ _ _. lia.
  - destruct (len b >? writable) eqn:E.
    + destruct (ring_Write r (slice_to writable b)) as [[n0 e0] r2] eqn:EW.
      apply ring_Write_spec in EW. destruct EW as (_ & _ & Hr2).
      destruct (linkedlist.PushBytesBack _ l bb) as [l2 bb2].
      intros Heq; injection Heq as <- _ _ _ _.
      rewrite Hr2, len_app, len_slice_to. lia.
    + destruct (ring_Write r b) as [[n0 e0] r2] eqn:EW.
      apply ring_Write_spec in EW. destruct EW as (Hn & _ & Hr2).
      intros Heq. apply IH in Heq; [|lia].
      rewrite Hr2, len_app in Heq. lia.
Qed.

(** How far the ring is written.  [Writev] leaves a ring shorter than the
    watermark [W] with at most [W] bytes, and [Write] and [Writev] leave a
    ring at least [W] long with at most the bytes it held and could still
    take: they never make such a ring grow.  ([Write] on a ring shorter than
    [W] writes all of [p], whatever its length.)  The ring is the one in the
    buffer after the first statement of the write, with an empty list and
    fewer than [W] bytes; otherwise the ring is not written at all. *)
Theorem ring_write_bounds (mb : elastic.Buffer R) (ps : elastic.Pools R) :
  let '(mb0, _) := elastic.acquire mb ps in
  let W := elastic.maxStaticBytes mb0 in
  (forall r,
     elastic.ringBuffer mb0 = Some r ->
     linkedlist.IsEmpty (elastic.listBuffer mb0) = true ->
     ring_Buffered r < W ->
     (forall bs,
        let '(_, _, mb1, _) := elastic.Writev mb ps bs in
        exists r1, elastic.ringBuffer mb1 = Some r1 /\
          ring_Buffered r1 <=
          (if ring_Len r <? W then W else ring_Buffered r + ring_Available r)) /\
     (forall p, ring_Len r >= W ->
        let '(_, _, mb1, _) := elastic.Write mb ps p in
        exists r1, elastic.ringBuffer mb1 = Some r1 /\
          ring_Buffered r1 <= ring_Buffered r + ring_Available r)) /\
  (linkedlist.IsEmpty (elastic.listBuffer mb0) = false \/
   (exists r, elastic.ringBuffer mb0 = Some r /\ ring_Buffered r >= W) ->
   (forall bs, let '(_, _, mb1, _) := elastic.Writev mb ps bs in
               elastic.ringBuffer mb1 = elastic.ringBuffer mb0) /\
   (forall p, let '(_, _, mb1, _) := elastic.Write mb ps p in
              elastic.ringBuffer mb1 = elastic.ringBuffer mb0)).
Proof.
  unfold elastic.Writev, elastic.Write.
  destruct (elastic.acquire mb ps) as [mb0 ps0] eqn:EA. cbn zeta.
  pose proof (acquire_ring _ _ _ _ EA) as Hnil.
  split.
  - intros r Hr Hempty Hlt.
    assert (ET : elastic.to_list mb0 = false).
    { unfold elastic.to_list. rewrite Hempty, Hr. cbn. lia. }
    rewrite ET, Hr.
    pose proof (ring_Available_spec r) as Ha.
    split.
    + intros bs.
      destruct (elastic.fill bs r _ _ _ 0) as [[[[r1 l1] bb1] cum] rest] eqn:EF.
      apply fill_ring_bound in EF;
        [|destruct (ring_Len r <? elastic.maxStaticBytes mb0); lia].
      destruct (elastic.push_all rest l1 bb1 cum) as [[n0 l2] bb2].
      exists r1. split; [reflexivity|].
      rewrite !ring_Buffered_spec in *.
      destruct (ring_Len r <? elastic.maxStaticBytes mb0); lia.
    + intros p Hlen.
      replace (ring_Len r >=? elastic.maxStaticBytes mb0) with true by lia.
      cbn [andb].
      destruct (len p >? ring_Available r) eqn:E.
      * destruct (ring_Write r (slice_to (ring_Available r) p))
          as [[n0 e0] r1] eqn:EW.
        apply ring_Write_spec in EW. destruct EW as (_ & _ & Hr1).
        destruct (linkedlist.PushBytesBack _ _ _) as [l1 bb1].
        exists r1. split; [reflexivity|].
        rewrite !ring_Buffered_spec, Hr1, len_app, len_slice_to. lia.
      * destruct (ring_Write r p) as [[n0 e0] r1] eqn:EW.
        apply ring_Write_spec in EW. destruct EW as (_ & _ & Hr1).
        exists r1. split; [reflexivity|].
        rewrite !ring_Buffered_spec, Hr1, len_app. lia.
  - intros Hcase.
    assert (ET : elastic.to_list mb0 = true).
    { unfold elastic.to_list.
      destruct Hcase as [He|(r & Hr & Hge)].
      - rewrite He. reflexivity.
      - rewrite Hr. replace (ring_Buffered r >=? _) with true by lia.
        apply orb_true_r. }
    rewrite ET. split.
    + intros bs. destruct (elastic.push_all bs _ _ 0) as [[n0 l1] bb1].
      reflexivity.
    + intros p. destruct (linkedlist.PushBytesBack p _ _) as [l1 bb1].
      reflexivity.
Qed.

(** Once the list holds a chunk, every write goes to the list: [Write] and
    [Writev] leave the ring and the ring pool as they are and append their
    bytes, in order, after the bytes of the list. *)
Theorem writes_follow_the_spill (mb : elastic.Buffer R) (ps : elastic.Pools R) :
  linkedlist.IsEmpty (elastic.listBuffer mb) = false ->
  (forall p,
     let '(_, _, mb1, ps1) := elastic.Write mb ps p in
     elastic.ringBuffer mb1 = elastic.ringBuffer mb /\
     elastic.rings ps1 = elastic.rings ps /\
     list_bytes (elastic.listBuffer mb1)
     = list_bytes (elastic.listBuffer mb) ++ p) /\
  (forall bs,
     let '(_, _, mb1, ps1) := elastic.Writev mb ps bs in
     elastic.ringBuffer mb1 = elastic.ringBuffer mb /\
     elastic.rings ps1 = elastic.rings ps /\
     list_bytes (elastic.listBuffer mb1)
     = list_bytes (elastic.listBuffer mb) ++ concat bs).
Proof.
  intros He.
  assert (EA : elastic.acquire mb ps = (mb, ps)).
  { unfold elastic.acquire. rewrite He, andb_false_r. reflexivity. }
  assert (ET : elastic.to_list mb = true).
  { unfold elastic.to_list. rewrite He. reflexivity. }
  split.
  - intros p. unfold elastic.Write. rewrite EA, ET.
    destruct (linkedlist.PushBytesBack p _ _) as [l1 bb1] eqn:EP.
    apply PushBytesBack_bytes in EP. repeat split. exact EP.
  - intros bs. unfold elastic.Writev. rewrite EA, ET.
    destruct (elastic.push_all bs _ _ 0) as [[n0 l1] bb1] eqn:EP.
    apply push_all_spec in EP. destruct EP as (_ & Hb & _).
    repeat split. exact Hb.
Qed.

(** [WriteTo] of the elastic buffer returns a nil error only when the whole
    buffer is written: the ring is then released, the list empty, and
    nothing is left in the buffer. *)
Theorem elastic_WriteTo_nil_is_drained (W : Type) (wr : Writer W)
  (mb : elastic.Buffer R) (ps : elastic.Pools R) (w : W) :
  let '(res, mb1, _, _) := elastic.WriteTo mb ps w in
  forall n, res = Returned (n, None) ->
  elastic.ringBuffer mb1 = None /\
  linkedlist.nodes (elastic.listBuffer mb1) = [] /\
  elastic_bytes mb1 = [].
Proof.
  unfold elastic.WriteTo.
  assert (Hlist : forall w0 res l1 bb1 w1 k,
    linkedlist.WriteTo (elastic.listBuffer mb) (elastic.chunks ps) w0
    = (res, l1, bb1, w1) ->
    res = Returned (k, None) -> linkedlist.nodes l1 = []).
  { intros w0 res l1 bb1 w1 k EL ->. unfold linkedlist.WriteTo in EL.
    apply WriteTo_loop_drained in EL; [apply EL|apply Nat.lt_succ_diag_r]. }
  assert (Hdone : forall l1 w0,
    linkedlist.nodes l1 = [] ->
    elastic.ringBuffer (elastic.mkBuffer (R := R) w0 None l1) = None /\
    linkedlist.nodes
      (elastic.listBuffer (elastic.mkBuffer (R := R) w0 None l1)) = [] /\
    elastic_bytes (elastic.mkBuffer (R := R) w0 None l1) = []).
  { intros l1 w0 Hn. rewrite elastic_bytes_mk. unfold list_bytes.
    cbn [elastic.ringBuffer elastic.listBuffer]. rewrite Hn. repeat split. }
  destruct (elastic.ringBuffer mb) as [r|].
  - destruct (ring_WriteTo W wr r w) as [[res0 r0] w0] eqn:ERW.
    destruct res0 as [[n0 [e|]]|]; cbn [is_nil negb].
    + destruct (elastic.release_if_empty r0 _) as [ring1 rb1].
      intros n Hres. discriminate Hres.
    + pose proof (ring_WriteTo_spec _ _ _ _ _ _ _ ERW) as Hempty.
      unfold elastic.release_if_empty. rewrite ring_IsEmpty_spec, Hempty.
      cbn [len length Z.of_nat Z.eqb].
      destruct (linkedlist.WriteTo _ _ w0) as [[[res2 l1] bb1] w2] eqn:ELW.
      destruct res2 as [[m err2]|]; [|intros n Hres; discriminate Hres].
      intros n Hres. injection Hres as _ ->.
      apply Hdone. eapply Hlist; eauto.
    + intros n Hres. discriminate Hres.
  - destruct (linkedlist.WriteTo _ _ w) as [[[res2 l1] bb1] w2] eqn:ELW.
    intros n Hres. apply Hdone. eapply Hlist; eauto.
Qed.

(** [Reset] and [Release] both empty the buffer and put every chunk of the
    list into the chunk pool.  [Reset(m)] keeps the ring, reset, in the
    buffer, leaves the ring pool alone and sets the watermark to [m] when
    [m > 0] only; [Release] puts the ring into the ring pool and keeps the
    watermark. *)
Theorem Reset_and_Release (mb : elastic.Buffer R) (ps : elastic.Pools R) :
  (forall m,
     let '(mb1, ps1) := elastic.Reset mb ps m in
     elastic_bytes mb1 = [] /\ elastic.Buffered mb1 = 0 /\
     elastic.IsEmpty mb1 = true /\
     elastic.maxStaticBytes mb1
     = (if m >? 0 then m else elastic.maxStaticBytes mb) /\
     (elastic.ringBuffer mb1 = None <-> elastic.ringBuffer mb = None) /\
     elastic.rings ps1 = elastic.rings ps /\
     elastic.chunks ps1
     = rev (linkedlist.nodes (elastic.listBuffer mb)) ++ elastic.chunks ps) /\
  (let '(mb1, ps1) := elastic.Release mb ps in
   mb1 = elastic.mkBuffer (elastic.maxStaticBytes mb) None linkedlist.empty /\
   elastic.Buffered mb1 = 0 /\ elastic.IsEmpty mb1 = true /\
   elastic.rings ps1
   = match elastic.ringBuffer mb with
     | Some r => r :: elastic.rings ps
     | None => elastic.rings ps
     end /\
   elastic.chunks ps1
   = rev (linkedlist.nodes (elastic.listBuffer mb)) ++ elastic.chunks ps).
Proof.
  assert (HR :
    linkedlist.Reset (elastic.listBuffer mb) (elastic.chunks ps)
    = (linkedlist.empty,
       rev (linkedlist.nodes (elastic.listBuffer mb)) ++ elastic.chunks ps)).
  { unfold linkedlist.Reset.
    destruct (linkedlist.Reset_loop _ _ _) as [l2 bb2] eqn:EL.
    apply Reset_loop_chunks in EL; [|lia]. rewrite EL. reflexivity. }
  split.
  - intros m. unfold elastic.Reset. rewrite HR.
    unfold elastic.Buffered, elastic.IsEmpty.
    rewrite elastic_bytes_mk.
    cbn [elastic.ringBuffer elastic.listBuffer elastic.maxStaticBytes
         elastic.rings elastic.chunks].
    destruct (elastic.ringBuffer mb) as [r|].
    + rewrite ring_Reset_spec, ring_Buffered_spec, ring_IsEmpty_spec,
        ring_Reset_spec.
      repeat split; try reflexivity; intros Hx; discriminate Hx.
    + repeat split; reflexivity.
  - unfold elastic.Release. rewrite HR.
    destruct (elastic.ringBuffer mb) as [r|]; repeat split.
Qed.

End ElasticWatermark.

Lemma ring_write_bounds_witness :
  let mb := fresh4 in
  let ps := no_pools in
  let '(mb0, _) := elastic.acquire mb ps in
  let W := elastic.maxStaticBytes mb0 in
  (forall r,
     elastic.ringBuffer mb0 = Some r ->
     linkedlist.IsEmpty (elastic.listBuffer mb0) = true ->
     ring_Buffered r < W ->
     (forall bs,
        let '(_, _, mb1, _) := elastic.Writev mb ps bs in
        exists r1, elastic.ringBuffer mb1 = Some r1 /\
          ring_Buffered r1 <=
          (if ring_Len r <? W then W else ring_Buffered r + ring_Available r)) /\
     (forall p, ring_Len r >= W ->
        let '(_, _, mb1, _) := elastic.Write mb ps p in
        exists r1, elastic.ringBuffer mb1 = Some r1 /\
          ring_Buffered r1 <= ring_Buffered r + ring_Available r)) /\
  (linkedlist.IsEmpty (elastic.listBuffer mb0) = false \/
   (exists r, elastic.ringBuffer mb0 = Some r /\ ring_Buffered r >= W) ->
   (forall bs, let '(_, _, mb1, _) := elastic.Writev mb ps bs in
               elastic.ringBuffer mb1 = elastic.ringBuffer mb0) /\
   (forall p, let '(_, _, mb1, _) := elastic.Write mb ps p in
              elastic.ringBuffer mb1 = elastic.ringBuffer mb0)).
Proof.
  exact (ring_write_bounds (laws := ring_model_laws) fresh4 no_pools).
Defined.

Lemma writes_follow_the_spill_witness :
  linkedlist.IsEmpty (elastic.listBuffer ring_and_list) = false /\
  (forall p,
     let '(_, _, mb1, ps1) := elastic.Write ring_and_list no_pools p in
     elastic.ringBuffer mb1 = elastic.ringBuffer ring_and_list /\
     elastic.rings ps1 = elastic.rings no_pools /\
     list_bytes (elastic.listBuffer mb1)
     = list_bytes (elastic.listBuffer ring_and_list) ++ p) /\
  (forall bs,
     let '(_, _, mb1, ps1) := elastic.Writev ring_and_list no_pools bs in
     elastic.ringBuffer mb1 = elastic.ringBuffer ring_and_list /\
     elastic.rings ps1 = elastic.rings no_pools /\
     list_bytes (elastic.listBuffer mb1)
     = list_bytes (elastic.listBuffer ring_and_list) ++ concat bs).
Proof.
  split; [reflexivity|].
  apply (writes_follow_the_spill ring_and_list no_pools).
  reflexivity.
Defined.

Lemma elastic_WriteTo_nil_is_drained_witness :
  let '(res, mb1, _, _) :=
    elastic.WriteTo ring_and_list no_pools (mkPipe 10 []) in
  res = Returned (7, None) /\
  elastic.ringBuffer mb1 = None /\
  linkedlist.nodes (elastic.listBuffer mb1) = [] /\
  elastic_bytes mb1 = [].
Proof.
  generalize (elastic_WriteTo_nil_is_drained (laws := ring_model_laws) Pipe _
                ring_and_list no_pools (mkPipe 10 [])).
  vm_compute. intros H. split; [reflexivity|]. exact (H 7%Z eq_refl).
Defined.

Lemma Reset_and_Release_witness :
  let mb := ring_and_list in
  let ps := no_pools in
  (forall m,
     let '(mb1, ps1) := elastic.Reset mb ps m in
     elastic_bytes mb1 = [] /\ elastic.Buffered mb1 = 0 /\
     elastic.IsEmpty mb1 = true /\
     elastic.maxStaticBytes mb1
     = (if m >? 0 then m else elastic.maxStaticBytes mb) /\
     (elastic.ringBuffer mb1 = None <-> elastic.ringBuffer mb = None) /\
     elastic.rings ps1 = elastic.rings ps /\
     elastic.chunks ps1
     = rev (linkedlist.nodes (elastic.listBuffer mb)) ++ elastic.chunks ps) /\
  (let '(mb1, ps1) := elastic.Release mb ps in
   mb1 = elastic.mkBuffer (elastic.maxStaticBytes mb) None linkedlist.empty /\
   elastic.Buffered mb1 = 0 /\ elastic.IsEmpty mb1 = true /\
   elastic.rings ps1
   = match elastic.ringBuffer mb with
     | Some r => r :: elastic.rings ps
     | None => elastic.rings ps
     end /\
   elastic.chunks ps1
   = rev (linkedlist.nodes (elastic.listBuffer mb)) ++ elastic.chunks ps).
Proof.
  exact (Reset_and_Release (laws := ring_model_laws) ring_and_list no_pools).
Defined.

Lemma push_all_nonempty (bs : list Bytes) : forall l bb n n1 l1 bb1,
  chunks_nonempty (linkedlist.nodes l) ->
  elastic.push_all bs l bb n = (n1, l1, bb1) ->
  chunks_nonempty (linkedlist.nodes l1).
Proof.
  induction bs as [|b bs' IH]; intros l bb n n1 l1 bb1 Hc;
    cbn [elastic.push_all].
  - intros Heq; injection Heq as _ <- _. exact Hc.
  - destruct (linkedlist.PushBytesBack b l bb) as [l2 bb2] eqn:EP.
    apply (PushBytesBack_nonempty _ _ _ _ _ Hc) in EP.
    intros Heq. exact (IH _ _ _ _ _ _ EP Heq).
Qed.

Lemma Reset_nodes (llb : linkedlist.Buffer) (pl : bbPool.Pool) :
  linkedlist.nodes (fst (linkedlist.Reset llb pl)) = [].
Proof.
  unfold linkedlist.Reset.
  destruct (linkedlist.Reset_loop _ llb pl) as [l1 pl1]. reflexivity.
Qed.

Section ElasticEmpty.
Context {R : Type} {ops : RingBuffer R} {view : RingView R}
  {laws : RingLaws R}.

Lemma fill_nonempty (bs : list Bytes) :
  forall (r : R) l bb writable cum r1 l1 bb1 cum1 rest,
  chunks_nonempty (linkedlist.nodes l) ->
  elastic.fill bs r l bb writable cum = (r1, l1, bb1, cum1, rest) ->
  chunks_nonempty (linkedlist.nodes l1).
Proof.
  induction bs as [|b bs' IH]; intros r l bb writable cum r1 l1 bb1 cum1 rest Hc;
    cbn [elastic.fill].
  - intros Heq; injection Heq as _ <- _ _ _. exact Hc.
  - destruct (len b >? writable).
    + destruct (ring_Write r (slice_to writable b)) as [[n0 e0] r2].
      destruct (linkedlist.PushBytesBack _ l bb) as [l2 bb2] eqn:EP.
      apply (PushBytesBack_nonempty _ _ _ _ _ Hc) in EP.
      intros Heq; injection Heq as _ <- _ _ _. exact EP.
    + destruct (ring_Write r b) as [[n0 e0] r2].
      intros Heq. exact (IH _ _ _ _ _ _ _ _ _ _ Hc Heq).
Qed.

(** For an elastic buffer whose list has no empty chunk, [IsEmpty] is true
    exactly when the buffer holds no byte; and [Read], [Discard], [Write],
    [Writev], [WriteTo], [Reset] and [Release] leave the list without an
    empty chunk.  ([ReadFrom] may link one.) *)
Theorem elastic_IsEmpty_means_no_bytes (mb : elastic.Buffer R)
  (ps : elastic.Pools R) :
  chunks_nonempty (linkedlist.nodes (elastic.listBuffer mb)) ->
  (elastic.IsEmpty mb = true <-> elastic_bytes mb = []) /\
  (forall p, let '(_, _, _, mb1, _) := elastic.Read mb ps p in
     chunks_nonempty (linkedlist.nodes (elastic.listBuffer mb1))) /\
  (forall n, let '(_, _, mb1, _) := elastic.Discard mb ps n in
     chunks_nonempty (linkedlist.nodes (elastic.listBuffer mb1))) /\
  (forall p, let '(_, _, mb1, _) := elastic.Write mb ps p in
     chunks_nonempty (linkedlist.nodes (elastic.listBuffer mb1))) /\
  (forall bs, let '(_, _, mb1, _) := elastic.Writev mb ps bs in
     chunks_nonempty (linkedlist.nodes (elastic.listBuffer mb1))) /\
  (forall (W : Type) (wr : Writer W) (w : W),
     let '(_, mb1, _, _) := elastic.WriteTo mb ps w in
     chunks_nonempty (linkedlist.nodes (elastic.listBuffer mb1))) /\
  (forall m, chunks_nonempty (linkedlist.nodes
     (elastic.listBuffer (fst (elastic.Reset mb ps m))))) /\
  chunks_nonempty (linkedlist.nodes
    (elastic.listBuffer (fst (elastic.Release mb ps)))).
Proof.
  intros Hc.
  assert (HRead : forall pl p,
    let '(_, _, _, llb1, _) :=
      linkedlist.Read (elastic.listBuffer mb) pl p in
    chunks_nonempty (linkedlist.nodes llb1)).
  { intros pl p. unfold linkedlist.Read.
    destruct (len p =? 0); [exact Hc|].
    destruct (linkedlist.Read_loop _ _ pl p 0) as [[[n1 p1] l1] pl1] eqn:E.
    exact (Read_loop_nonempty _ _ _ _ _ _ _ _ _ Hc E). }
  assert (HDiscard : forall pl n,
    let '(_, _, llb1, _) :=
      linkedlist.Discard (elastic.listBuffer mb) pl n in
    chunks_nonempty (linkedlist.nodes llb1)).
  { intros pl n. unfold linkedlist.Discard.
    destruct (n <=? 0); [exact Hc|].
    destruct (linkedlist.Discard_loop _ _ pl n 0) as [[d1 l1] pl1] eqn:E.
    exact (Discard_loop_nonempty _ _ _ _ _ _ _ _ Hc E). }
  assert (HWriteTo : forall (W : Type) (wr : Writer W) pl (w : W),
    let '(_, llb1, _, _) :=
      linkedlist.WriteTo (elastic.listBuffer mb) pl w in
    chunks_nonempty (linkedlist.nodes llb1)).
  { intros W wr pl w. unfold linkedlist.WriteTo.
    destruct (linkedlist.WriteTo_loop _ _ pl w 0) as [[[res l1] pl1] w1] eqn:E.
    exact (WriteTo_loop_nonempty _ _ _ _ _ _ _ _ _ Hc E). }
  assert (HA : forall mb0 ps0, elastic.acquire mb ps = (mb0, ps0) ->
    chunks_nonempty (linkedlist.nodes (elastic.listBuffer mb0))).
  { intros mb0 ps0. unfold elastic.acquire.
    destruct (is_nil (elastic.ringBuffer mb) && _).
    - destruct (rbPool.Get (elastic.rings ps)) as [r rb1].
      intros Heq; injection Heq as <- _. exact Hc.
    - intros Heq; injection Heq as <- _. exact Hc. }
  split; [|split; [|split; [|split; [|split; [|split; [|split]]]]]].
  - rewrite elastic_bytes_unfold. unfold elastic.IsEmpty, ring_part.
    pose proof (chain_bytes_nil_iff _ Hc) as Hl.
    assert (HL : linkedlist.IsEmpty (elastic.listBuffer mb) = true <->
                 list_bytes (elastic.listBuffer mb) = []).
    { unfold list_bytes, linkedlist.IsEmpty. rewrite Hl.
      destruct (linkedlist.nodes (elastic.listBuffer mb));
        split; intros Hx; try reflexivity; discriminate Hx. }
    destruct (elastic.ringBuffer mb) as [r|].
    + rewrite ring_IsEmpty_spec, andb_true_iff, HL, Z.eqb_eq. split.
      * intros [Hr Hx]. apply len_zero in Hr. rewrite Hr, Hx. reflexivity.
      * intros Hx. apply app_eq_nil in Hx. destruct Hx as [Hr Hx].
        rewrite Hr. split; [reflexivity|exact Hx].
    + cbn [app]. exact HL.
  - intros p. unfold elastic.Read.
    destruct (elastic.ringBuffer mb) as [r|].
    + destruct (ring_Read r p) as [[[n err] p1] r1].
      destruct (elastic.release_if_empty r1 _) as [ring1 rb1].
      destruct (n =? len p); [exact Hc|].
      specialize (HRead (elastic.chunks ps) (slice_from n p1)).
      destruct (linkedlist.Read _ _ _) as [[[[m err2] tl] l1] bb1].
      exact HRead.
    + specialize (HRead (elastic.chunks ps) p).
      destruct (linkedlist.Read _ _ _) as [[[[m err2] tl] l1] bb1].
      exact HRead.
  - intros n. unfold elastic.Discard.
    destruct (elastic.ringBuffer mb) as [r|].
    + destruct (ring_Discard r n) as [[d err] r1]. cbn zeta.
      destruct (n <=? ring_Buffered r).
      * destruct (n =? ring_Buffered r); exact Hc.
      * specialize (HDiscard (elastic.chunks ps) (n - ring_Buffered r)).
        destruct (linkedlist.Discard _ _ _) as [[[m err2] l1] bb1].
        exact HDiscard.
    + specialize (HDiscard (elastic.chunks ps) n).
      destruct (linkedlist.Discard _ _ _) as [[[m err2] l1] bb1].
      exact HDiscard.
  - intros p. unfold elastic.Write.
    destruct (elastic.acquire mb ps) as [mb0 ps0] eqn:EA.
    specialize (HA _ _ eq_refl).
    assert (Hpush : forall q l1 bb1,
      linkedlist.PushBytesBack q (elastic.listBuffer mb0) (elastic.chunks ps0)
      = (l1, bb1) -> chunks_nonempty (linkedlist.nodes l1)).
    { intros q l1 bb1. apply PushBytesBack_nonempty. exact HA. }
    destruct (elastic.to_list mb0).
    + destruct (linkedlist.PushBytesBack p _ _) as [l1 bb1] eqn:EP.
      exact (Hpush _ _ _ EP).
    + destruct (elastic.ringBuffer mb0) as [r|].
      * cbn zeta.
        destruct ((ring_Len r >=? _) && (len p >? ring_Available r)).
        -- destruct (ring_Write r _) as [[n0 e0] r1].
           destruct (linkedlist.PushBytesBack _ _ _) as [l1 bb1] eqn:EP.
           exact (Hpush _ _ _ EP).
        -- destruct (ring_Write r p) as [[n0 e0] r1]. exact HA.
      * destruct (linkedlist.PushBytesBack p _ _) as [l1 bb1] eqn:EP.
        exact (Hpush _ _ _ EP).
  - intros bs. unfold elastic.Writev.
    destruct (elastic.acquire mb ps) as [mb0 ps0] eqn:EA.
    specialize (HA _ _ eq_refl).
    destruct (elastic.to_list mb0).
    + destruct (elastic.push_all bs _ _ 0) as [[n0 l1] bb1] eqn:EP.
      exact (push_all_nonempty _ _ _ _ _ _ _ HA EP).
    + destruct (elastic.ringBuffer mb0) as [r|].
      * cbn zeta.
        destruct (elastic.fill bs r _ _ _ 0) as [[[[r1 l1] bb1] cum] rest] eqn:EF.
        apply (fill_nonempty _ _ _ _ _ _ _ _ _ _ _ HA) in EF.
        destruct (elastic.push_all rest l1 bb1 cum) as [[n0 l2] bb2] eqn:EP.
        exact (push_all_nonempty _ _ _ _ _ _ _ EF EP).
      * destruct (elastic.push_all bs _ _ 0) as [[n0 l1] bb1] eqn:EP.
        exact (push_all_nonempty _ _ _ _ _ _ _ HA EP).
  - intros W wr w. unfold elastic.WriteTo.
    destruct (elastic.ringBuffer mb) as [r|].
    + destruct (ring_WriteTo W wr r w) as [[[[n err]|] r1] w1]; [|exact Hc].
      destruct (elastic.release_if_empty r1 _) as [ring1 rb1].
      destruct (negb (is_nil err)); [exact Hc|].
      specialize (HWriteTo W wr (elastic.chunks ps) w1).
      destruct (linkedlist.WriteTo _ _ w1) as [[[[[m err2]|] l1] bb1] w2];
        exact HWriteTo.
    + specialize (HWriteTo W wr (elastic.chunks ps) w).
      destruct (linkedlist.WriteTo _ _ w) as [[[res l1] bb1] w2].
      exact HWriteTo.
  - intros m. unfold elastic.Reset.
    pose proof (Reset_nodes (elastic.listBuffer mb) (elastic.chunks ps)) as Hn.
    destruct (linkedlist.Reset _ _) as [l1 bb1]. cbn [fst] in *.
    cbn [elastic.listBuffer]. rewrite Hn. constructor.
  - unfold elastic.Release.
    pose proof (Reset_nodes (elastic.listBuffer mb) (elastic.chunks ps)) as Hn.
    destruct (linkedlist.Reset _ _) as [l1 bb1]. cbn [fst] in *.
    destruct (elastic.ringBuffer mb);
      cbn [elastic.listBuffer fst]; rewrite Hn; constructor.
Qed.

End ElasticEmpty.

Lemma elastic_IsEmpty_means_no_bytes_witness :
  let mb := ring_and_list in
  let ps := no_pools in
  chunks_nonempty (linkedlist.nodes (elastic.listBuffer mb)) /\
  (elastic.IsEmpty mb = true <-> elastic_bytes mb = []) /\
  (forall p, let '(_, _, _, mb1, _) := elastic.Read mb ps p in
     chunks_nonempty (linkedlist.nodes (elastic.listBuffer mb1))) /\
  (forall n, let '(_, _, mb1, _) := elastic.Discard mb ps n in
     chunks_nonempty (linkedlist.nodes (elastic.listBuffer mb1))) /\
  (forall p, let '(_, _, mb1, _) := elastic.Write mb ps p in
     chunks_nonempty (linkedlist.nodes (elastic.listBuffer mb1))) /\
  (forall bs, let '(_, _, mb1, _) := elastic.Writev mb ps bs in
     chunks_nonempty (linkedlist.nodes (elastic.listBuffer mb1))) /\
  (forall (W : Type) (wr : Writer W) (w : W),
     let '(_, mb1, _, _) := elastic.WriteTo mb ps w in
     chunks_nonempty (linkedlist.nodes (elastic.listBuffer mb1))) /\
  (forall m, chunks_nonempty (linkedlist.nodes
     (elastic.listBuffer (fst (elastic.Reset mb ps m))))) /\
  chunks_nonempty (linkedlist.nodes
    (elastic.listBuffer (fst (elastic.Release mb ps)))).
Proof.
  assert (Hc : chunks_nonempty
    (linkedlist.nodes (elastic.listBuffer ring_and_list))).
  { repeat constructor. }
  split; [exact Hc|].
  exact (elastic_IsEmpty_means_no_bytes (laws := ring_model_laws)
           ring_and_list no_pools Hc).
Defined.

Section ElasticPeekMore.
Context {R : Type} {ops : RingBuffer R} {view : RingView R}
  {laws : RingLaws R}.

(** What [Peek(n)] returns, for any [n], with [m] for [n] and for
    [math.MaxInt32] when [n <= 0]: the slices are, joined, the first bytes
    of the buffer, [m] of them or more, or all when the buffer holds fewer
    than [m]; when the ring alone holds [m] bytes they are the two slices
    of the ring, [m] bytes together.  [Peek] leaves the ring, the chain and
    the counters of the list as they are. *)
Theorem elastic_Peek_result (mb : elastic.Buffer R) (n : Z) :
  let m := if n <=? 0 then MaxInt32 else n in
  let '(sl, mb1) := elastic.Peek mb n in
  (exists rest, elastic_bytes mb = concat sl ++ rest) /\
  Z.min m (len (elastic_bytes mb)) <= len (concat sl) /\
  match elastic.ringBuffer mb with
  | Some r =>
      m <= ring_Buffered r ->
      length sl = 2%nat /\ concat sl = slice_to m (ring_bytes r)
  | None => True
  end /\
  elastic.ringBuffer mb1 = elastic.ringBuffer mb /\
  elastic.maxStaticBytes mb1 = elastic.maxStaticBytes mb /\
  linkedlist.nodes (elastic.listBuffer mb1)
  = linkedlist.nodes (elastic.listBuffer mb) /\
  linkedlist.size (elastic.listBuffer mb1)
  = linkedlist.size (elastic.listBuffer mb) /\
  linkedlist.bytes (elastic.listBuffer mb1)
  = linkedlist.bytes (elastic.listBuffer mb).
Proof.
  cbn zeta. set (m := if n <=? 0 then MaxInt32 else n).
  assert (Hpos : 0 < m).
  { subst m. destruct (n <=? 0) eqn:E; [reflexivity|lia]. }
  assert (Hm : (if m <=? 0 then MaxInt32 else m) = m).
  { replace (m <=? 0) with false by lia. reflexivity. }
  unfold elastic.Peek. rewrite (elastic_bytes_unfold mb).
  destruct (elastic.ringBuffer mb) as [rg|] eqn:Ering.
  - fold m.
    destruct (ring_Peek rg m) as [h t] eqn:EP.
    apply ring_Peek_spec in EP; [|exact Hpos].
    rewrite ring_Buffered_spec.
    pose proof (len_nonneg (ring_bytes rg)) as Hr0.
    destruct (len (ring_bytes rg) >=? m) eqn:E.
    + rewrite Ering. cbn [concat]. rewrite app_nil_r, EP.
      split; [|split; [|split; [|repeat split]]].
      * exists (slice_from m (ring_bytes rg)
                ++ list_bytes (elastic.listBuffer mb)).
        rewrite app_assoc, slice_to_from. reflexivity.
      * rewrite len_slice_to. lia.
      * intros _. split; reflexivity.
    + rewrite slice_to_all in EP by lia.
      unfold linkedlist.PeekBytesListWithBytes. rewrite Hm.
      destruct (peek_given_all m [h; t] 0 []) as (acc1 & Hp & Hc).
      { cbn [total_len]. rewrite Z.add_0_r, <- len_app, EP. lia. }
      rewrite Hp.
      cbn [concat app total_len] in Hc. rewrite app_nil_r, EP in Hc.
      assert (Hcum : 0 + total_len [h; t] = len (ring_bytes rg)).
      { cbn [total_len]. rewrite Z.add_0_r, <- len_app, EP. lia. }
      rewrite Hcum.
      destruct (peek_nodes_shortest m
                  (linkedlist.nodes (elastic.listBuffer mb))
                  (len (ring_bytes rg)) acc1)
        as (l1 & l2 & Hl & Hpk & Hfull & _); [lia|].
      rewrite Hpk.
      cbn [elastic.ringBuffer elastic.listBuffer elastic.maxStaticBytes
           linkedlist.nodes linkedlist.size linkedlist.bytes].
      rewrite concat_app, Hc, concat_map_B.
      unfold list_bytes. rewrite Hl, chain_bytes_app.
      split; [|split; [|split; [|repeat split]]].
      * exists (chain_bytes l2). rewrite app_assoc. reflexivity.
      * rewrite !len_app, <- !sum_len_chain.
        destruct Hfull as [->|Hfull]; cbn [sum_len]; lia.
      * intros Hle. lia.
  - destruct (linkedlist.PeekBytesList n (elastic.listBuffer mb))
      as [sl l1] eqn:EL.
    unfold linkedlist.PeekBytesList in EL. fold m in EL.
    injection EL as <- <-.
    destruct (peek_nodes_shortest m
                (linkedlist.nodes (elastic.listBuffer mb)) 0 [])
      as (l1 & l2 & Hl & Hpk & Hfull & _); [lia|].
    rewrite Hpk.
    cbn [elastic.ringBuffer elastic.listBuffer elastic.maxStaticBytes
         linkedlist.nodes linkedlist.size linkedlist.bytes app].
    rewrite concat_map_B.
    unfold list_bytes. rewrite Hl, chain_bytes_app.
    split; [|split; [|split; [|repeat split]]].
    + exists (chain_bytes l2). reflexivity.
    + rewrite !len_app, <- !sum_len_chain.
      destruct Hfull as [->|Hfull]; cbn [sum_len]; lia.
    + exact I.
Qed.

End ElasticPeekMore.

Lemma elastic_Peek_result_witness :
  let mb := ring_and_list in
  let n := 0 in
  let m := if n <=? 0 then MaxInt32 else n in
  let '(sl, mb1) := elastic.Peek mb n in
  (exists rest, elastic_bytes mb = concat sl ++ rest) /\
  Z.min m (len (elastic_bytes mb)) <= len (concat sl) /\
  match elastic.ringBuffer mb with
  | Some r =>
      m <= ring_Buffered r ->
      length sl = 2%nat /\ concat sl = slice_to m (ring_bytes r)
  | None => True
  end /\
  elastic.ringBuffer mb1 = elastic.ringBuffer mb /\
  elastic.maxStaticBytes mb1 = elastic.maxStaticBytes mb /\
  linkedlist.nodes (elastic.listBuffer mb1)
  = linkedlist.nodes (elastic.listBuffer mb) /\
  linkedlist.size (elastic.listBuffer mb1)
  = linkedlist.size (elastic.listBuffer mb) /\
  linkedlist.bytes (elastic.listBuffer mb1)
  = linkedlist.bytes (elastic.listBuffer mb).
Proof.
  exact (elastic_Peek_result (laws := ring_model_laws) ring_and_list 0).
Defined.

(** ** The codec of the tests *)

Lemma Z_of_byte_range (b : Byte.byte) : 0 <= Z_of_byte b < 256.
Proof.
  unfold Z_of_byte. pose proof (Byte.to_N_bounded b). lia.
Qed.

Lemma Z_of_byte_of (v : Z) : Z_of_byte (byte_of v) = v mod 256.
Proof.
  unfold Z_of_byte, byte_of.
  pose proof (Z.mod_pos_bound v 256 ltac:(lia)) as Hv.
  destruct (Byte.of_N (Z.to_N (v mod 256))) as [b|] eqn:E.
  - apply Byte.to_of_N in E. rewrite E. lia.
  - apply Byte.of_N_None_iff in E. lia.
Qed.

Lemma byte_of_Z_of_byte (b : Byte.byte) : byte_of (Z_of_byte b) = b.
Proof.
  unfold byte_of. pose proof (Z_of_byte_range b) as Hb.
  rewrite Z.mod_small by lia. unfold Z_of_byte.
  rewrite N2Z.id, Byte.of_to_N. reflexivity.
Qed.

Lemma bytes_Equal_eq (a : Bytes) : forall b, bytes_Equal a b = true <-> a = b.
Proof.
  induction a as [|x a IH]; intros [|y b]; cbn [bytes_Equal];
    try (split; [discriminate|discriminate]); [split; reflexivity|].
  rewrite andb_true_iff, IH. split.
  - intros [Hx ->]. apply Byte.byte_dec_bl in Hx. rewrite Hx. reflexivity.
  - intros Heq. injection Heq as -> ->. split; [|reflexivity].
    apply Byte.byte_dec_lb. reflexivity.
Qed.

Lemma lor_disjoint (lo hi k : Z) :
  0 <= k -> 0 <= lo < 2 ^ k -> Z.lor lo (hi * 2 ^ k) = lo + hi * 2 ^ k.
Proof.
  intros Hk Hlo.
  assert (Hland : Z.land lo (hi * 2 ^ k) = 0).
  { apply Z.bits_inj'. intros n Hn. rewrite Z.land_spec, Z.bits_0.
    destruct (Z.lt_ge_cases n k) as [Hlt|Hge].
    - rewrite (Z.mul_pow2_bits_low hi k n) by lia. apply andb_false_r.
    - rewrite <- (Z.mod_small lo (2 ^ k)) by lia.
      rewrite Z.mod_pow2_bits_high by lia. reflexivity. }
  rewrite <- Z.lxor_lor by exact Hland.
  symmetry. apply Z.add_nocarry_lxor. exact Hland.
Qed.

Lemma Uint32_value (b0 b1 b2 b3 : Byte.byte) (rest : Bytes) :
  binary.Uint32 (b0 :: b1 :: b2 :: b3 :: rest)
  = Returned (Z_of_byte b0 * 2 ^ 24 + Z_of_byte b1 * 2 ^ 16
              + Z_of_byte b2 * 2 ^ 8 + Z_of_byte b3).
Proof.
  unfold binary.Uint32, uint32.
  pose proof (Z_of_byte_range b0). pose proof (Z_of_byte_range b1).
  pose proof (Z_of_byte_range b2). pose proof (Z_of_byte_range b3).
  rewrite !Z.shiftl_mul_pow2 by lia.
  change (2 ^ 32) with 4294967296. change (2 ^ 24) with 16777216.
  change (2 ^ 16) with 65536. change (2 ^ 8) with 256.
  rewrite !Z.mod_small by lia.
  change 256 with (2 ^ 8) at 1. rewrite lor_disjoint by lia.
  change 65536 with (2 ^ 16) at 1. rewrite lor_disjoint by lia.
  change 16777216 with (2 ^ 24) at 1. rewrite lor_disjoint by lia.
  f_equal. lia.
Qed.

Lemma byte_of_mod (a b : Z) : a mod 256 = b mod 256 -> byte_of a = byte_of b.
Proof. unfold byte_of. intros ->. reflexivity. Qed.

Lemma byte_of_eq (a : Z) (b : Byte.byte) :
  a mod 256 = Z_of_byte b -> byte_of a = b.
Proof.
  intros Ha. rewrite <- (byte_of_Z_of_byte b). apply byte_of_mod.
  rewrite Ha. pose proof (Z_of_byte_range b). rewrite Z.mod_small by lia.
  reflexivity.
Qed.

Lemma be32_bytes (b0 b1 b2 b3 : Byte.byte) :
  be32 (Z_of_byte b0 * 2 ^ 24 + Z_of_byte b1 * 2 ^ 16
        + Z_of_byte b2 * 2 ^ 8 + Z_of_byte b3)
  = [b0; b1; b2; b3].
Proof.
  unfold be32.
  pose proof (Z_of_byte_range b0). pose proof (Z_of_byte_range b1).
  pose proof (Z_of_byte_range b2). pose proof (Z_of_byte_range b3).
  rewrite !Z.shiftr_div_pow2 by lia.
  change (2 ^ 24) with 16777216. change (2 ^ 16) with 65536.
  change (2 ^ 8) with 256.
  repeat f_equal; apply byte_of_eq; Z.to_euclidean_division_equations; lia.
Qed.

Lemma be32_value (v : Z) :
  0 <= v < 2 ^ 32 ->
  Z_of_byte (byte_of (Z.shiftr v 24)) * 2 ^ 24
  + Z_of_byte (byte_of (Z.shiftr v 16)) * 2 ^ 16
  + Z_of_byte (byte_of (Z.shiftr v 8)) * 2 ^ 8 + Z_of_byte (byte_of v) = v.
Proof.
  intros Hv. rewrite !Z_of_byte_of.
  rewrite !Z.shiftr_div_pow2 by lia.
  change (2 ^ 32) with 4294967296 in Hv.
  change (2 ^ 24) with 16777216. change (2 ^ 16) with 65536.
  change (2 ^ 8) with 256.
  Z.to_euclidean_division_equations. lia.
Qed.

Lemma Uint32_be32 (v : Z) (rest : Bytes) :
  0 <= v < 2 ^ 32 -> binary.Uint32 (be32 v ++ rest) = Returned v.
Proof.
  intros Hv. unfold be32. cbn [app]. rewrite Uint32_value.
  rewrite (be32_value v Hv). reflexivity.
Qed.

Lemma magicNumberBytes_value : magicNumberBytes = [Byte.x05; Byte.x22].
Proof. reflexivity. Qed.

Lemma len_be32 (v : Z) : len (be32 v) = 4.
Proof. reflexivity. Qed.

Lemma len_frame (body : Bytes) : len (frame body) = 6 + len body.
Proof.
  unfold frame. rewrite !len_app, len_be32, magicNumberBytes_value.
  cbn [len length Z.of_nat]. lia.
Qed.

Lemma slice_ok (s : Bytes) (lo hi : Z) :
  0 <= lo <= hi -> hi <= len s ->
  slice s lo hi = Returned (slice_from lo (slice_to hi s)).
Proof.
  intros H1 H2. unfold slice.
  replace (0 <=? lo) with true by lia. replace (lo <=? hi) with true by lia.
  replace (hi <=? len s) with true by lia. reflexivity.
Qed.

Lemma uint32_range (v : Z) : 0 <= uint32 v < 2 ^ 32.
Proof. unfold uint32. apply Z.mod_pos_bound. reflexivity. Qed.

Lemma make_value (n : nat) : make (Z.of_nat n) = Returned (repeat Byte.x00 n).
Proof.
  unfold make. destruct (Z.ltb_spec (Z.of_nat n) 0) as [Hlt|_]; [lia|].
  rewrite Nat2Z.id. reflexivity.
Qed.

Lemma Encode_value (buf : Bytes) :
  testCodec.Encode buf = Returned (Some (frame buf), None).
Proof.
  unfold testCodec.Encode, frame. cbn zeta.
  change (magicNumberSize + bodySize) with 6.
  change magicNumberSize with 2.
  replace (6 + len buf) with (Z.of_nat (6 + length buf))
    by (unfold len; lia).
  rewrite make_value. cbn [and_then].
  rewrite magicNumberBytes_value.
  change (repeat Byte.x00 (6 + length buf))
    with (Byte.x00 :: Byte.x00 :: Byte.x00 :: Byte.x00 :: Byte.x00
          :: Byte.x00 :: repeat Byte.x00 (length buf)).
  set (zeros := repeat Byte.x00 (length buf)).
  assert (Hz : length zeros = length buf) by apply repeat_length.
  assert (Hcopy :
    snd (copy (Byte.x00 :: Byte.x00 :: Byte.x00 :: Byte.x00 :: Byte.x00
               :: Byte.x00 :: zeros) [Byte.x05; Byte.x22])
    = Byte.x05 :: Byte.x22 :: Byte.x00 :: Byte.x00 :: Byte.x00
      :: Byte.x00 :: zeros).
  { rewrite copy_spec. cbn [snd]. rewrite slice_to_all.
    - reflexivity.
    - unfold len. cbn [length]. lia. }
  rewrite Hcopy.
  rewrite slice_ok; [|lia|unfold len; cbn [length]; lia].
  cbn [and_then].
  change (slice_from 2 (slice_to 6 (Byte.x05 :: Byte.x22 :: Byte.x00
            :: Byte.x00 :: Byte.x00 :: Byte.x00 :: zeros)))
    with [Byte.x00; Byte.x00; Byte.x00; Byte.x00].
  change (binary.PutUint32 [Byte.x00; Byte.x00; Byte.x00; Byte.x00]
            (uint32 (len buf)))
    with (Returned (be32 (uint32 (len buf)))).
  cbn [and_then].
  change (slice_to 2 (Byte.x05 :: Byte.x22 :: Byte.x00 :: Byte.x00
            :: Byte.x00 :: Byte.x00 :: zeros) ++ be32 (uint32 (len buf))
          ++ slice_from 6 (Byte.x05 :: Byte.x22 :: Byte.x00 :: Byte.x00
            :: Byte.x00 :: Byte.x00 :: zeros))
    with (Byte.x05 :: Byte.x22 :: be32 (uint32 (len buf)) ++ zeros).
  set (v := uint32 (len buf)). unfold be32. cbn [app].
  rewrite slice_ok; [|lia|unfold len; cbn [length]; lia].
  cbn [and_then].
  unfold slice_to, slice_from. rewrite Nat2Z.id.
  change (Z.to_nat 6) with 6%nat.
  cbn [firstn skipn Nat.add app].
  rewrite <- Hz, firstn_all, skipn_all. cbn [firstn skipn app].
  rewrite copy_spec. cbn [snd].
  rewrite slice_to_all by (unfold len; lia).
  rewrite slice_from_all by (unfold len; lia).
  rewrite !app_nil_r. reflexivity.
Qed.

(** [Encode] never panics and never returns an error: it returns the frame
    of the body, which is the magic number [05 22], the length of the body
    modulo [2^32] in four bytes, most significant first, and the body,
    [6 + len(buf)] bytes in all. *)
Theorem Encode_returns_the_frame (buf : Bytes) :
  testCodec.Encode buf = Returned (Some (frame buf), None) /\
  frame buf = [Byte.x05; Byte.x22] ++ be32 (len buf mod 2 ^ 32) ++ buf /\
  len (frame buf) = 6 + len buf.
Proof.
  split; [apply Encode_value|].
  split; [|apply len_frame].
  unfold frame, uint32. rewrite magicNumberBytes_value. reflexivity.
Qed.

Lemma Unpack_short (buf : Bytes) :
  len buf < 6 ->
  testCodec.Unpack buf = Returned (None, Some errIncompletePacket).
Proof.
  intros Hlen. unfold testCodec.Unpack. cbn zeta.
  change (magicNumberSize + bodySize) with 6.
  replace (len buf <? 6) with true by lia. reflexivity.
Qed.

Lemma Unpack_six (a b b0 b1 b2 b3 : Byte.byte) (tl : Bytes) :
  testCodec.Unpack (a :: b :: b0 :: b1 :: b2 :: b3 :: tl)
  = if negb (bytes_Equal magicNumberBytes [a; b])
    then Returned (None, Some errInvalidMagicNumber)
    else
      let n := Z_of_byte b0 * 2 ^ 24 + Z_of_byte b1 * 2 ^ 16
               + Z_of_byte b2 * 2 ^ 8 + Z_of_byte b3 in
      if len tl <? n then Returned (None, Some errIncompletePacket)
      else Returned (Some (slice_to n tl), None).
Proof.
  unfold testCodec.Unpack. cbn zeta.
  change (magicNumberSize + bodySize) with 6.
  change magicNumberSize with 2.
  set (buf := a :: b :: b0 :: b1 :: b2 :: b3 :: tl).
  assert (Hlen : len buf = 6 + len tl).
  { unfold buf, len. cbn [length]. lia. }
  pose proof (len_nonneg tl) as Htl.
  replace (len buf <? 6) with false by lia.
  rewrite slice_ok by lia. cbn [and_then].
  change (slice_from 0 (slice_to 2 buf)) with [a; b].
  destruct (negb (bytes_Equal magicNumberBytes [a; b])); [reflexivity|].
  rewrite slice_ok by lia. cbn [and_then].
  change (slice_from 2 (slice_to 6 buf)) with [b0; b1; b2; b3].
  rewrite Uint32_value. cbn [and_then].
  set (n := Z_of_byte b0 * 2 ^ 24 + Z_of_byte b1 * 2 ^ 16
            + Z_of_byte b2 * 2 ^ 8 + Z_of_byte b3).
  assert (Hn : 0 <= n).
  { unfold n. pose proof (Z_of_byte_range b0). pose proof (Z_of_byte_range b1).
    pose proof (Z_of_byte_range b2). pose proof (Z_of_byte_range b3). lia. }
  rewrite Hlen.
  replace (6 + len tl <? 6 + n) with (len tl <? n) by lia.
  destruct (len tl <? n) eqn:E; [reflexivity|].
  rewrite slice_ok by lia. cbn [and_then].
  do 3 f_equal.
  unfold slice_from, slice_to, buf.
  replace (Z.to_nat (6 + n)) with (6 + Z.to_nat n)%nat by lia.
  change (Z.to_nat 6) with 6%nat. reflexivity.
Qed.

Lemma six_or_short (buf : Bytes) :
  len buf < 6 \/
  exists a b b0 b1 b2 b3 tl, buf = a :: b :: b0 :: b1 :: b2 :: b3 :: tl.
Proof.
  destruct buf as [|a [|b [|b0 [|b1 [|b2 [|b3 tl]]]]]];
    try (left; unfold len; cbn [length]; lia).
  right. exists a, b, b0, b1, b2, b3, tl. reflexivity.
Qed.

Lemma Unpack_frame (body rest : Bytes) :
  testCodec.Unpack (frame body ++ rest)
  = Returned (Some (slice_to (uint32 (len body)) body), None).
Proof.
  unfold frame. rewrite magicNumberBytes_value.
  pose proof (uint32_range (len body)) as Hv.
  set (v := uint32 (len body)) in *.
  unfold be32. cbn [app].
  rewrite Unpack_six. cbn zeta.
  rewrite (be32_value v Hv).
  change (negb (bytes_Equal magicNumberBytes [Byte.x05; Byte.x22]))
    with false. cbv iota.
  assert (Hle : v <= len body).
  { unfold v, uint32. pose proof (len_nonneg body).
    apply Z.mod_le; lia. }
  rewrite len_app. pose proof (len_nonneg rest).
  replace (len body + len rest <? v) with false by lia.
  rewrite slice_to_app_le by lia. reflexivity.
Qed.

(** Round trip: [Unpack] of what [Encode] returned, followed by any bytes,
    is the body, for a body shorter than [2^32] bytes.  A longer body does
    not come back: its length is stored modulo [2^32], and [Unpack] returns
    that many bytes of it. *)
Theorem Unpack_Encode_round_trip (buf rest : Bytes) :
  exists data,
    testCodec.Encode buf = Returned (Some data, None) /\
    testCodec.Unpack (data ++ rest)
    = Returned (Some (slice_to (len buf mod 2 ^ 32) buf), None) /\
    (len buf < 2 ^ 32 ->
     testCodec.Unpack (data ++ rest) = Returned (Some buf, None)).
Proof.
  exists (frame buf).
  split; [apply Encode_value|].
  rewrite Unpack_frame. split; [reflexivity|].
  intros Hlt. unfold uint32. pose proof (len_nonneg buf).
  rewrite Z.mod_small by lia. rewrite slice_to_all by lia. reflexivity.
Qed.

(** [Unpack] returns a body exactly for the buffers that start with the
    frame of that body: [Unpack(buf)] is [(body, nil)] if and only if
    [body] is shorter than [2^32] bytes and [buf] is its frame followed by
    any bytes, which [Unpack] leaves alone. *)
Theorem Unpack_accepts_frames (buf body : Bytes) :
  testCodec.Unpack buf = Returned (Some body, None) <->
  len body < 2 ^ 32 /\ exists rest, buf = frame body ++ rest.
Proof.
  split.
  - destruct (six_or_short buf)
      as [Hshort|(a & b & b0 & b1 & b2 & b3 & tl & ->)].
    { rewrite Unpack_short by exact Hshort. discriminate. }
    rewrite Unpack_six. cbn zeta.
    destruct (bytes_Equal magicNumberBytes [a; b]) eqn:Emagic;
      cbn [negb]; [|discriminate].
    apply bytes_Equal_eq in Emagic.
    set (n := Z_of_byte b0 * 2 ^ 24 + Z_of_byte b1 * 2 ^ 16
              + Z_of_byte b2 * 2 ^ 8 + Z_of_byte b3).
    assert (Hn : 0 <= n < 2 ^ 32).
    { unfold n. pose proof (Z_of_byte_range b0).
      pose proof (Z_of_byte_range b1). pose proof (Z_of_byte_range b2).
      pose proof (Z_of_byte_range b3).
      change (2 ^ 32) with 4294967296. change (2 ^ 24) with 16777216.
      change (2 ^ 16) with 65536. change (2 ^ 8) with 256. lia. }
    destruct (len tl <? n) eqn:E; [discriminate|].
    intros Heq. injection Heq as <-.
    assert (Hlen : len (slice_to n tl) = n).
    { rewrite len_slice_to. lia. }
    split; [lia|].
    exists (slice_from n tl). unfold frame.
    rewrite Hlen. unfold uint32. rewrite Z.mod_small by lia.
    unfold n at 1. rewrite be32_bytes, Emagic.
    rewrite <- !app_assoc. cbn [app]. rewrite slice_to_from. reflexivity.
  - intros (Hlt & rest & ->). rewrite Unpack_frame.
    unfold uint32. pose proof (len_nonneg body).
    rewrite Z.mod_small by lia. rewrite slice_to_all by lia. reflexivity.
Qed.

(** [Unpack] never panics, and returns one of three results: a body and a
    nil error, [errIncompletePacket], or the error for a wrong magic
    number.  The last is returned exactly for a buffer of six bytes or more
    that does not start with the magic number; a buffer of fewer than six
    bytes is incomplete, whatever it starts with. *)
Theorem Unpack_results (buf : Bytes) :
  ((exists body, testCodec.Unpack buf = Returned (Some body, None)) \/
   testCodec.Unpack buf = Returned (None, Some errIncompletePacket) \/
   testCodec.Unpack buf = Returned (None, Some errInvalidMagicNumber)) /\
  (testCodec.Unpack buf = Returned (None, Some errInvalidMagicNumber) <->
   6 <= len buf /\ slice_to 2 buf <> magicNumberBytes) /\
  (len buf < 6 ->
   testCodec.Unpack buf = Returned (None, Some errIncompletePacket)).
Proof.
  destruct (six_or_short buf)
    as [Hshort|(a & b & b0 & b1 & b2 & b3 & tl & ->)].
  - rewrite (Unpack_short _ Hshort). split; [right; left; reflexivity|].
    split; [|reflexivity].
    split; [discriminate|]. intros [Hlen _]. lia.
  - rewrite Unpack_six. cbn zeta.
    change (slice_to 2 (a :: b :: b0 :: b1 :: b2 :: b3 :: tl)) with [a; b].
    assert (Hlen : 6 <= len (a :: b :: b0 :: b1 :: b2 :: b3 :: tl)).
    { unfold len. cbn [length]. lia. }
    destruct (bytes_Equal magicNumberBytes [a; b]) eqn:Emagic; cbn [negb].
    + apply bytes_Equal_eq in Emagic.
      destruct (len tl <? _).
      * split; [right; left; reflexivity|].
        split; [|reflexivity].
        split; [discriminate|]. intros [_ Hne]. congruence.
      * split; [left; eexists; reflexivity|].
        split; [|intros Hx; lia].
        split; [discriminate|]. intros [_ Hne]. congruence.
    + split; [right; right; reflexivity|].
      split; [|intros Hx; lia].
      split; [|reflexivity]. intros _. split; [exact Hlen|].
      intros Heq. rewrite Heq in Emagic.
      assert (Ht : bytes_Equal magicNumberBytes magicNumberBytes = true)
        by (apply bytes_Equal_eq; reflexivity).
      congruence.
Qed.

(** A frame cut short is incomplete: for a body shorter than [2^32] bytes,
    [Unpack] of any proper prefix of its frame returns
    [errIncompletePacket], never a body and never the error for a wrong
    magic number. *)
Theorem Unpack_cut_frame (body : Bytes) (k : Z) :
  len body < 2 ^ 32 ->
  k < len (frame body) ->
  testCodec.Unpack (slice_to k (frame body))
  = Returned (None, Some errIncompletePacket).
Proof.
  intros Hlt Hk. rewrite len_frame in Hk.
  pose proof (len_nonneg body) as Hb.
  destruct (Z.lt_ge_cases k 6) as [Hk6|Hk6].
  - apply Unpack_short. rewrite len_slice_to. lia.
  - unfold frame. rewrite magicNumberBytes_value.
    assert (Hv : uint32 (len body) = len body).
    { unfold uint32. apply Z.mod_small. lia. }
    rewrite Hv.
    assert (Hr : 0 <= len body < 2 ^ 32) by lia.
    unfold be32. cbn [app].
    unfold slice_to.
    replace (Z.to_nat k) with (6 + Z.to_nat (k - 6))%nat by lia.
    cbn [firstn Nat.add].
    rewrite Unpack_six. cbn zeta. rewrite (be32_value (len body) Hr).
    change (negb (bytes_Equal magicNumberBytes [Byte.x05; Byte.x22]))
      with false. cbv iota.
    fold (slice_to (k - 6) body). rewrite len_slice_to.
    replace (Z.min (Z.max 0 (k - 6)) (len body) <? len body) with true by lia.
    reflexivity.
Qed.

(** The verification loop of [batchWriteAndVerify]: when the response is the
    frames of the requests one after the other, all requests of the same
    length [L < 2^32], then [Unpack] at offset [i * packetLen], with
    [packetLen = 6 + L], returns request [i]. *)
Theorem Unpack_batch (requests : list Bytes) (L : Z) (i : nat) :
  L < 2 ^ 32 ->
  Forall (fun req => len req = L) requests ->
  (i < length requests)%nat ->
  testCodec.Unpack
    (slice_from (Z.of_nat i * (6 + L)) (concat (map frame requests)))
  = Returned (Some (nth i requests []), None).
Proof.
  intros HL Hall. revert i.
  induction Hall as [|req reqs Hreq Hall IH]; intros i Hi;
    cbn [length] in Hi; [lia|].
  cbn [map concat].
  destruct i as [|i].
  - cbn [nth]. rewrite slice_from_0 by lia.
    rewrite Unpack_frame. unfold uint32. pose proof (len_nonneg req).
    rewrite Z.mod_small by lia. rewrite slice_to_all by lia. reflexivity.
  - cbn [nth]. pose proof (len_nonneg req) as Hreq0.
    assert (HS : Z.of_nat (S i) * (6 + L)
                 = Z.of_nat i * (6 + L) + (6 + L)) by lia.
    assert (Hnn : 0 <= Z.of_nat i * (6 + L))
      by (apply Z.mul_nonneg_nonneg; lia).
    rewrite slice_from_app_ge by (rewrite len_frame; lia).
    rewrite len_frame, Hreq.
    replace (Z.of_nat (S i) * (6 + L) - (6 + L)) with (Z.of_nat i * (6 + L))
      by lia.
    apply IH. lia.
Qed.

Lemma Unpack_cut_frame_witness :
  len abcde < 2 ^ 32 /\ 8 < len (frame abcde) /\
  testCodec.Unpack (slice_to 8 (frame abcde))
  = Returned (None, Some errIncompletePacket).
Proof.
  assert (H1 : len abcde < 2 ^ 32) by reflexivity.
  assert (H2 : 8 < len (frame abcde)) by reflexivity.
  split; [exact H1|]. split; [exact H2|].
  exact (Unpack_cut_frame abcde 8 H1 H2).
Defined.

Lemma Unpack_batch_witness :
  5 < 2 ^ 32 /\
  Forall (fun req => len req = 5) [abcde; abcde; abcde] /\
  (2 < length [abcde; abcde; abcde])%nat /\
  testCodec.Unpack
    (slice_from (Z.of_nat 2 * (6 + 5))
       (concat (map frame [abcde; abcde; abcde])))
  = Returned (Some (nth 2 [abcde; abcde; abcde] []), None).
Proof.
  assert (H1 : 5 < 2 ^ 32) by reflexivity.
  assert (H2 : Forall (fun req => len req = 5) [abcde; abcde; abcde]).
  { repeat constructor. }
  assert (H3 : (2 < length [abcde; abcde; abcde])%nat).
  { cbn [length]. lia. }
  split; [exact H1|]. split; [exact H2|]. split; [exact H3|].
  exact (Unpack_batch [abcde; abcde; abcde] 5 2 H1 H2 H3).
Defined.
